(** * Prompt translator: a shallow embedding of [scripts/prompt_translator.py]

    The development follows the Python module top-down:
    - [Py]: the fragment of Python's [str] and [list] semantics the script
      relies on (indexing with negative wrap-around and [IndexError],
      slicing with clamping, [split], [join], [startswith], [isspace], ...);
    - [Re]: leftmost, non-overlapping regular-expression scanning, shared by
      [re.sub], [re.split] and [finditer], for the three patterns of the script;
    - the text functions [remove_unnecessary_spaces], [extract_plus_positions],
      [match_pluses], [post_process_prompt];
    - the translation cache ([load_csv], [custom_translate]), read from
      [translations.csv] on every call of [Script.transfer];
    - the stateful part ([MBartTranslator.translate], [Script.transfer],
      [Script.process_text], [Script.process]) in a state-and-exception monad
      whose state holds the opaque model, the trace of translator calls and the
      host's prompt object [p]. *)

From Stdlib Require Import String Ascii.
From Stdlib Require Import List ZArith NArith Bool Lia.
Import ListNotations.

Local Open Scope Z_scope.

(** ** Python values *)

(** A Python [str] is a sequence of Unicode code points. *)
Definition char := N.
Definition pystr := list char.

(** ASCII literals: every byte below 128 is its own code point. *)
Fixpoint str (s : string) : pystr :=
  match s with
  | EmptyString => []
  | String a r => N_of_ascii a :: str r
  end.

(** Exceptions the script can raise: by indexing, by the translator's
    language check and by [dict], and by opening, decoding and parsing
    [translations.csv]. *)
Inductive exn :=
| IndexError
| ValueError
| FileNotFoundError
| PermissionError
| UnicodeDecodeError
| CsvError.

Inductive result (A : Type) :=
| Ok (a : A)
| Raise (e : exn).
Arguments Ok {A} a.
Arguments Raise {A} e.

Definition rbind {A B} (r : result A) (k : A -> result B) : result B :=
  match r with
  | Ok a => k a
  | Raise e => Raise e
  end.

Module Py.

Definition len {A} (l : list A) : Z := Z.of_nat (length l).

(** [l[i]]: a negative index counts from the end, anything outside
    [-len, len) raises [IndexError]. *)
Definition getitem {A} (l : list A) (i : Z) : result A :=
  let i' := if i <? 0 then i + len l else i in
  if i' <? 0 then Raise IndexError
  else match nth_error l (Z.to_nat i') with
       | Some a => Ok a
       | None => Raise IndexError
       end.

(** Slice bounds: negative bounds count from the end, then clamp to [0, len]. *)
Definition clamp (n i : Z) : Z :=
  if i <? 0 then Z.max (i + n) 0 else Z.min i n.

(** [l[a:b]] never raises. *)
Definition slice {A} (l : list A) (a b : Z) : list A :=
  let a' := clamp (len l) a in
  let b' := clamp (len l) b in
  firstn (Z.to_nat (b' - a')) (skipn (Z.to_nat a') l).

(** [l[a:]] *)
Definition slice_from {A} (l : list A) (a : Z) : list A :=
  slice l a (len l).

Definition eqb (s t : pystr) : bool :=
  if list_eq_dec N.eq_dec s t then true else false.

(** [s.startswith(c)] and [s.endswith(c)] for a one-character [c]. *)
Definition startswith (s : pystr) (c : char) : bool :=
  match s with
  | x :: _ => N.eqb x c
  | [] => false
  end.

Definition endswith (s : pystr) (c : char) : bool :=
  match rev s with
  | x :: _ => N.eqb x c
  | [] => false
  end.

(** [s.split(sep)] for a one-character separator: always at least one
    field, empty fields kept. *)
Fixpoint split (sep : char) (s : pystr) : list pystr :=
  match s with
  | [] => [[]]
  | c :: r =>
      if N.eqb c sep then [] :: split sep r
      else match split sep r with
           | f :: fs => (c :: f) :: fs
           | [] => [[c]]
           end
  end.

(** [sep.join(fields)] *)
Fixpoint join (sep : pystr) (fields : list pystr) : pystr :=
  match fields with
  | [] => []
  | [f] => f
  | f :: fs => f ++ sep ++ join sep fs
  end.

(** [c.isascii()] *)
Definition isascii (c : char) : bool := (c <? 128)%N.

(** [c.isspace()], which is also what [\s] matches in a [str] pattern: the
    code points of category Zs or of bidirectional class WS, B or S. *)
Definition isspace (c : char) : bool :=
  ((9 <=? c) && (c <=? 13) || (28 <=? c) && (c <=? 32) ||
   (c =? 133) || (c =? 160) || (c =? 5760) ||
   (8192 <=? c) && (c <=? 8202) || (c =? 8232) || (c =? 8233) ||
   (c =? 8239) || (c =? 8287) || (c =? 12288))%N.

(** [s.translate(table)] with a table that maps single code points. *)
Definition translate (table : list (char * char)) (s : pystr) : pystr :=
  map (fun c =>
         match find (fun kv => N.eqb (fst kv) c) table with
         | Some kv => snd kv
         | None => c
         end) s.

End Py.

(** Code points used by the script. *)
Definition LT : char := 60%N.      (* < *)
Definition GT : char := 62%N.      (* > *)
Definition PLUS : char := 43%N.    (* + *)
Definition RPAREN : char := 41%N.  (* ) *)
Definition COMMA : char := 44%N.   (* , *)

(** ** Regular-expression scanning *)

Module Re.

(** The engine reports leftmost, non-overlapping matches.  The text is cut
    into pieces: the stretches between matches ([Gap], possibly empty) and
    the matches ([Hit]).  The cut always starts and ends with a [Gap] and
    alternates, which is the list [re.split] returns for a pattern that is
    one capture group. *)
Inductive piece :=
| Gap (s : pystr)
| Hit (s : pystr).

Definition text_of (p : piece) : pystr :=
  match p with Gap s | Hit s => s end.

Definition cons_gap (c : char) (ps : list piece) : list piece :=
  match ps with
  | Gap g :: ps' => Gap (c :: g) :: ps'
  | _ => Gap [c] :: ps
  end.

Definition cons_hit (c : char) (ps : list piece) : list piece :=
  match ps with
  | Hit h :: ps' => Hit (c :: h) :: ps'
  | _ => Hit [c] :: ps
  end.

Section Scan.

(** [match_here s]: the length of the pattern's match anchored at the
    first character of [s], if the pattern matches there.  The patterns
    of the script never match the empty string. *)
Variable match_here : pystr -> option nat.

(** [pieces text skip]: the cut of [text], whose first [skip] characters
    still belong to the match in progress. *)
Fixpoint pieces (text : pystr) (skip : nat) : list piece :=
  match text with
  | [] => [Gap []]
  | c :: rest =>
      match skip with
      | S k => cons_hit c (pieces rest k)
      | O =>
          match match_here text with
          | Some (S n) => Gap [] :: cons_hit c (pieces rest n)
          | _ => cons_gap c (pieces rest 0)
          end
      end
  end.

(** [re.split(pattern, text)] where [pattern] is a single capture group. *)
Definition split (text : pystr) : list pystr :=
  map text_of (pieces text 0).

(** [re.sub(pattern, repl, text)] for a replacement without group
    references. *)
Definition sub (repl text : pystr) : pystr :=
  concat (map (fun p => match p with Gap g => g | Hit _ => repl end)
              (pieces text 0)).

(** [pattern.finditer(text)]: the [(start(), end())] of every match. *)
Fixpoint spans (ps : list piece) (pos : Z) : list (Z * Z) :=
  match ps with
  | [] => []
  | Gap g :: ps' => spans ps' (pos + Py.len g)
  | Hit h :: ps' => (pos, pos + Py.len h) :: spans ps' (pos + Py.len h)
  end.

Definition finditer (text : pystr) : list (Z * Z) :=
  spans (pieces text 0) 0.

End Scan.

(** Number of leading characters of [s] that satisfy [f] (a greedy star). *)
Fixpoint span_len (f : char -> bool) (s : pystr) : nat :=
  match s with
  | c :: r => if f c then S (span_len f r) else O
  | [] => O
  end.

(** [\++]: one or more [+], greedy. *)
Definition plus_run (s : pystr) : option nat :=
  match span_len (N.eqb PLUS) s with
  | O => None
  | n => Some n
  end.

(** [<[^>]*>]: a [<], then everything up to the next [>], which must exist. *)
Definition directive (s : pystr) : option nat :=
  match s with
  | c :: r =>
      if N.eqb c LT then
        let k := span_len (fun x => negb (N.eqb x GT)) r in
        match skipn k r with
        | _ :: _ => Some (S (S k))
        | [] => None
        end
      else None
  | [] => None
  end.

(** [\)\s*\+\+], the first alternative of the tightening pattern.  [\s*] is
    greedy; giving back whitespace cannot help, as the next character would
    then be whitespace and not [+]. *)
Definition close_spaces_plusplus (s : pystr) : option nat :=
  match s with
  | c :: r =>
      if N.eqb c RPAREN then
        let k := span_len Py.isspace r in
        match skipn k r with
        | a :: b :: _ =>
            if N.eqb a PLUS && N.eqb b PLUS then Some (S k + 2)%nat else None
        | _ => None
        end
      else None
  | [] => None
  end.

(** [\)\+\+\s*], the second alternative. *)
Definition close_plusplus_spaces (s : pystr) : option nat :=
  match s with
  | c :: a :: b :: r =>
      if N.eqb c RPAREN && N.eqb a PLUS && N.eqb b PLUS
      then Some (3 + span_len Py.isspace r)%nat
      else None
  | _ => None
  end.

(** [\)\s*\+\+|\)\+\+\s*]: alternatives are tried left to right. *)
Definition tighten_pattern (s : pystr) : option nat :=
  match close_spaces_plusplus s with
  | Some n => Some n
  | None => close_plusplus_spaces s
  end.

End Re.

(** ** Text post-processing *)

(** [remove_unnecessary_spaces(text)]:
    [re.sub(r"\)\s*\+\+|\)\+\+\s*", r")++", text)]. *)
Definition remove_unnecessary_spaces (text : pystr) : pystr :=
  Re.sub Re.tighten_pattern (str ")++") text.

(** The loop [while text[j] == "+": j -= 1].  Every round reads [text[j]],
    which raises [IndexError] once [j] has fallen below [-len(text)]; [fuel]
    bounds the number of rounds and [j + len(text) + 1] rounds are enough
    (lemma [while_plus_fuel]). *)
Fixpoint while_plus (text : pystr) (fuel : nat) (j : Z) : result Z :=
  rbind (Py.getitem text j) (fun c =>
    if N.eqb c PLUS then
      match fuel with
      | S fuel' => while_plus text fuel' (j - 1)
      | O => Raise IndexError
      end
    else Ok j).

(** The block shared by the loop body and the final test of
    [extract_plus_positions]:
<<
    j = last_match_end - 1
    while text[j] == "+":
        j -= 1
    j += 1
    positions.append([j, last_match_end, last_match_end - j])
>> *)
Definition append_position (text : pystr) (positions : list (Z * Z * Z))
    (last_match_end : Z) : result (list (Z * Z * Z)) :=
  let j := last_match_end - 1 in
  rbind (while_plus text (Z.to_nat (j + Py.len text + 1)) j) (fun j =>
    let j := j + 1 in
    Ok (positions ++ [(j, last_match_end, last_match_end - j)])).

(** The [for match in matches] loop; the state is [positions] and
    [last_match_end] ([None] before the first match). *)
Fixpoint extract_loop (text : pystr) (matches : list (Z * Z))
    (positions : list (Z * Z * Z)) (last_match_end : option Z)
  : result (list (Z * Z * Z) * option Z) :=
  match matches with
  | [] => Ok (positions, last_match_end)
  | (m_start, m_end) :: rest =>
      rbind
        (match last_match_end with
         | Some e =>
             if negb (m_start =? e) then append_position text positions e
             else Ok positions
         | None => Ok positions
         end)
        (fun positions => extract_loop text rest positions (Some m_end))
  end.

(** [extract_plus_positions(text)]: a list of [[start, end, count]]. *)
Definition extract_plus_positions (text : pystr) : result (list (Z * Z * Z)) :=
  let matches := Re.finditer Re.plus_run text in
  rbind (extract_loop text matches [] None) (fun st =>
    let '(positions, last_match_end) := st in
    match last_match_end with
    | Some e =>
        if e =? Py.len text then append_position text positions e
        else Ok positions
    | None => Ok positions
    end).

(** The [for in_, out_ in zip(in_positions, out_positions)] loop of
    [match_pluses]; the state is [out_vals] and [out_current_pos]. *)
Fixpoint match_loop (original_text translated_text : pystr)
    (pairs : list ((Z * Z * Z) * (Z * Z * Z)))
    (out_vals : list pystr) (out_current_pos : Z) : list pystr * Z :=
  match pairs with
  | [] => (out_vals, out_current_pos)
  | ((in0, in1, _), (out0, out1, _)) :: rest =>
      let out_vals :=
        out_vals ++ [Py.slice translated_text out_current_pos out0] in
      let out_vals := out_vals ++ [Py.slice original_text in0 in1] in
      match_loop original_text translated_text rest out_vals out1
  end.

(** [match_pluses(original_text, translated_text)] *)
Definition match_pluses (original_text translated_text : pystr)
  : result pystr :=
  rbind (extract_plus_positions original_text) (fun in_positions =>
  rbind (extract_plus_positions translated_text) (fun out_positions =>
    let '(out_vals, out_current_pos) :=
      if Nat.eqb (length in_positions) (length out_positions)
      then match_loop original_text translated_text
             (combine in_positions out_positions) [] 0
      else ([], 0) in
    let out_vals :=
      out_vals ++ [Py.slice_from translated_text out_current_pos] in
    Ok (concat out_vals))).

(** [post_process_prompt(original, translated)] *)
Definition post_process_prompt (original translated : pystr) : result pystr :=
  let clean_prompt := remove_unnecessary_spaces translated in
  match_pluses original clean_prompt.

(** ** The translator and the script *)

(** [LanguageOption]: a display label and the model's language code. *)
Record LanguageOption := lang_opt {
  label : string;
  language_code : string
}.

(** [MBartTranslator.supported_languages] *)
Definition supported_languages : list string :=
  [
    "ar_AR"; "de_DE"; "en_XX"; "es_XX"; "fr_XX"; "hi_IN";
    "it_IT"; "ja_XX"; "ko_XX"; "pt_XX"; "ru_RU"; "zh_XX";
    "af_ZA"; "bn_BD"; "bs_XX"; "ca_XX"; "cs_CZ"; "da_XX";
    "el_GR"; "et_EE"; "fa_IR"; "fi_FI"; "gu_IN"; "he_IL";
    "hi_XX"; "hr_HR"; "hu_HU"; "id_ID"; "is_IS"; "ja_XX";
    "jv_XX"; "ka_GE"; "kk_XX"; "km_KH"; "kn_IN"; "ko_KR";
    "lo_LA"; "lt_LT"; "lv_LV"; "mk_MK"; "ml_IN"; "mr_IN";
    "ms_MY"; "ne_NP"; "nl_XX"; "no_XX"; "pl_XX"; "ro_RO";
    "si_LK"; "sk_SK"; "sl_SI"; "sq_AL"; "sr_XX"; "sv_XX";
    "sw_TZ"; "ta_IN"; "te_IN"; "th_TH"; "tl_PH"; "tr_TR";
    "uk_UA"; "ur_PK"; "vi_VN"; "war_PH"; "yue_XX"; "zh_CN";
    "zh_TW"
  ]%string.

(** The module-level table [language_options] shown in the drop-down. *)
Definition language_options : list LanguageOption :=
  [
    lang_opt "Arabic" "ar_AR"; lang_opt "Deutsch" "de_DE";
    lang_opt "English" "en_XX"; lang_opt "Spanish" "es_XX";
    lang_opt "French" "fr_XX"; lang_opt "Hindi" "hi_IN";
    lang_opt "Italian" "it_IT"; lang_opt "Japanese" "ja_XX";
    lang_opt "Korean" "ko_XX"; lang_opt "Portuguese" "pt_XX";
    lang_opt "Russian" "ru_RU"; lang_opt "Chinese" "zh_XX";
    lang_opt "Afrikaans" "af_ZA"; lang_opt "Bengali" "bn_BD";
    lang_opt "Bosnian" "bs_XX"; lang_opt "Catalan" "ca_XX";
    lang_opt "Czech" "cs_CZ"; lang_opt "Danish" "da_XX";
    lang_opt "Greek" "el_GR"; lang_opt "Estonian" "et_EE";
    lang_opt "Persian" "fa_IR"; lang_opt "Finnish" "fi_FI";
    lang_opt "Gujarati" "gu_IN"; lang_opt "Hebrew" "he_IL";
    lang_opt "Croatian" "hr_HR"; lang_opt "Hungarian" "hu_HU";
    lang_opt "Indonesian" "id_ID"; lang_opt "Icelandic" "is_IS";
    lang_opt "Javanese" "jv_XX"; lang_opt "Georgian" "ka_GE";
    lang_opt "Kazakh" "kk_XX"; lang_opt "Khmer" "km_KH";
    lang_opt "Kannada" "kn_IN"; lang_opt "Korean" "ko_KR";
    lang_opt "Lao" "lo_LA"; lang_opt "Lithuanian" "lt_LT";
    lang_opt "Latvian" "lv_LV"; lang_opt "Macedonian" "mk_MK";
    lang_opt "Malayalam" "ml_IN"; lang_opt "Marathi" "mr_IN";
    lang_opt "Malay" "ms_MY"; lang_opt "Nepali" "ne_NP";
    lang_opt "Dutch" "nl_XX"; lang_opt "Norwegian" "no_XX";
    lang_opt "Polish" "pl_XX"; lang_opt "Romanian" "ro_RO";
    lang_opt "Sinhala" "si_LK"; lang_opt "Slovak" "sk_SK";
    lang_opt "Slovenian" "sl_SI"; lang_opt "Albanian" "sq_AL";
    lang_opt "Serbian" "sr_XX"; lang_opt "Swedish" "sv_XX";
    lang_opt "Swahili" "sw_TZ"; lang_opt "Tamil" "ta_IN";
    lang_opt "Telugu" "te_IN"; lang_opt "Tamil " "ta_IN";
    lang_opt "Telugu" "te_IN"; lang_opt "Thai" "th_TH";
    lang_opt "Tagalog" "tl_PH"; lang_opt "Turkish" "tr_TR";
    lang_opt "Ukrainian" "uk_UA"; lang_opt "Urdu" "ur_PK";
    lang_opt "Vietnamese" "vi_VN"; lang_opt "Waray" "war_PH";
    lang_opt "Cantonese" "yue_XX"; lang_opt "Chinese" "zh_CN";
    lang_opt "Chinese" "zh_TW"
  ]%string.

Definition supported (code : string) : bool :=
  existsb (String.eqb code) supported_languages.

(** The fields of the host's prompt object [p] that the script reads or
    writes. *)
Record Processing := {
  prompt : pystr;
  all_prompts : list pystr;
  negative_prompt : pystr;
  all_negative_prompts : list pystr;
  prompt_for_display : pystr
}.

(** The attributes of [Script] that [process] consults;
    [has_translator] is [hasattr(self, "translator")]. *)
Record Script := {
  has_translator : bool;
  is_active : bool;
  is_negative_translate_active : bool
}.

(** The table of [str.maketrans] in [process_text]: full-width punctuation
    to ASCII. *)
Definition maketrans : list (char * char) :=
  [ (65292, 44); (12290, 46); (65281, 33); (65311, 63); (65307, 59);
    (65306, 58); (8216, 39); (8217, 39); (8220, 34); (8221, 34);
    (65288, 40); (65289, 41); (12304, 91); (12305, 93) ]%N.

(** [Script.is_english(text)] *)
Definition is_english (text : pystr) : bool :=
  forallb (fun c => Py.isascii c || Py.isspace c) text.

(** The test [part.startswith('<') and part.endswith('>')]. *)
Definition is_directive (part : pystr) : bool :=
  Py.startswith part LT && Py.endswith part GT.

(** [Script.get_prompts(p)] *)
Definition get_prompts (p : Processing) : list pystr * list pystr :=
  let original_prompts :=
    if 0 <? Py.len (all_prompts p) then all_prompts p else [prompt p] in
  let original_negative_prompts :=
    if 0 <? Py.len (all_negative_prompts p) then all_negative_prompts p
    else [negative_prompt p] in
  (original_prompts, original_negative_prompts).

(** ** The translation cache *)

(** What [open(csv_file, 'r', encoding='utf-8')] and [csv.reader] give:
    the exception [open] raises, or the rows in the order the reader yields
    them, each one the list of its fields or the exception raised on
    reaching it (a decoding error, a malformed line). *)
Definition csv_file : Type := result (list (result (list pystr))).

(** [dict(reader)]: the rows are consumed in order; each must have exactly
    two fields, key and value, anything else raises [ValueError]; a later
    row replaces an earlier one with the same key. *)
Fixpoint dict (reader : list (result (list pystr)))
    (cache : pystr -> option pystr) : result (pystr -> option pystr) :=
  match reader with
  | [] => Ok cache
  | Raise e :: _ => Raise e
  | Ok [key; value] :: rest =>
      dict rest (fun text => if Py.eqb text key then Some value
                             else cache text)
  | Ok _ :: _ => Raise ValueError
  end.

(** [load_csv(csv_file)] *)
Definition load_csv (csv : csv_file) : result (pystr -> option pystr) :=
  rbind csv (fun reader => dict reader (fun _ => None)).

(** [custom_translate(text, cache)] *)
Definition custom_translate (text : pystr) (cache : pystr -> option pystr)
  : option pystr :=
  cache text.

Section Pipeline.

(** The opaque model: tokenizer, [model.generate] and [batch_decode] taken
    together as one step on an arbitrary state, from the text and the two
    language codes to the decoded text. *)
Variable Model : Type.
Variable generate : Model -> pystr -> string -> string -> Model * pystr.

(** The file [translations.csv] next to the script, as [transfer] finds it
    on every call; the script never writes it. *)
Variable csv : csv_file.

(** [model]: the opaque model's state; [calls]: the texts
    [MBartTranslator.translate] was called with, oldest first (a ghost
    trace); [p]: the host's prompt object. *)
Record world := {
  model : Model;
  calls : list pystr;
  p : Processing
}.

(** State and exceptions: a computation returns the world it reached
    together with its value or the exception it raised. *)
Definition M (A : Type) : Type := world -> world * result A.

Definition ret {A} (a : A) : M A := fun w => (w, Ok a).

Definition bind {A B} (m : M A) (k : A -> M B) : M B :=
  fun w =>
    match m w with
    | (w', Ok a) => k a w'
    | (w', Raise e) => (w', Raise e)
    end.

Definition lift {A} (r : result A) : M A := fun w => (w, r).

Definition get_p : M Processing := fun w => (w, Ok (p w)).

Definition set_p (f : Processing -> Processing) : M unit :=
  fun w => ({| model := model w; calls := calls w; p := f (p w) |}, Ok tt).

Notation "x <- m ;; k" := (bind m (fun x => k))
  (at level 61, m at next level, right associativity).
Notation "m ;;; k" := (bind m (fun _ => k))
  (at level 61, right associativity).

Fixpoint mapM {A B} (f : A -> M B) (l : list A) : M (list B) :=
  match l with
  | [] => ret []
  | a :: l' => b <- f a ;; bs <- mapM f l' ;; ret (b :: bs)
  end.

Fixpoint foldM {A St} (f : St -> A -> M St) (s : St) (l : list A) : M St :=
  match l with
  | [] => ret s
  | a :: l' => s' <- f s a ;; foldM f s' l'
  end.

(** [MBartTranslator.translate(text, input_language, output_language)] *)
Definition translate (text : pystr) (input_language output_language : string)
  : M pystr :=
  fun w =>
    let w := {| model := model w; calls := calls w ++ [text]; p := p w |} in
    if negb (supported input_language) then (w, Raise ValueError)
    else if negb (supported output_language) then (w, Raise ValueError)
    else
      let '(m, translated_text) :=
        generate (model w) text input_language output_language in
      ({| model := m; calls := calls w; p := p w |}, Ok translated_text).

(** [Script.transfer(text, ln_code)]: the file is loaded again on every
    call, before the cache is looked up. *)
Definition transfer (text : pystr) (ln_code : string) : M pystr :=
  cache <- lift (load_csv csv) ;;
  match custom_translate text cache with
  | Some cached => ret cached
  | None => translate text ln_code "en_XX"
  end.

(** [Script.process_text(text, ln_code)] *)
Definition process_text (text : pystr) (ln_code : string) : M pystr :=
  let text := Py.translate maketrans text in
  let parts := Re.split Re.directive text in
  translated_parts <-
    mapM (fun part =>
            if is_directive part then ret part
            else
              translated_segments <-
                mapM (fun segment =>
                        if negb (is_english segment)
                        then transfer segment ln_code
                        else ret segment)
                     (Py.split COMMA part) ;;
              ret (Py.join [COMMA] translated_segments))
         parts ;;
  ret (concat translated_parts).

(** The state of either loop of [process]: the previous prompt, its
    translation, and the translations collected so far. *)
Definition loop_state : Type := pystr * pystr * list pystr.

(** One round of [for original_prompt in original_prompts].  The table of
    language options is a parameter, the script's is [language_options]. *)
Definition translate_step (options : list LanguageOption) (language : Z)
    (st : loop_state) (original_prompt : pystr) : M loop_state :=
  let '(previous_prompt, previous_translated_prompt, translated_prompts) :=
    st in
  if negb (Py.eqb previous_prompt original_prompt) then
    opt <- lift (Py.getitem options language) ;;
    let ln_code := language_code opt in
    translated_prompt <- process_text original_prompt ln_code ;;
    translated_prompt <-
      lift (post_process_prompt original_prompt translated_prompt) ;;
    ret (original_prompt, translated_prompt,
         translated_prompts ++ [translated_prompt])
  else
    ret (previous_prompt, previous_translated_prompt,
         translated_prompts ++ [previous_translated_prompt]).

(** The loop over the prompts; [process] runs the same loop a second time
    over the negative prompts. *)
Definition translate_prompts (options : list LanguageOption) (language : Z)
    (prompts : list pystr) : M (list pystr) :=
  st <- foldM (translate_step options language) ([], [], []) prompts ;;
  ret (snd st).

(** [Script.process(p, language)] over a table of language options. *)
Definition process_with (options : list LanguageOption) (self : Script)
    (language : Z) : M unit :=
  if has_translator self && is_active self then
    p0 <- get_p ;;
    let '(original_prompts, original_negative_prompts) := get_prompts p0 in
    translated_prompts <- translate_prompts options language original_prompts ;;
    p1 <- get_p ;;
    (if negb (Py.eqb (negative_prompt p1) [])
        && is_negative_translate_active self
     then
       translated_negative_prompts <-
         translate_prompts options language original_negative_prompts ;;
       first <- lift (Py.getitem translated_negative_prompts 0) ;;
       set_p (fun q => {| prompt := prompt q;
                          all_prompts := all_prompts q;
                          negative_prompt := first;
                          all_negative_prompts := all_negative_prompts q;
                          prompt_for_display := prompt_for_display q |}) ;;;
       set_p (fun q => {| prompt := prompt q;
                          all_prompts := all_prompts q;
                          negative_prompt := negative_prompt q;
                          all_negative_prompts := translated_negative_prompts;
                          prompt_for_display := prompt_for_display q |})
     else ret tt) ;;;
    first <- lift (Py.getitem translated_prompts 0) ;;
    set_p (fun q => {| prompt := first;
                       all_prompts := all_prompts q;
                       negative_prompt := negative_prompt q;
                       all_negative_prompts := all_negative_prompts q;
                       prompt_for_display := prompt_for_display q |}) ;;;
    first <- lift (Py.getitem translated_prompts 0) ;;
    set_p (fun q => {| prompt := prompt q;
                       all_prompts := all_prompts q;
                       negative_prompt := negative_prompt q;
                       all_negative_prompts := all_negative_prompts q;
                       prompt_for_display := first |}) ;;;
    set_p (fun q => {| prompt := prompt q;
                       all_prompts := translated_prompts;
                       negative_prompt := negative_prompt q;
                       all_negative_prompts := all_negative_prompts q;
                       prompt_for_display := prompt_for_display q |})
  else ret tt.

(** [Script.process(p, language)] *)
Definition process (self : Script) (language : Z) : M unit :=
  process_with language_options self language.

End Pipeline.

Arguments model {Model} w.
Arguments calls {Model} w.
Arguments p {Model} w.
Arguments ret {Model A} a.
Arguments bind {Model A B} m k.
Arguments lift {Model A} r.
Arguments get_p {Model}.
Arguments set_p {Model} f.
Arguments mapM {Model A B} f l.
Arguments foldM {Model A St} f s l.
Arguments translate {Model} generate text input_language output_language.
Arguments transfer {Model} generate csv text ln_code.
Arguments process_text {Model} generate csv text ln_code.
Arguments translate_step {Model} generate csv options language st
  original_prompt.
Arguments translate_prompts {Model} generate csv options language prompts.
Arguments process_with {Model} generate csv options self language.
Arguments process {Model} generate csv self language.

(** ** Notions used in the statements *)

(** [d] occurs in [s] as a contiguous substring. *)
Definition occurs_in (d s : pystr) : Prop :=
  exists pre post, s = pre ++ d ++ post.

(** [s] contains a [<] with a [>] somewhere after it, that is, [s] has a
    directive span. *)
Definition has_span (s : pystr) : Prop :=
  exists x y z, s = x ++ LT :: y ++ GT :: z.

(** The directive spans of a text: the matches of [<[^>]*>]. *)
Definition directive_spans (text : pystr) : list pystr :=
  flat_map (fun pc => match pc with Re.Hit h => [h] | Re.Gap _ => [] end)
           (Re.pieces Re.directive text 0).

(** The maximal runs of [+] of a text, as [(start, end, length)]; this is
    what the docstring of [extract_plus_positions] announces. *)
Definition plus_runs (text : pystr) : list (Z * Z * Z) :=
  map (fun se => (fst se, snd se, snd se - fst se))
      (Re.finditer Re.plus_run text).

(** Whitespace tightening as the specification words it: a whitespace
    character is removed exactly when it stands in a block of whitespace
    that directly follows a closing parenthesis and is directly followed by
    two [+]; every other character is kept.  [after_close] tells that the
    characters since the last [)] were all removed whitespace. *)
Definition plusplus_next (s : pystr) : bool :=
  match skipn (Re.span_len Py.isspace s) s with
  | a :: b :: _ => N.eqb a PLUS && N.eqb b PLUS
  | _ => false
  end.

Fixpoint tighten_from (after_close : bool) (s : pystr) : pystr :=
  match s with
  | [] => []
  | c :: r =>
      if after_close && Py.isspace c && plusplus_next r
      then tighten_from true r
      else c :: tighten_from (N.eqb c RPAREN) r
  end.

Definition tighten_spec (s : pystr) : pystr := tighten_from false s.

(** [dup_slot i outs]: [outs] with slot [i] repeated once more right after
    itself. *)
Definition dup_slot (i : nat) (outs : list pystr) : list pystr :=
  firstn (S i) outs ++ nth i outs [] :: skipn (S i) outs.

Definition map_result {A B W} (f : A -> B) (x : W * result A) : W * result B :=
  (fst x, match snd x with Ok a => Ok (f a) | Raise e => Raise e end).

(** ** Notions used in the proofs *)

(** What a match of [<[^>]*>] looks like. *)
Definition span_shape (h : pystr) : Prop :=
  exists body, h = LT :: body ++ [GT] /\ ~ In GT body.

(** A piece of the directive cut is in order: a match has the shape of a
    span, a gap holds no span. *)
Definition piece_ok (pc : Re.piece) : Prop :=
  match pc with
  | Re.Hit h => span_shape h
  | Re.Gap g => ~ has_span g
  end.

(** The translations collected so far are only ever extended. *)
Definition prefix_outs (outs : list pystr) (st : loop_state) : loop_state :=
  (fst (fst st), snd (fst st), outs ++ snd st).

Section Notions.

Context {Model : Type}.

(** A computation moves the world along [R]. *)
Definition respects {A} (R : world Model -> world Model -> Prop)
    (m : M Model A) : Prop :=
  forall w, R w (fst (m w)).

(** The prompt object is the same. *)
Definition same_p (w w' : world Model) : Prop := p w' = p w.

(** The trace has only grown, by texts of a given kind. *)
Definition grows_by (P : pystr -> Prop) (w w' : world Model) : Prop :=
  exists new, calls w' = calls w ++ new /\ Forall P new.


(** The world after a batch that went through, its prompt object being
    [q]. *)
Definition substituted (w : world Model) (q : Processing) : world Model :=
  {| model := model w; calls := calls w; p := q |}.

Variable generate : Model -> pystr -> string -> string -> Model * pystr.
Variable csv : csv_file.
Variable options : list LanguageOption.
Variable language : Z.

(** What [process] comes to, loop by loop. *)
Definition batch_outcome (self : Script) (w : world Model)
  : world Model * result unit :=
  match translate_prompts generate csv options language
          (fst (get_prompts (p w))) w with
  | (w1, Raise e) => (w1, Raise e)
  | (w1, Ok tps) =>
      if negb (Py.eqb (negative_prompt (p w)) [])
         && is_negative_translate_active self
      then
        match translate_prompts generate csv options language
                (snd (get_prompts (p w))) w1 with
        | (w2, Raise e) => (w2, Raise e)
        | (w2, Ok tns) =>
            (substituted w2
               {| prompt := hd [] tps;
                  all_prompts := tps;
                  negative_prompt := hd [] tns;
                  all_negative_prompts := tns;
                  prompt_for_display := hd [] tps |}, Ok tt)
        end
      else
        (substituted w1
           {| prompt := hd [] tps;
              all_prompts := tps;
              negative_prompt := negative_prompt (p w);
              all_negative_prompts := all_negative_prompts (p w);
              prompt_for_display := hd [] tps |}, Ok tt)
  end.

End Notions.

(** ** Concrete scenarios *)

Module Scenario.

(** Two non-ASCII code points. *)
Definition mao : char := 29483%N.   (* U+732B *)
Definition gou : char := 29399%N.   (* U+72D7 *)

(** A model that answers with the number of the call, as one digit. *)
Definition counting (n : nat) (text : pystr) (src tgt : string)
  : nat * pystr :=
  (S n, [(48 + N.of_nat n)%N]).

(** An empty [translations.csv]. *)
Definition no_cache : csv_file := Ok [].

Definition blank : Processing :=
  {| prompt := []; all_prompts := []; negative_prompt := [];
     all_negative_prompts := []; prompt_for_display := [] |}.

Definition start (q : Processing) : world nat :=
  {| model := O; calls := []; p := q |}.

Definition with_prompts (l : list pystr) : Processing :=
  {| prompt := hd [] l; all_prompts := l; negative_prompt := [];
     all_negative_prompts := []; prompt_for_display := [] |}.

Definition active : Script :=
  {| has_translator := true; is_active := true;
     is_negative_translate_active := false |}.

(** A model that moves the weight markers: it answers ["d+og+"] to [gou]
    followed by [+], and ["cat"] to everything else. *)
Definition garbling (n : nat) (text : pystr) (src tgt : string)
  : nat * pystr :=
  (S n, if Py.eqb text [gou; PLUS] then str "d+og+" else str "cat").

(** Index of "Chinese" / [zh_XX] in [language_options]. *)
Definition chinese : Z := 11.

End Scenario.

(** ** Notions for the rest of the script *)

(** The punctuation mapping of [process_text] on one character:
    [Py.translate maketrans] maps it over the text. *)
Definition normalize_char (c : char) : char :=
  match find (fun kv => N.eqb (fst kv) c) maketrans with
  | Some kv => snd kv
  | None => c
  end.

(** The text is made of [+] only. *)
Definition all_plus (text : pystr) : bool :=
  forallb (fun c => N.eqb c PLUS) text.

(** What [extract_plus_positions] reports for a text that does not start
    with [+]: every maximal run, except the last one when it does not end
    the text. *)
Definition reported_runs (text : pystr) : list (Z * Z * Z) :=
  let runs := plus_runs text in
  match rev runs with
  | (_, e, _) :: _ => if e =? Py.len text then runs else removelast runs
  | [] => []
  end.

(** A fragment as [process_text] resolves it without the translator: kept
    when [is_english], else taken from the cache. *)
Definition resolve_offline (cache : pystr -> option pystr) (segment : pystr)
  : pystr :=
  if is_english segment then segment
  else match cache segment with
       | Some cached => cached
       | None => segment
       end.

(** Some fragment of a literal part is neither [is_english] nor in the
    cache, so [transfer] has to call the translator. *)
Definition needs_translator (cache : pystr -> option pystr) (text : pystr)
  : bool :=
  existsb
    (fun part =>
       negb (is_directive part) &&
       existsb (fun segment =>
                  negb (is_english segment) &&
                  match cache segment with
                  | None => true
                  | Some _ => false
                  end)
               (Py.split COMMA part))
    (Re.split Re.directive (Py.translate maketrans text)).

(** The text [process_text] puts together when no fragment needs the
    translator. *)
Definition process_text_offline (cache : pystr -> option pystr)
    (text : pystr) : pystr :=
  concat
    (map (fun part =>
            if is_directive part then part
            else Py.join [COMMA]
                   (map (resolve_offline cache) (Py.split COMMA part)))
         (Re.split Re.directive (Py.translate maketrans text))).

(** [se = (s, e)] delimits a maximal run of [+] in [text]: the characters
    from [s] to [e - 1] are [+], there is at least one, and the characters
    next to the run on either side, if any, are not [+]. *)
Definition is_run (text : pystr) (se : Z * Z) : Prop :=
  exists a h b,
    text = a ++ h ++ b /\
    Py.len a = fst se /\ Py.len (a ++ h) = snd se /\
    h <> [] /\ Forall (fun c => c = PLUS) h /\
    (a = [] \/ exists a' c, a = a' ++ [c] /\ c <> PLUS) /\
    (b = [] \/ exists c b', b = c :: b' /\ c <> PLUS).

(** A list of maximal runs, left to right from [lo] on, any two of them
    with at least one character in between. *)
Fixpoint runs_from (text : pystr) (lo : Z) (spans : list (Z * Z)) : Prop :=
  match spans with
  | [] => True
  | se :: rest =>
      lo <= fst se /\ is_run text se /\ runs_from text (snd se + 1) rest
  end.

(** A span as the triple [[start, end, count]]. *)
Definition position_of (se : Z * Z) : Z * Z * Z :=
  (fst se, snd se, snd se - fst se).

(** The text is not empty and made of [+] only. *)
Definition only_plus (text : pystr) : bool :=
  match text with
  | [] => false
  | _ :: _ => all_plus text
  end.

(** Cut points in order: [lo <= s1 <= e1 <= s2 <= ... <= n]. *)
Fixpoint cuts (n lo : Z) (spans : list (Z * Z)) : Prop :=
  match spans with
  | [] => True
  | se :: rest => lo <= fst se <= snd se /\ snd se <= n /\ cuts n (snd se) rest
  end.

(** A piece with a function applied to each of its characters. *)
Definition map_piece (f : char -> char) (pc : Re.piece) : Re.piece :=
  match pc with
  | Re.Gap g => Re.Gap (map f g)
  | Re.Hit h => Re.Hit (map f h)
  end.

(** A text without [+]. *)
Definition plus_free (d : pystr) : bool := negb (existsb (N.eqb PLUS) d).

(** [out] holds every directive span of [prompt] that has no [+], with its
    full-width punctuation mapped and nothing else changed. *)
Definition spans_kept (prompt out : pystr) : Prop :=
  Forall (fun d => occurs_in (Py.translate maketrans d) out)
         (filter plus_free (directive_spans prompt)).

(** Some fragment of a literal part is not [is_english], so [transfer] is
    called. *)
Definition has_foreign_fragment (text : pystr) : bool :=
  needs_translator (fun _ => None) text.

(** The exceptions [transfer] can end with: the one [load_csv] raises, or,
    the file loaded, [ValueError] under a language code that is not
    supported. *)
Definition transfer_failure {A} (loaded : result A) (ln_code : string)
    (e : exn) : Prop :=
  match loaded with
  | Ok _ => e = ValueError /\ supported ln_code = false
  | Raise e0 => e = e0
  end.

(** A computation that fails only with the exceptions [ok] allows. *)
Definition raises_only {Model : Type} (ok : exn -> Prop) {A}
    (m : M Model A) : Prop :=
  forall w, match snd (m w) with
            | Ok _ => True
            | Raise e => ok e
            end.

(** A [translations.csv] with one row. *)
Module Cases.

Definition cat_cache : csv_file := Ok [Ok [[Scenario.mao]; str "cat"]].

End Cases.

(** * Properties *)

(** ** Python primitives *)

Lemma getitem_ok_range {A} (l : list A) (i : Z) (a : A) :
  Py.getitem l i = Ok a -> - Py.len l <= i < Py.len l.
Proof.
  unfold Py.getitem, Py.len.
  destruct (i <? 0) eqn:Hi.
  - apply Z.ltb_lt in Hi.
    destruct (i + Z.of_nat (length l) <? 0) eqn:Hn; [discriminate|].
    apply Z.ltb_ge in Hn. intros _. lia.
  - apply Z.ltb_ge in Hi.
    destruct (i <? 0) eqn:Hn; [discriminate|].
    destruct (nth_error l (Z.to_nat i)) eqn:Hnth; [|discriminate].
    intros _.
    assert (Hlt : (Z.to_nat i < length l)%nat)
      by (apply nth_error_Some; congruence).
    lia.
Qed.

Lemma getitem_in {A} (l : list A) (i : Z) (x : A) :
  Py.getitem l i = Ok x -> In x l.
Proof.
  unfold Py.getitem.
  destruct ((if i <? 0 then i + Py.len l else i) <? 0); [discriminate|].
  destruct (nth_error l _) eqn:Hn; [|discriminate].
  intros [= <-]. eapply nth_error_In. exact Hn.
Qed.

Lemma getitem_zero {A} (a : A) (l : list A) : Py.getitem (a :: l) 0 = Ok a.
Proof. reflexivity. Qed.

Lemma slice_from_zero {A} (l : list A) : Py.slice_from l 0 = l.
Proof.
  unfold Py.slice_from, Py.slice, Py.clamp, Py.len.
  assert (H0 : Z.min 0 (Z.of_nat (length l)) = 0) by lia.
  assert (Hn : Z.min (Z.of_nat (length l)) (Z.of_nat (length l))
               = Z.of_nat (length l)) by lia.
  change (0 <? 0) with false. cbv iota.
  destruct (Z.of_nat (length l) <? 0) eqn:Hneg.
  - apply Z.ltb_lt in Hneg. lia.
  - rewrite H0, Hn, Z.sub_0_r, Nat2Z.id. simpl. apply firstn_all.
Qed.

(** [sep.join(s.split(sep)) == s] *)
Lemma split_nonempty (sep : char) (s : pystr) : Py.split sep s <> [].
Proof.
  destruct s as [|c r]; simpl; [discriminate|].
  destruct (N.eqb c sep); [discriminate|].
  destruct (Py.split sep r); discriminate.
Qed.

Lemma join_split (sep : char) (s : pystr) :
  Py.join [sep] (Py.split sep s) = s.
Proof.
  induction s as [|c r IH]; [reflexivity|].
  simpl. destruct (N.eqb c sep) eqn:Hc.
  - apply N.eqb_eq in Hc. subst c.
    destruct (Py.split sep r) as [|f fs] eqn:Hs.
    + exfalso. exact (split_nonempty sep r Hs).
    + simpl. f_equal. exact IH.
  - destruct (Py.split sep r) as [|f fs] eqn:Hs.
    + exfalso. exact (split_nonempty sep r Hs).
    + destruct fs as [|g gs]; simpl in *; f_equal; exact IH.
Qed.

(** The first field of [s.split(sep)] starts [s]. *)
Lemma split_first_prefix (sep : char) (s f : pystr) (fs : list pystr) :
  Py.split sep s = f :: fs -> exists post, s = f ++ post.
Proof.
  revert f fs. induction s as [|c r IH]; intros f fs Hs.
  - simpl in Hs. injection Hs as <- <-. exists []. reflexivity.
  - simpl in Hs. destruct (N.eqb c sep).
    + injection Hs as <- <-. exists (c :: r). reflexivity.
    + destruct (Py.split sep r) as [|g gs] eqn:Hr.
      * exfalso. exact (split_nonempty sep r Hr).
      * injection Hs as <- <-.
        destruct (IH g gs eq_refl) as (post & ->).
        exists post. reflexivity.
Qed.

(** Every field of [s.split(sep)] is a contiguous part of [s]. *)
Lemma split_field_occurs (sep : char) (s f : pystr) :
  In f (Py.split sep s) -> occurs_in f s.
Proof.
  revert f. induction s as [|c r IH]; intros f Hin.
  - simpl in Hin. destruct Hin as [<-|[]]. exists [], []. reflexivity.
  - simpl in Hin. destruct (N.eqb c sep).
    + destruct Hin as [<-|Hin].
      * exists [], (c :: r). reflexivity.
      * destruct (IH f Hin) as (pre & post & ->).
        exists (c :: pre), post. reflexivity.
    + destruct (Py.split sep r) as [|g gs] eqn:Hs.
      * exfalso. exact (split_nonempty sep r Hs).
      * destruct Hin as [<-|Hin].
        -- destruct (split_first_prefix _ _ _ _ Hs) as (post & ->).
           exists [], post. reflexivity.
        -- destruct (IH f (or_intror Hin)) as (pre & post & ->).
           exists (c :: pre), post. reflexivity.
Qed.

(** ** The scanner *)

Section ScanFacts.

Variable match_here : pystr -> option nat.

Lemma concat_cons_gap (c : char) (ps : list Re.piece) :
  concat (map Re.text_of (Re.cons_gap c ps))
  = c :: concat (map Re.text_of ps).
Proof. destruct ps as [|[g|h] ps]; reflexivity. Qed.

Lemma concat_cons_hit (c : char) (ps : list Re.piece) :
  concat (map Re.text_of (Re.cons_hit c ps))
  = c :: concat (map Re.text_of ps).
Proof. destruct ps as [|[g|h] ps]; reflexivity. Qed.

(** The pieces of a text, put back together, are the text. *)
Lemma pieces_concat (text : pystr) (skip : nat) :
  concat (map Re.text_of (Re.pieces match_here text skip)) = text.
Proof.
  revert skip. induction text as [|c rest IH]; intros skip; [reflexivity|].
  simpl. destruct skip as [|k].
  - destruct (match_here (c :: rest)) as [[|n]|].
    + rewrite concat_cons_gap, IH. reflexivity.
    + simpl. rewrite concat_cons_hit, IH. reflexivity.
    + rewrite concat_cons_gap, IH. reflexivity.
  - rewrite concat_cons_hit, IH. reflexivity.
Qed.

(** Outside a match, the cut starts with a gap. *)
Lemma pieces_gap_first (text : pystr) :
  exists g ps, Re.pieces match_here text 0 = Re.Gap g :: ps.
Proof.
  destruct text as [|c rest]; simpl.
  - exists [], []. reflexivity.
  - destruct (match_here (c :: rest)) as [[|n]|].
    + destruct (Re.pieces match_here rest 0) as [|[g|h] ps]; simpl; eauto.
    + eauto.
    + destruct (Re.pieces match_here rest 0) as [|[g|h] ps]; simpl; eauto.
Qed.

(** A match in progress takes the next [n] characters, whole. *)
Lemma pieces_skip (c : char) (n : nat) (rest : pystr) :
  (n <= length rest)%nat ->
  Re.cons_hit c (Re.pieces match_here rest n)
  = Re.Hit (c :: firstn n rest) :: Re.pieces match_here (skipn n rest) 0.
Proof.
  revert c rest. induction n as [|n IH]; intros c rest Hn.
  - simpl. destruct (pieces_gap_first rest) as (g & ps & ->). reflexivity.
  - destruct rest as [|d rest]; [simpl in Hn; lia|].
    simpl in Hn. simpl Re.pieces. rewrite IH by lia. reflexivity.
Qed.

Hypothesis match_fits :
  forall s n, match_here s = Some n -> (n <= length s)%nat.

Lemma pieces_hit (c : char) (rest : pystr) (n : nat) :
  match_here (c :: rest) = Some (S n) ->
  Re.pieces match_here (c :: rest) 0
  = Re.Gap [] :: Re.Hit (c :: firstn n rest)
      :: Re.pieces match_here (skipn n rest) 0.
Proof.
  intros Hm. simpl. rewrite Hm. f_equal. apply pieces_skip.
  apply match_fits in Hm. simpl in Hm. lia.
Qed.

Lemma pieces_miss (c : char) (rest : pystr) :
  match_here (c :: rest) = None \/ match_here (c :: rest) = Some O ->
  Re.pieces match_here (c :: rest) 0
  = Re.cons_gap c (Re.pieces match_here rest 0).
Proof. intros [Hm|Hm]; simpl; rewrite Hm; reflexivity. Qed.

(** Induction along the scan: nothing to cut, a character that starts no
    match, or a match followed by the cut of what comes after it. *)
Lemma pieces_ind (P : pystr -> list Re.piece -> Prop) :
  P [] [Re.Gap []] ->
  (forall c rest,
      match_here (c :: rest) = None \/ match_here (c :: rest) = Some O ->
      P rest (Re.pieces match_here rest 0) ->
      P (c :: rest) (Re.cons_gap c (Re.pieces match_here rest 0))) ->
  (forall c rest n,
      match_here (c :: rest) = Some (S n) ->
      (n <= length rest)%nat ->
      P (skipn n rest) (Re.pieces match_here (skipn n rest) 0) ->
      P (c :: rest)
        (Re.Gap [] :: Re.Hit (c :: firstn n rest)
           :: Re.pieces match_here (skipn n rest) 0)) ->
  forall text, P text (Re.pieces match_here text 0).
Proof.
  intros Hnil Hmiss Hhit text.
  remember (length text) as m eqn:Hm.
  revert text Hm. induction m as [m IH] using lt_wf_ind. intros text Hm.
  destruct text as [|c rest]; [exact Hnil|].
  destruct (match_here (c :: rest)) as [[|n]|] eqn:Hc.
  - rewrite pieces_miss by (right; exact Hc).
    apply Hmiss; [right; exact Hc|].
    apply (IH (length rest)); [subst m; simpl; lia | reflexivity].
  - rewrite (pieces_hit _ _ _ Hc).
    assert (Hn : (n <= length rest)%nat)
      by (apply match_fits in Hc; simpl in Hc; lia).
    apply Hhit; [exact Hc | exact Hn |].
    apply (IH (length (skipn n rest))); [|reflexivity].
    subst m. rewrite length_skipn. simpl. lia.
  - rewrite pieces_miss by (left; exact Hc).
    apply Hmiss; [left; exact Hc|].
    apply (IH (length rest)); [subst m; simpl; lia | reflexivity].
Qed.

End ScanFacts.

(** ** The three patterns *)

Lemma firstn_S_skipn {A} (k : nat) (l : list A) (a : A) (r : list A) :
  skipn k l = a :: r -> firstn (S k) l = firstn k l ++ [a].
Proof.
  revert l. induction k as [|k IH]; intros l Hs.
  - simpl in Hs. subst l. reflexivity.
  - destruct l as [|x l]; [discriminate|].
    simpl in Hs. change (firstn (S (S k)) (x :: l)) with (x :: firstn (S k) l).
    rewrite (IH l Hs). reflexivity.
Qed.

Lemma span_len_le (f : char -> bool) (s : pystr) :
  (Re.span_len f s <= length s)%nat.
Proof. induction s as [|c r IH]; simpl; [lia|]. destruct (f c); simpl; lia. Qed.

Lemma span_len_split (f : char -> bool) (s : pystr) :
  s = firstn (Re.span_len f s) s ++ skipn (Re.span_len f s) s
  /\ Forall (fun c => f c = true) (firstn (Re.span_len f s) s).
Proof.
  induction s as [|c r [IH1 IH2]]; simpl; [split; [reflexivity|constructor]|].
  destruct (f c) eqn:Hc; simpl.
  - split; [f_equal; exact IH1 | constructor; assumption].
  - split; [reflexivity | constructor].
Qed.

Lemma plus_run_fits (s : pystr) (n : nat) :
  Re.plus_run s = Some n -> (n <= length s)%nat.
Proof.
  unfold Re.plus_run. pose proof (span_len_le (N.eqb PLUS) s) as Hle.
  destruct (Re.span_len (N.eqb PLUS) s); [discriminate|].
  intros [= <-]. exact Hle.
Qed.

Lemma directive_fits (s : pystr) (n : nat) :
  Re.directive s = Some n -> (n <= length s)%nat.
Proof.
  destruct s as [|c r]; simpl; [discriminate|].
  destruct (N.eqb c LT); [|discriminate].
  set (k := Re.span_len (fun x => negb (N.eqb x GT)) r).
  destruct (skipn k r) as [|d r'] eqn:Hs; [discriminate|].
  intros [= <-].
  assert (Hlen : length (skipn k r) = S (length r'))
    by (rewrite Hs; reflexivity).
  rewrite length_skipn in Hlen. lia.
Qed.

Lemma close_spaces_plusplus_fits (s : pystr) (n : nat) :
  Re.close_spaces_plusplus s = Some n -> (n <= length s)%nat.
Proof.
  destruct s as [|c r]; simpl; [discriminate|].
  destruct (N.eqb c RPAREN); [|discriminate].
  set (k := Re.span_len Py.isspace r).
  destruct (skipn k r) as [|a [|b r']] eqn:Hs; try discriminate.
  destruct (N.eqb a PLUS && N.eqb b PLUS); [|discriminate].
  intros [= <-].
  assert (Hlen : length (skipn k r) = S (S (length r')))
    by (rewrite Hs; reflexivity).
  rewrite length_skipn in Hlen. lia.
Qed.

(** Wherever the second alternative matches, the first already does: [\s*]
    may match nothing. *)
Lemma second_alternative_shadowed (s : pystr) (n : nat) :
  Re.close_plusplus_spaces s = Some n ->
  exists m, Re.close_spaces_plusplus s = Some m.
Proof.
  destruct s as [|c [|a [|b r]]]; simpl; try discriminate.
  destruct (N.eqb c RPAREN); simpl; [|discriminate].
  destruct (N.eqb a PLUS) eqn:Ha; simpl; [|discriminate].
  destruct (N.eqb b PLUS) eqn:Hb; simpl; [|discriminate].
  intros _. apply N.eqb_eq in Ha. subst a.
  change (Py.isspace PLUS) with false. cbv iota. simpl.
  rewrite Hb. eauto.
Qed.

Lemma tighten_pattern_first (s : pystr) :
  Re.tighten_pattern s = Re.close_spaces_plusplus s.
Proof.
  unfold Re.tighten_pattern.
  destruct (Re.close_spaces_plusplus s) eqn:H1; [reflexivity|].
  destruct (Re.close_plusplus_spaces s) eqn:H2; [|reflexivity].
  destruct (second_alternative_shadowed _ _ H2) as (m & Hm). congruence.
Qed.

Lemma tighten_pattern_fits (s : pystr) (n : nat) :
  Re.tighten_pattern s = Some n -> (n <= length s)%nat.
Proof. rewrite tighten_pattern_first. apply close_spaces_plusplus_fits. Qed.

(** *** Directive spans *)

Lemma directive_hit (c : char) (rest : pystr) (n : nat) :
  Re.directive (c :: rest) = Some (S n) ->
  span_shape (c :: firstn n rest).
Proof.
  simpl. destruct (N.eqb c LT) eqn:Hc; [|discriminate].
  apply N.eqb_eq in Hc. subst c.
  set (f := fun x : char => negb (N.eqb x GT)).
  destruct (span_len_split f rest) as [Hsplit Hall].
  destruct (skipn (Re.span_len f rest) rest) as [|d r'] eqn:Hs; [discriminate|].
  intros [= <-].
  assert (Hd : d = GT).
  { assert (Hfd : f d = false).
    { clear -Hs. revert Hs. induction rest as [|x r IH]; simpl; [discriminate|].
      destruct (f x) eqn:Hx; simpl; [exact IH|].
      intros [= -> _]. exact Hx. }
    unfold f in Hfd. apply negb_false_iff, N.eqb_eq in Hfd. exact Hfd. }
  subst d. exists (firstn (Re.span_len f rest) rest). split.
  - f_equal. apply firstn_S_skipn with (r := r'). exact Hs.
  - intros Hin. rewrite Forall_forall in Hall. apply Hall in Hin.
    unfold f in Hin. rewrite N.eqb_refl in Hin. discriminate.
Qed.

Lemma directive_miss (c : char) (rest : pystr) :
  Re.directive (c :: rest) = None \/ Re.directive (c :: rest) = Some O ->
  c <> LT \/ ~ In GT rest.
Proof.
  simpl. destruct (N.eqb c LT) eqn:Hc.
  - set (f := fun x : char => negb (N.eqb x GT)).
    destruct (span_len_split f rest) as [Hsplit Hall].
    destruct (skipn (Re.span_len f rest) rest) as [|d r'] eqn:Hs.
    + intros _. right. rewrite app_nil_r in Hsplit. rewrite <- Hsplit in Hall.
      intros Hin. rewrite Forall_forall in Hall. apply Hall in Hin.
      unfold f in Hin. rewrite N.eqb_refl in Hin. discriminate.
    + intros [H|H]; discriminate.
  - intros _. left. apply N.eqb_neq. exact Hc.
Qed.

Lemma has_span_in_gt (s : pystr) : has_span s -> In GT s.
Proof.
  intros (x & y & z & ->). apply in_or_app. right. right.
  apply in_or_app. right. left. reflexivity.
Qed.

Lemma has_span_cons (c : char) (s : pystr) :
  has_span (c :: s) -> (c = LT /\ In GT s) \/ has_span s.
Proof.
  intros (x & y & z & Heq). destruct x as [|x0 x].
  - simpl in Heq. injection Heq as -> ->. left. split; [reflexivity|].
    apply in_or_app. right. left. reflexivity.
  - simpl in Heq. injection Heq as -> ->. right. exists x, y, z. reflexivity.
Qed.

Lemma has_span_occurs (a b : pystr) :
  occurs_in a b -> has_span a -> has_span b.
Proof.
  intros (pre & post & ->) (x & y & z & ->).
  exists (pre ++ x), y, (z ++ post).
  repeat (rewrite <- app_assoc; simpl). reflexivity.
Qed.

Lemma directive_pieces_ok (text : pystr) :
  Forall piece_ok (Re.pieces Re.directive text 0).
Proof.
  apply (pieces_ind Re.directive directive_fits
           (fun _ ps => Forall piece_ok ps)).
  - constructor; [|constructor]. simpl. intros H.
    apply has_span_in_gt in H. destruct H.
  - intros c rest Hm IH.
    pose proof (pieces_concat Re.directive rest 0) as Hcat.
    destruct (pieces_gap_first Re.directive rest) as (g & ps & Hps).
    rewrite Hps in *. simpl.
    pose proof (Forall_inv IH) as Hg. pose proof (Forall_inv_tail IH) as Hrest.
    constructor; [|exact Hrest].
    simpl in *. intros Hspan.
    apply has_span_cons in Hspan. destruct Hspan as [[-> Hin]|Hspan].
    + apply directive_miss in Hm. destruct Hm as [Hm|Hm]; [congruence|].
      apply Hm. rewrite <- Hcat. apply in_or_app. left. exact Hin.
    + exact (Hg Hspan).
  - intros c rest n Hm Hn IH.
    constructor; [|constructor; [|exact IH]].
    + simpl. intros H. apply has_span_in_gt in H. destruct H.
    + simpl. exact (directive_hit _ _ _ Hm).
Qed.

Lemma span_shape_is_directive (h : pystr) :
  span_shape h -> is_directive h = true.
Proof.
  intros (body & -> & _). unfold is_directive, Py.startswith, Py.endswith.
  simpl. rewrite rev_app_distr. simpl. reflexivity.
Qed.

Lemma no_span_not_directive (g : pystr) :
  ~ has_span g -> is_directive g = false.
Proof.
  intros Hno. destruct (is_directive g) eqn:Hd; [|reflexivity].
  exfalso. apply Hno. unfold is_directive in Hd.
  apply andb_true_iff in Hd. destruct Hd as [Hs He].
  destruct g as [|x g']; [discriminate|].
  simpl in Hs. apply N.eqb_eq in Hs. subst x.
  unfold Py.endswith in He. simpl in He.
  destruct (rev g') as [|y r] eqn:Hrev.
  - simpl in He. discriminate.
  - simpl in He. apply N.eqb_eq in He. subst y.
    assert (Hg : g' = rev r ++ [GT]).
    { rewrite <- (rev_involutive g'), Hrev. reflexivity. }
    exists [], (rev r), []. rewrite Hg. reflexivity.
Qed.

(** A text without [>] is one literal segment, whatever [<] it holds. *)
Lemma unmatched_lt_stays_literal (text : pystr) :
  ~ In GT text -> Re.split Re.directive text = [text].
Proof.
  unfold Re.split.
  apply (pieces_ind Re.directive directive_fits
           (fun text ps => ~ In GT text -> map Re.text_of ps = [text])).
  - reflexivity.
  - intros c rest _ IH Hno.
    assert (Hrest : ~ In GT rest) by (intros H; apply Hno; right; exact H).
    specialize (IH Hrest).
    destruct (pieces_gap_first Re.directive rest) as (g & ps & Hps).
    rewrite Hps in *. simpl in *. injection IH as -> Hnil.
    rewrite Hnil. reflexivity.
  - intros c rest n Hm Hn _ Hno. exfalso. apply Hno.
    destruct (directive_hit _ _ _ Hm) as (body & Heq & _).
    injection Heq as -> Hbody.
    right. rewrite <- (firstn_skipn n rest), Hbody.
    apply in_or_app. left. apply in_or_app. right. left. reflexivity.
Qed.

(** *** Whitespace tightening *)

Lemma plusplus_next_space (c : char) (r : pystr) :
  Py.isspace c = true -> plusplus_next (c :: r) = plusplus_next r.
Proof. intros Hc. unfold plusplus_next. simpl. rewrite Hc. reflexivity. Qed.

(** Right after a [)] that starts no match, nothing is removed. *)
Lemma tighten_from_miss (r : pystr) :
  plusplus_next r = false -> tighten_from true r = tighten_from false r.
Proof.
  destruct r as [|c r]; [reflexivity|]. intros Hnext. simpl.
  destruct (Py.isspace c) eqn:Hc; [|reflexivity].
  rewrite (plusplus_next_space _ _ Hc) in Hnext. rewrite Hnext. reflexivity.
Qed.

(** Right after a [)] that starts a match, the whitespace goes and the two
    [+] stay. *)
Lemma tighten_from_hit (r r' : pystr) :
  skipn (Re.span_len Py.isspace r) r = PLUS :: PLUS :: r' ->
  tighten_from true r = PLUS :: PLUS :: tighten_from false r'.
Proof.
  induction r as [|c r IH]; [discriminate|].
  intros Hs. simpl in Hs. simpl tighten_from.
  destruct (Py.isspace c) eqn:Hc.
  - simpl in Hs. unfold plusplus_next. rewrite Hs. simpl. exact (IH Hs).
  - simpl in Hs. injection Hs as -> ->. reflexivity.
Qed.

Lemma close_spaces_plusplus_inv (c : char) (rest : pystr) (n : nat) :
  Re.close_spaces_plusplus (c :: rest) = Some n ->
  c = RPAREN /\
  exists r', skipn (Re.span_len Py.isspace rest) rest = PLUS :: PLUS :: r'
             /\ n = (S (Re.span_len Py.isspace rest) + 2)%nat.
Proof.
  simpl. destruct (N.eqb c RPAREN) eqn:Hc; [|discriminate].
  apply N.eqb_eq in Hc.
  destruct (skipn (Re.span_len Py.isspace rest) rest) as [|a [|b r']] eqn:Hs;
    try discriminate.
  destruct (N.eqb a PLUS) eqn:Ha; [|discriminate].
  destruct (N.eqb b PLUS) eqn:Hb; [|discriminate].
  apply N.eqb_eq in Ha, Hb. subst a b. simpl. intros [= <-].
  split; [exact Hc|]. exists r'. split; reflexivity.
Qed.

Lemma close_spaces_plusplus_none (rest : pystr) :
  Re.close_spaces_plusplus (RPAREN :: rest) = None ->
  plusplus_next rest = false.
Proof.
  unfold plusplus_next. simpl.
  destruct (skipn (Re.span_len Py.isspace rest) rest) as [|a [|b r']];
    try reflexivity.
  destruct (N.eqb a PLUS && N.eqb b PLUS); [discriminate|reflexivity].
Qed.

Lemma concat_sub_cons_gap (repl : pystr) (c : char) (ps : list Re.piece) :
  (exists g ps', ps = Re.Gap g :: ps') ->
  concat (map (fun pc => match pc with Re.Gap g => g | Re.Hit _ => repl end)
              (Re.cons_gap c ps))
  = c :: concat (map (fun pc => match pc with
                                | Re.Gap g => g
                                | Re.Hit _ => repl
                                end) ps).
Proof. intros (g & ps' & ->). reflexivity. Qed.

(** [remove_unnecessary_spaces] does what the specification words say, for
    runs of two or more [+]. *)
Lemma remove_unnecessary_spaces_refines (text : pystr) :
  remove_unnecessary_spaces text = tighten_spec text.
Proof.
  unfold remove_unnecessary_spaces, Re.sub, tighten_spec.
  apply (pieces_ind Re.tighten_pattern tighten_pattern_fits
           (fun text ps =>
              concat (map (fun pc => match pc with
                                     | Re.Gap g => g
                                     | Re.Hit _ => str ")++"
                                     end) ps)
              = tighten_from false text)).
  - reflexivity.
  - intros c rest Hm IH.
    rewrite concat_sub_cons_gap by apply pieces_gap_first.
    rewrite IH. simpl. f_equal.
    destruct (N.eqb c RPAREN) eqn:Hc; [|reflexivity].
    apply N.eqb_eq in Hc. subst c.
    rewrite tighten_pattern_first in Hm. destruct Hm as [Hm|Hm].
    + symmetry. apply tighten_from_miss, close_spaces_plusplus_none, Hm.
    + apply close_spaces_plusplus_inv in Hm.
      destruct Hm as (_ & r' & _ & Hn). lia.
  - intros c rest n Hm Hn IH.
    rewrite tighten_pattern_first in Hm.
    apply close_spaces_plusplus_inv in Hm.
    destruct Hm as (-> & r' & Hs & Hlen).
    assert (Hskip : skipn n rest = r').
    { replace n with (2 + Re.span_len Py.isspace rest)%nat by lia.
      rewrite <- skipn_skipn, Hs. reflexivity. }
    change (tighten_from false (RPAREN :: rest))
      with (RPAREN :: tighten_from true rest).
    rewrite (tighten_from_hit rest r' Hs).
    rewrite !map_cons, !concat_cons, IH, Hskip. reflexivity.
Qed.

(** ** The monad *)

Section MonadFacts.

Context {Model : Type}.

Lemma bind_ok {A B} (m : M Model A) (k : A -> M Model B) w w1 a :
  m w = (w1, Ok a) -> bind m k w = k a w1.
Proof. intros H. unfold bind. rewrite H. reflexivity. Qed.

Lemma bind_raise {A B} (m : M Model A) (k : A -> M Model B) w w1 e :
  m w = (w1, Raise e) -> bind m k w = (w1, Raise e).
Proof. intros H. unfold bind. rewrite H. reflexivity. Qed.

Lemma bind_assoc {A B C} (m : M Model A) (k : A -> M Model B)
    (h : B -> M Model C) w :
  bind (bind m k) h w = bind m (fun a => bind (k a) h) w.
Proof. unfold bind. destruct (m w) as [w1 [a|e]]; reflexivity. Qed.

Lemma foldM_cons {A St} (f : St -> A -> M Model St) (s : St) (a : A)
    (l : list A) w :
  foldM f s (a :: l) w = bind (f s a) (fun s' => foldM f s' l) w.
Proof. reflexivity. Qed.

Lemma foldM_app {A St} (f : St -> A -> M Model St) (s : St) (l1 l2 : list A) :
  forall w, foldM f s (l1 ++ l2) w
            = bind (foldM f s l1) (fun s' => foldM f s' l2) w.
Proof.
  revert s. induction l1 as [|a l1 IH]; intros s w.
  - reflexivity.
  - change (foldM f s ((a :: l1) ++ l2) w)
      with (bind (f s a) (fun s' => foldM f s' (l1 ++ l2)) w).
    change (foldM f s (a :: l1))
      with (bind (f s a) (fun s' => foldM f s' l1)).
    rewrite bind_assoc.
    destruct (f s a w) as [w1 [s1|e]] eqn:Hf.
    + rewrite !(bind_ok _ _ _ _ _ Hf). apply IH.
    + rewrite !(bind_raise _ _ _ _ _ Hf). reflexivity.
Qed.

(** What [mapM] returns was produced element by element. *)
Lemma mapM_ok {A B} (f : A -> M Model B) (l : list A) :
  forall w w' outs,
    mapM f l w = (w', Ok outs) ->
    Forall2 (fun a b => exists w1 w2, f a w1 = (w2, Ok b)) l outs.
Proof.
  induction l as [|a l IH]; intros w w' outs H.
  - simpl in H. injection H as _ <-. constructor.
  - simpl in H. unfold bind in H.
    destruct (f a w) as [w1 [b|e]] eqn:Hf; [|discriminate].
    destruct (mapM f l w1) as [w2 [bs|e]] eqn:Hl; [|discriminate].
    injection H as _ <-. constructor; [eauto | eapply IH; eauto].
Qed.

(** *** Computations that move the world along a preorder *)

Section Respects.

Variable R : world Model -> world Model -> Prop.
Hypothesis R_refl : forall w, R w w.
Hypothesis R_trans : forall w1 w2 w3, R w1 w2 -> R w2 w3 -> R w1 w3.

Lemma respects_ret {A} (a : A) : respects R (ret a).
Proof. intros w. apply R_refl. Qed.

Lemma respects_lift {A} (r : result A) : respects R (lift r).
Proof. intros w. apply R_refl. Qed.

Lemma respects_get_p : respects R get_p.
Proof. intros w. apply R_refl. Qed.

Lemma respects_bind {A B} (m : M Model A) (k : A -> M Model B) :
  respects R m -> (forall a, respects R (k a)) -> respects R (bind m k).
Proof.
  intros Hm Hk w. unfold bind. specialize (Hm w).
  destruct (m w) as [w1 [a|e]]; simpl in *; [|exact Hm].
  eapply R_trans; [exact Hm | apply Hk].
Qed.

Lemma respects_mapM {A B} (f : A -> M Model B) (l : list A) :
  (forall a, In a l -> respects R (f a)) -> respects R (mapM f l).
Proof.
  induction l as [|a l IH]; intros Hf; simpl.
  - apply respects_ret.
  - apply respects_bind; [apply Hf; left; reflexivity|]. intros b.
    apply respects_bind; [apply IH; intros; apply Hf; right; assumption|].
    intros bs. apply respects_ret.
Qed.

Lemma respects_foldM {A St} (f : St -> A -> M Model St) (l : list A) :
  (forall s a, In a l -> respects R (f s a)) ->
  forall s, respects R (foldM f s l).
Proof.
  induction l as [|a l IH]; intros Hf s; simpl.
  - apply respects_ret.
  - apply respects_bind; [apply Hf; left; reflexivity|]. intros s'.
    apply IH. intros; apply Hf; right; assumption.
Qed.

End Respects.

End MonadFacts.

(** ** The translation pipeline *)

Section PipelineFacts.

Context {Model : Type}.
Variable generate : Model -> pystr -> string -> string -> Model * pystr.
Variable csv : csv_file.

(** *** The prompt object is out of reach of the loops *)

Lemma same_p_refl (w : world Model) : same_p w w.
Proof. reflexivity. Qed.

Lemma same_p_trans (w1 w2 w3 : world Model) :
  same_p w1 w2 -> same_p w2 w3 -> same_p w1 w3.
Proof. unfold same_p. congruence. Qed.

(** *** The trace only grows, by texts of a given kind *)

Lemma grows_by_refl P (w : world Model) : grows_by P w w.
Proof. exists []. rewrite app_nil_r. split; [reflexivity|constructor]. Qed.

Lemma grows_by_trans P (w1 w2 w3 : world Model) :
  grows_by P w1 w2 -> grows_by P w2 w3 -> grows_by P w1 w3.
Proof.
  intros (n1 & H1 & F1) (n2 & H2 & F2). exists (n1 ++ n2).
  rewrite H2, H1, app_assoc. split; [reflexivity|].
  apply Forall_app. split; assumption.
Qed.

Section Along.

(** A preorder on worlds that every call of the translator with an
    admissible text follows. *)
Variable R : world Model -> world Model -> Prop.
Variable admissible : pystr -> Prop.
Hypothesis R_refl : forall w, R w w.
Hypothesis R_trans : forall w1 w2 w3, R w1 w2 -> R w2 w3 -> R w1 w3.
Hypothesis R_translate :
  forall text src tgt, admissible text ->
    respects R (translate generate text src tgt).

Lemma respects_transfer text ln_code :
  admissible text -> respects R (transfer generate csv text ln_code).
Proof.
  intros Had. unfold transfer, custom_translate.
  apply respects_bind; [assumption|apply respects_lift; assumption|].
  intros cache.
  destruct (cache text); [apply respects_ret; assumption|].
  apply R_translate. exact Had.
Qed.

Lemma respects_process_text text ln_code :
  (forall part segment,
      In part (Re.split Re.directive (Py.translate maketrans text)) ->
      is_directive part = false ->
      In segment (Py.split COMMA part) ->
      admissible segment) ->
  respects R (process_text generate csv text ln_code).
Proof.
  intros Had. unfold process_text.
  apply respects_bind; [assumption| |intros; apply respects_ret; assumption].
  apply respects_mapM; [assumption..|]. intros part Hpart.
  destruct (is_directive part) eqn:Hd; [apply respects_ret; assumption|].
  apply respects_bind; [assumption| |intros; apply respects_ret; assumption].
  apply respects_mapM; [assumption..|]. intros segment Hseg.
  destruct (negb (is_english segment));
    [|apply respects_ret; assumption].
  apply respects_transfer. eapply Had; eassumption.
Qed.

Hypothesis fragments_admissible :
  forall text part segment,
    In part (Re.split Re.directive (Py.translate maketrans text)) ->
    is_directive part = false ->
    In segment (Py.split COMMA part) ->
    admissible segment.

Lemma respects_translate_step options language st original_prompt :
  respects R
    (translate_step generate csv options language st original_prompt).
Proof.
  destruct st as [[previous_prompt previous_translated] translated].
  unfold translate_step.
  destruct (negb (Py.eqb previous_prompt original_prompt));
    [|apply respects_ret; assumption].
  apply respects_bind; [assumption|apply respects_lift; assumption|].
  intros opt.
  apply respects_bind;
    [assumption|apply respects_process_text; apply fragments_admissible|].
  intros t.
  apply respects_bind; [assumption|apply respects_lift; assumption|].
  intros t'. apply respects_ret; assumption.
Qed.

Lemma respects_translate_prompts options language prompts :
  respects R (translate_prompts generate csv options language prompts).
Proof.
  unfold translate_prompts.
  apply respects_bind; [assumption| |intros; apply respects_ret; assumption].
  apply respects_foldM; [assumption..|].
  intros. apply respects_translate_step.
Qed.

End Along.

Lemma translate_same_p text src tgt :
  respects same_p (translate generate text src tgt).
Proof.
  intros w. unfold translate, same_p.
  destruct (negb (supported src)); [reflexivity|].
  destruct (negb (supported tgt)); [reflexivity|].
  simpl. destruct (generate (model w) text src tgt). reflexivity.
Qed.

Lemma translate_grows_by (P : pystr -> Prop) text src tgt :
  P text -> respects (grows_by P) (translate generate text src tgt).
Proof.
  intros HP w. exists [text]. split; [|constructor; [exact HP|constructor]].
  unfold translate.
  destruct (negb (supported src)); [reflexivity|].
  destruct (negb (supported tgt)); [reflexivity|].
  simpl. destruct (generate (model w) text src tgt). reflexivity.
Qed.

Lemma translate_prompts_same_p options language prompts :
  respects same_p
    (translate_prompts generate csv options language prompts).
Proof.
  apply (respects_translate_prompts same_p (fun _ => True)).
  - exact same_p_refl.
  - exact same_p_trans.
  - intros. apply translate_same_p.
  - intros. exact I.
Qed.

End PipelineFacts.

(** ** Weight markers *)

(** The fuel given to [while_plus] by [append_position] is enough: any larger
    amount gives the same outcome, so [Raise IndexError] always stands for
    the exception of [text[j]] and never for a loop cut short. *)
Lemma while_plus_fuel_irrelevant (text : pystr) (f1 f2 : nat) (j : Z) :
  (Z.to_nat (j + Py.len text + 1) <= f1)%nat ->
  (Z.to_nat (j + Py.len text + 1) <= f2)%nat ->
  while_plus text f1 j = while_plus text f2 j.
Proof.
  revert f2 j. induction f1 as [|f1 IH]; intros f2 j H1 H2.
  - destruct (Py.getitem text j) as [c|e] eqn:Hget.
    + apply getitem_ok_range in Hget. lia.
    + destruct f2; simpl; rewrite Hget; reflexivity.
  - destruct f2 as [|f2].
    + destruct (Py.getitem text j) as [c|e] eqn:Hget.
      * apply getitem_ok_range in Hget. lia.
      * simpl; rewrite Hget; reflexivity.
    + simpl. destruct (Py.getitem text j) as [c|e] eqn:Hget; [|reflexivity].
      simpl. destruct (N.eqb c PLUS); [|reflexivity].
      apply getitem_ok_range in Hget. apply IH; lia.
Qed.

Lemma while_plus_fuel (text : pystr) (fuel : nat) (j : Z) :
  (Z.to_nat (j + Py.len text + 1) <= fuel)%nat ->
  while_plus text fuel j
  = while_plus text (Z.to_nat (j + Py.len text + 1)) j.
Proof. intros H. apply while_plus_fuel_irrelevant; [exact H | lia]. Qed.

(** When the two extractions succeed with different numbers of positions,
    [match_pluses] hands the translated text back as it is. *)
Lemma match_pluses_counts_differ (original translated : pystr) ins outs :
  extract_plus_positions original = Ok ins ->
  extract_plus_positions translated = Ok outs ->
  length ins <> length outs ->
  match_pluses original translated = Ok translated.
Proof.
  intros Hin Hout Hne. unfold match_pluses. rewrite Hin, Hout. simpl.
  apply Nat.eqb_neq in Hne. rewrite Hne. simpl.
  rewrite slice_from_zero, app_nil_r. reflexivity.
Qed.

(** Tightening removes whitespace and nothing else. *)
Lemma tighten_from_keeps_nonspace (b : bool) (s : pystr) :
  filter (fun c => negb (Py.isspace c)) (tighten_from b s)
  = filter (fun c => negb (Py.isspace c)) s.
Proof.
  revert b. induction s as [|c r IH]; intros b; [reflexivity|].
  simpl. destruct (b && Py.isspace c && plusplus_next r) eqn:Hcond.
  - apply andb_true_iff in Hcond. destruct Hcond as [Hcond _].
    apply andb_true_iff in Hcond. destruct Hcond as [_ Hc].
    rewrite Hc. simpl. apply IH.
  - simpl. rewrite IH. reflexivity.
Qed.

(** ** The examples of the specification *)

Example extract_two_runs :
  extract_plus_positions (str "a(word)++, b+++") = Ok [(7, 9, 2); (12, 15, 3)].
Proof. reflexivity. Qed.

Example extract_no_run : extract_plus_positions (str "a cat") = Ok [].
Proof. reflexivity. Qed.

Example reconcile_equal_counts :
  match_pluses (str "(cat)++ and (dog)+++") (str "un chat)+ et un chien)++++")
  = Ok (str "un chat)++ et un chien)+++").
Proof. reflexivity. Qed.

Example tighten_two_plus :
  remove_unnecessary_spaces (str "(cat)  ++ x") = str "(cat)++ x".
Proof. reflexivity. Qed.

Example split_directive :
  Re.split Re.directive (str "a cat <lora:foo:0.8>, sitting")
  = [str "a cat "; str "<lora:foo:0.8>"; str ", sitting"].
Proof. reflexivity. Qed.


(** * The claims *)

(** C2 (code defect).  With one maximal run of [+] in each text,
    reconciliation should put the original run ["+"] in place of the
    translated run ["++"], giving ["c+d"].  [extract_plus_positions] reports
    no run for either text, because neither run reaches the end of its
    text, so [match_pluses] returns the translated text unchanged. *)
Theorem match_pluses_keeps_translated_run :
  length (plus_runs (str "a+b")) = length (plus_runs (str "c++d")) /\
  extract_plus_positions (str "a+b") = Ok [] /\
  extract_plus_positions (str "c++d") = Ok [] /\
  match_pluses (str "a+b") (str "c++d") = Ok (str "c++d").
Proof. repeat split; reflexivity. Qed.

(** C3 (code defect).  The text ["a+b"] has one maximal run of [+], at
    [(1, 2, 1)], and [extract_plus_positions] reports none: the last run is
    recorded only when it ends the text.  On ["+a+"] the first run is
    reported with start [-1] and length [2], because the backward scan from
    index [0] wraps around to the end of the text. *)
Theorem extract_plus_positions_misses_runs :
  plus_runs (str "a+b") = [(1, 2, 1)] /\
  extract_plus_positions (str "a+b") = Ok [] /\
  plus_runs (str "+a+") = [(0, 1, 1); (2, 3, 1)] /\
  extract_plus_positions (str "+a+") = Ok [(-1, 1, 2); (2, 3, 1)].
Proof. repeat split; reflexivity. Qed.

(** C4 (code defect).  For the prompt ["+"] and the supported language
    ["zh_XX"], the backward scan of [extract_plus_positions] reads
    [text[-2]] and the batch ends with [IndexError]. *)
Theorem process_plus_only_raises :
  Py.getitem language_options Scenario.chinese
    = Ok (lang_opt "Chinese" "zh_XX") /\
  supported "zh_XX" = true /\
  extract_plus_positions (str "+") = Raise IndexError /\
  snd (process Scenario.counting Scenario.no_cache Scenario.active
         Scenario.chinese
         (Scenario.start (Scenario.with_prompts [str "+"])))
  = Raise IndexError.
Proof. repeat split; reflexivity. Qed.

(** C5 (code defect).  The original ["a+"] has one maximal run of [+] and
    the translated ["b++c+d"] has two, so reconciliation should return the
    translated text unchanged.  [extract_plus_positions] reports one run for
    each, the last run of the translated text being dropped, and
    [match_pluses] substitutes: the result is ["b+c+d"]. *)
Theorem match_pluses_substitutes_on_count_mismatch :
  length (plus_runs (str "a+")) = 1%nat /\
  length (plus_runs (str "b++c+d")) = 2%nat /\
  extract_plus_positions (str "a+") = Ok [(1, 2, 1)] /\
  extract_plus_positions (str "b++c+d") = Ok [(1, 3, 2)] /\
  match_pluses (str "a+") (str "b++c+d") = Ok (str "b+c+d").
Proof. repeat split; reflexivity. Qed.

(** C8 as stated fails: a single [+] after [") "] is left alone. *)
Lemma single_plus_not_tightened :
  remove_unnecessary_spaces (str "(cat) +") = str "(cat) +" /\
  remove_unnecessary_spaces (str "(cat) +") <> str "(cat)+".
Proof. split; [reflexivity | discriminate]. Qed.

(** C8 (amended).  For every string, [remove_unnecessary_spaces] removes the
    whitespace between a closing parenthesis and an immediately following
    run of at least two [+] and alters nothing else: it agrees with
    [tighten_spec], and what it removes is whitespace only. *)
Theorem remove_unnecessary_spaces_tightens (text : pystr) :
  remove_unnecessary_spaces text = tighten_spec text /\
  filter (fun c => negb (Py.isspace c)) (remove_unnecessary_spaces text)
  = filter (fun c => negb (Py.isspace c)) text.
Proof.
  split; [apply remove_unnecessary_spaces_refines|].
  rewrite remove_unnecessary_spaces_refines.
  apply tighten_from_keeps_nonspace.
Qed.

(** C9.  For every string, the segments of [re.split(r'(<[^>]*>)', text)]
    concatenated in order are the string itself; every directive segment is
    a [<], a body without [>], and a [>], and every literal segment holds no
    [<] that is followed by a [>], so an unmatched [<] stays literal text. *)
Theorem segmenter_roundtrip (text : pystr) :
  concat (Re.split Re.directive text) = text /\
  Forall piece_ok (Re.pieces Re.directive text 0).
Proof.
  split; [apply pieces_concat | apply directive_pieces_ok].
Qed.

(** ** Directive spans in the pipeline *)

Lemma occurs_in_length (d s : pystr) :
  occurs_in d s -> (length d <= length s)%nat.
Proof. intros (pre & post & ->). rewrite !length_app. lia. Qed.

Lemma occurs_in_member (d s : pystr) (c : char) :
  occurs_in d s -> In c d -> In c s.
Proof.
  intros (pre & post & ->) Hc.
  apply in_or_app. right. apply in_or_app. left. exact Hc.
Qed.

Lemma in_concat_occurs (d : pystr) (l : list pystr) :
  In d l -> occurs_in d (concat l).
Proof.
  intros Hin. apply in_split in Hin. destruct Hin as (l1 & l2 & ->).
  exists (concat l1), (concat l2). rewrite concat_app. reflexivity.
Qed.

Lemma Forall2_in_left {A B} (R : A -> B -> Prop) (l : list A) (l' : list B) a :
  Forall2 R l l' -> In a l -> exists b, In b l' /\ R a b.
Proof.
  induction 1 as [|x y l l' Hxy _ IH]; intros Hin; [destruct Hin|].
  destruct Hin as [<-|Hin].
  - exists y. split; [left; reflexivity | exact Hxy].
  - destruct (IH Hin) as (b & Hb & HR). exists b. split; [right|]; assumption.
Qed.

Lemma directive_spans_in_split (text d : pystr) :
  In d (directive_spans text) ->
  In d (Re.split Re.directive text) /\ is_directive d = true.
Proof.
  unfold directive_spans, Re.split. intros Hin.
  apply in_flat_map in Hin. destruct Hin as (pc & Hpc & Hd).
  pose proof (directive_pieces_ok text) as Hok.
  rewrite Forall_forall in Hok. specialize (Hok pc Hpc).
  destruct pc as [g|h]; [destruct Hd|].
  destruct Hd as [<-|[]]. split.
  - apply in_map_iff. exists (Re.Hit h). split; [reflexivity | exact Hpc].
  - apply span_shape_is_directive. exact Hok.
Qed.

Lemma literal_segment_no_span (text part segment : pystr) :
  In part (Re.split Re.directive text) ->
  is_directive part = false ->
  In segment (Py.split COMMA part) ->
  ~ has_span segment.
Proof.
  unfold Re.split. intros Hpart Hd Hseg Hspan.
  apply in_map_iff in Hpart. destruct Hpart as (pc & <- & Hpc).
  pose proof (directive_pieces_ok text) as Hok.
  rewrite Forall_forall in Hok. specialize (Hok pc Hpc).
  destruct pc as [g|h]; simpl in *.
  - apply Hok. eapply has_span_occurs; [|exact Hspan].
    eapply split_field_occurs. exact Hseg.
  - apply span_shape_is_directive in Hok. congruence.
Qed.

(** C1 as stated fails.  A full-width comma inside a directive span is
    replaced before the text is segmented; whitespace tightening after
    translation reaches into a span that holds [) ++]; and the
    reconciliation of the [+] runs, which pairs the runs of the two texts
    by their order, writes the run [++] of the original over the [+] of a
    span when the model has dropped a run before it.  In all three cases
    the span of the input does not occur in the output. *)
Lemma directive_span_rewritten :
  (directive_spans [LT; 65292%N; GT] = [[LT; 65292%N; GT]] /\
   snd (translate_prompts Scenario.counting Scenario.no_cache language_options
          Scenario.chinese [[LT; 65292%N; GT]]
          (Scenario.start Scenario.blank))
   = Ok [[LT; COMMA; GT]] /\
   ~ occurs_in [LT; 65292%N; GT] [LT; COMMA; GT]) /\
  (directive_spans (str "<a) ++>") = [str "<a) ++>"] /\
   snd (translate_prompts Scenario.counting Scenario.no_cache language_options
          Scenario.chinese [str "<a) ++>"] (Scenario.start Scenario.blank))
   = Ok [str "<a)++>"] /\
   ~ occurs_in (str "<a) ++>") (str "<a)++>")) /\
  (directive_spans ([Scenario.mao; PLUS; PLUS] ++ str "<+>"
                    ++ [Scenario.gou; PLUS])
   = [str "<+>"] /\
   snd (translate_prompts Scenario.garbling Scenario.no_cache
          language_options Scenario.chinese
          [[Scenario.mao; PLUS; PLUS] ++ str "<+>" ++ [Scenario.gou; PLUS]]
          (Scenario.start Scenario.blank))
   = Ok [str "cat<++>d+og+"] /\
   ~ occurs_in (str "<+>") (str "cat<++>d+og+")).
Proof.
  split; [|split]; (split; [reflexivity | split; [reflexivity|]]).
  - intros H. apply (occurs_in_member _ _ 65292%N) in H.
    + simpl in H. unfold LT, COMMA, GT in H.
      repeat (destruct H as [H|H]; [discriminate|]). exact H.
    + right. left. reflexivity.
  - intros H. apply occurs_in_length in H. simpl in H. lia.
  - intros (pre & post & H). vm_compute in H.
    repeat (destruct pre as [|? pre]; [discriminate|injection H as _ H]).
    destruct pre; discriminate.
Qed.

(** ** The loop over the prompts *)

Lemma eqb_refl (s : pystr) : Py.eqb s s = true.
Proof. unfold Py.eqb. destruct (list_eq_dec N.eq_dec s s); congruence. Qed.

Lemma eqb_true (s t : pystr) : Py.eqb s t = true -> s = t.
Proof.
  unfold Py.eqb. destruct (list_eq_dec N.eq_dec s t); [trivial|discriminate].
Qed.

(** C6 as stated fails.  In the batch [A; B; A] the third prompt equals the
    first, yet the translator is called a third time, and with a model whose
    answers change from call to call the third slot is not a copy of the
    first. *)
Lemma nonadjacent_duplicate_translated_again :
  snd (translate_prompts Scenario.counting Scenario.no_cache language_options
         Scenario.chinese [[Scenario.mao]; [Scenario.gou]; [Scenario.mao]]
         (Scenario.start Scenario.blank))
  = Ok [str "0"; str "1"; str "2"] /\
  calls (fst (translate_prompts Scenario.counting Scenario.no_cache
                language_options Scenario.chinese
                [[Scenario.mao]; [Scenario.gou]; [Scenario.mao]]
                (Scenario.start Scenario.blank)))
  = [[Scenario.mao]; [Scenario.gou]; [Scenario.mao]].
Proof. split; reflexivity. Qed.

Section PromptLoop.

Context {Model : Type}.
Variable generate : Model -> pystr -> string -> string -> Model * pystr.
Variable csv : csv_file.
Variable options : list LanguageOption.
Variable language : Z.

Local Abbreviation step :=
  (translate_step generate csv options language).

Lemma step_prefix a b outs x w :
  step (a, b, outs) x w = map_result (prefix_outs outs) (step (a, b, []) x w).
Proof.
  unfold step, translate_step, map_result.
  destruct (negb (Py.eqb a x)).
  - unfold bind, lift, ret.
    destruct (Py.getitem options language) as [opt|e]; [|reflexivity].
    destruct (process_text generate csv x (language_code opt) w)
      as [w1 [t|e]]; [|reflexivity].
    destruct (post_process_prompt x t) as [t'|e]; reflexivity.
  - reflexivity.
Qed.

Lemma foldM_prefix l : forall a b outs w,
  foldM step (a, b, outs) l w
  = map_result (prefix_outs outs) (foldM step (a, b, []) l w).
Proof.
  induction l as [|x l IH]; intros a b outs w.
  - unfold map_result, prefix_outs. simpl. rewrite app_nil_r. reflexivity.
  - rewrite !foldM_cons. unfold bind. rewrite step_prefix.
    destruct (step (a, b, []) x w) as [w1 [[[a1 b1] o1]|e]];
      unfold map_result at 1 2; simpl fst; simpl snd; cbv iota;
      [|reflexivity].
    unfold prefix_outs at 1. simpl fst. simpl snd.
    rewrite (IH a1 b1 (outs ++ o1)), (IH a1 b1 o1).
    unfold map_result, prefix_outs.
    destruct (foldM step (a1, b1, []) l w1) as [w2 [[[a2 b2] o2]|e]];
      simpl; [|reflexivity].
    rewrite app_assoc. reflexivity.
Qed.

(** A round adds one slot. *)
Lemma foldM_length l : forall st w w' st',
  foldM step st l w = (w', Ok st') ->
  length (snd st') = (length (snd st) + length l)%nat.
Proof.
  induction l as [|x l IH]; intros st w w' st' H.
  - simpl in H. injection H as _ <-. simpl. lia.
  - simpl in H. unfold bind in H.
    destruct (step st x w) as [w1 [st1|e]] eqn:Hs; [|discriminate].
    apply IH in H. rewrite H. simpl.
    enough (length (snd st1) = S (length (snd st))) by lia.
    clear -Hs. destruct st as [[a b] outs].
    unfold step, translate_step in Hs.
    destruct (negb (Py.eqb a x)).
    + unfold bind, lift, ret in Hs.
      destruct (Py.getitem options language) as [opt|e]; [|discriminate].
      destruct (process_text generate csv x (language_code opt) w)
        as [w2 [t|e]]; [|discriminate].
      destruct (post_process_prompt x t) as [t'|e]; [|discriminate].
      injection Hs as _ <-. simpl. rewrite length_app. simpl. lia.
    + injection Hs as _ <-. simpl. rewrite length_app. simpl. lia.
Qed.

(** After a round for [x], the previous prompt is [x] and the last slot
    holds the previous translation. *)
Lemma step_state st x w w' st' :
  step st x w = (w', Ok st') ->
  exists b, st' = (x, b, snd st ++ [b]).
Proof.
  destruct st as [[a b0] outs]. unfold step, translate_step.
  destruct (negb (Py.eqb a x)) eqn:Hax.
  - unfold bind, lift, ret.
    destruct (Py.getitem options language) as [opt|e]; [|discriminate].
    destruct (process_text generate csv x (language_code opt) w)
      as [w2 [t|e]]; [|discriminate].
    destruct (post_process_prompt x t) as [t'|e]; [|discriminate].
    intros [= _ <-]. eauto.
  - apply negb_false_iff, eqb_true in Hax. subst a.
    intros [= _ <-]. eauto.
Qed.

(** A prompt equal to the previous one costs nothing: the world is left
    as it is and the previous translation is appended once more. *)
Lemma step_repeat x b outs w :
  step (x, b, outs) x w = (w, Ok (x, b, outs ++ [b])).
Proof. unfold step, translate_step. rewrite eqb_refl. reflexivity. Qed.

Lemma translate_prompts_foldM prompts w :
  translate_prompts generate csv options language prompts w
  = map_result snd (foldM step ([], [], []) prompts w).
Proof.
  unfold translate_prompts, bind, map_result, step.
  destruct (foldM _ _ prompts w) as [w1 [st|e]]; reflexivity.
Qed.

Lemma dup_slot_last (outs : list pystr) (b : pystr) (new : list pystr) :
  dup_slot (length outs) ((outs ++ [b]) ++ new) = (outs ++ [b; b]) ++ new.
Proof.
  unfold dup_slot.
  assert (Hlen : length (outs ++ [b]) = S (length outs))
    by (rewrite length_app; simpl; lia).
  rewrite <- Hlen at 1. rewrite firstn_app, firstn_all, Nat.sub_diag.
  simpl firstn. rewrite app_nil_r.
  rewrite <- Hlen. rewrite skipn_app, skipn_all, Nat.sub_diag. simpl skipn.
  replace (nth (length outs) ((outs ++ [b]) ++ new) []) with b.
  2:{ rewrite <- app_assoc, app_nth2 by lia.
      rewrite Nat.sub_diag. reflexivity. }
  simpl. rewrite <- !app_assoc. reflexivity.
Qed.

(** C6 (amended).  For every batch, a prompt equal to the prompt right
    before it is not processed: the batch behaves as the batch without
    that second occurrence (same world, so no call of the translator,
    same exception if any), and the slot of the second occurrence is a
    copy of the slot before it. *)
Theorem consecutive_duplicate_copied (l : list pystr) (x : pystr)
    (rest : list pystr) (w : world Model) :
  translate_prompts generate csv options language (l ++ x :: x :: rest) w
  = map_result (dup_slot (length l))
      (translate_prompts generate csv options language
         (l ++ x :: rest) w).
Proof.
  rewrite !translate_prompts_foldM.
  change (l ++ x :: x :: rest) with (l ++ [x] ++ x :: rest).
  change (l ++ x :: rest) with (l ++ [x] ++ rest).
  rewrite !app_assoc, !foldM_app.
  unfold bind.
  destruct (foldM step ([], [], []) (l ++ [x]) w) as [w1 [st|e]] eqn:Hl;
    [|reflexivity].
  pose proof (foldM_length _ _ _ _ _ Hl) as Hlen.
  rewrite foldM_app in Hl. unfold bind in Hl.
  destruct (foldM step ([], [], []) l w) as [w0 [st0|e]] eqn:Hl0;
    [|discriminate].
  simpl in Hl. unfold bind in Hl.
  destruct (step st0 x w0) as [w0' [st0'|e]] eqn:Hx; [|discriminate].
  injection Hl as -> ->.
  apply step_state in Hx. destruct Hx as (b & ->).
  apply foldM_length in Hl0. simpl in Hl0.
  rewrite foldM_cons. unfold bind at 1. rewrite step_repeat.
  rewrite (foldM_prefix rest x b ((snd st0 ++ [b]) ++ [b])).
  rewrite (foldM_prefix rest x b (snd st0 ++ [b])).
  unfold map_result.
  destruct (foldM step (x, b, []) rest w1) as [w2 [[[a2 b2] o2]|e]];
    simpl; [|reflexivity].
  f_equal. f_equal.
  rewrite <- Hl0, dup_slot_last, <- !app_assoc. reflexivity.
Qed.

End PromptLoop.

(** ** The batch *)

Lemma get_prompts_nonempty (q : Processing) :
  fst (get_prompts q) <> [] /\ snd (get_prompts q) <> [].
Proof.
  unfold get_prompts. simpl. split.
  - destruct (all_prompts q); simpl; discriminate.
  - destruct (all_negative_prompts q); simpl; discriminate.
Qed.

Section Batch.

Context {Model : Type}.
Variable generate : Model -> pystr -> string -> string -> Model * pystr.
Variable csv : csv_file.
Variable options : list LanguageOption.
Variable language : Z.

Lemma translate_prompts_length prompts w w' outs :
  translate_prompts generate csv options language prompts w
  = (w', Ok outs) ->
  length outs = length prompts.
Proof.
  rewrite translate_prompts_foldM.
  destruct (foldM _ _ prompts w) as [w1 [st|e]] eqn:Hf; [|discriminate].
  unfold map_result. simpl. intros [= _ <-].
  apply foldM_length in Hf. exact Hf.
Qed.

Lemma translate_prompts_hd prompts w w' outs :
  prompts <> [] ->
  translate_prompts generate csv options language prompts w
  = (w', Ok outs) ->
  Py.getitem outs 0 = Ok (hd [] outs).
Proof.
  intros Hne H. apply translate_prompts_length in H.
  destruct outs as [|t ts]; [|reflexivity].
  destruct prompts; [congruence | discriminate].
Qed.

(** [process] is [batch_outcome]: the loops leave [p] alone, the
    subscripts [[0]] cannot fail, and the assignments come last. *)
Lemma process_with_outcome (self : Script) (w : world Model) :
  has_translator self && is_active self = true ->
  process_with generate csv options self language w
  = batch_outcome generate csv options language self w.
Proof.
  intros Hactive. unfold process_with, batch_outcome. rewrite Hactive.
  destruct (get_prompts_nonempty (p w)) as [Hps Hns].
  unfold bind at 1. unfold get_p at 1. cbv iota beta.
  destruct (get_prompts (p w)) as [ops ons] eqn:Hgp. simpl fst in *.
  simpl snd in *. unfold bind at 1.
  pose proof (translate_prompts_same_p generate csv options language
                ops w) as Hp1.
  unfold same_p in Hp1.
  destruct (translate_prompts generate csv options language ops w)
    as [w1 [tps|e]] eqn:H1; simpl in Hp1; [|reflexivity].
  pose proof (translate_prompts_hd _ _ _ _ Hps H1) as Hhd.
  unfold bind at 1. unfold get_p at 1. cbv iota beta. rewrite Hp1.
  destruct (negb (Py.eqb (negative_prompt (p w)) [])
            && is_negative_translate_active self).
  - pose proof (translate_prompts_same_p generate csv options language
                  ons w1) as Hp2.
    unfold same_p in Hp2.
    unfold bind at 1 2.
    destruct (translate_prompts generate csv options language ons w1)
      as [w2 [tns|e]] eqn:H2; simpl in Hp2; [|reflexivity].
    pose proof (translate_prompts_hd _ _ _ _ Hns H2) as Hhd2.
    unfold bind, lift, set_p, substituted. rewrite Hhd2, Hhd. simpl.
    reflexivity.
  - unfold bind, lift, set_p, ret, substituted. rewrite Hhd. simpl.
    rewrite Hp1. reflexivity.
Qed.


(** *** An unsupported language code *)








End Batch.





Section NegativePrompts.

Context {Model : Type}.
Variable generate : Model -> pystr -> string -> string -> Model * pystr.
Variable csv : csv_file.
Variable options : list LanguageOption.
Variable language : Z.

(** C10.  For every batch that is processed (translator loaded, script
    active): if the translate-negative-prompt flag is set and
    [p.negative_prompt] is not the empty string, the negative prompts are
    translated after the main prompts and substituted; in every other
    case [negative_prompt] and [all_negative_prompts] are unchanged, the
    translator is not called beyond the main prompts, and the main prompts
    are translated and substituted. *)
Theorem negative_prompts_gate (self : Script) (w : world Model) :
  has_translator self = true ->
  is_active self = true ->
  let out := process_with generate csv options self language w in
  let main :=
    translate_prompts generate csv options language
      (fst (get_prompts (p w))) w in
  if negb (Py.eqb (negative_prompt (p w)) [])
     && is_negative_translate_active self
  then
    match snd main with
    | Raise e => out = (fst main, Raise e)
    | Ok tps =>
        match translate_prompts generate csv options language
                (snd (get_prompts (p w))) (fst main) with
        | (w2, Raise e) => out = (w2, Raise e)
        | (w2, Ok tns) =>
            snd out = Ok tt /\
            negative_prompt (p (fst out)) = hd [] tns /\
            all_negative_prompts (p (fst out)) = tns /\
            all_prompts (p (fst out)) = tps
        end
    end
  else
    negative_prompt (p (fst out)) = negative_prompt (p w) /\
    all_negative_prompts (p (fst out)) = all_negative_prompts (p w) /\
    model (fst out) = model (fst main) /\
    calls (fst out) = calls (fst main) /\
    match snd main with
    | Raise e => snd out = Raise e
    | Ok tps =>
        snd out = Ok tt /\
        prompt (p (fst out)) = hd [] tps /\
        all_prompts (p (fst out)) = tps /\
        prompt_for_display (p (fst out)) = hd [] tps
    end.
Proof.
  intros Htr Hact. cbv zeta.
  rewrite process_with_outcome by (rewrite Htr, Hact; reflexivity).
  unfold batch_outcome.
  pose proof (translate_prompts_same_p generate csv options language
                (fst (get_prompts (p w))) w) as Hp1.
  unfold same_p in Hp1.
  set (ops := fst (get_prompts (p w))) in *.
  set (ons := snd (get_prompts (p w))). clearbody ops ons.
  destruct (translate_prompts generate csv options language ops w)
    as [w1 [tps|e]]; simpl in Hp1; simpl fst; simpl snd; cbv iota.
  - destruct (negb (Py.eqb (negative_prompt (p w)) [])
              && is_negative_translate_active self).
    + destruct (translate_prompts generate csv options language ons w1)
        as [w2 [tns|e]]; simpl; auto.
    + simpl. repeat split; reflexivity.
  - destruct (negb (Py.eqb (negative_prompt (p w)) [])
              && is_negative_translate_active self).
    + reflexivity.
    + simpl. rewrite Hp1. repeat split; reflexivity.
Qed.

End NegativePrompts.

(** C10 at work: the flag is set, [negative_prompt] is empty and
    [all_negative_prompts] is not; the negative prompts stay as they are. *)
Lemma negative_prompts_gate_witness :
  let self := {| has_translator := true; is_active := true;
                 is_negative_translate_active := true |} in
  let w := Scenario.start
             {| prompt := [Scenario.mao];
                all_prompts := [[Scenario.mao]];
                negative_prompt := [];
                all_negative_prompts := [[Scenario.gou]];
                prompt_for_display := [] |} in
  let out :=
    process_with Scenario.counting Scenario.no_cache language_options self
      Scenario.chinese w in
  negative_prompt (p (fst out)) = [] /\
  all_negative_prompts (p (fst out)) = [[Scenario.gou]] /\
  calls (fst out) = [[Scenario.mao]] /\
  all_prompts (p (fst out)) = [str "0"].
Proof.
  cbv zeta.
  pose proof
    (negative_prompts_gate Scenario.counting Scenario.no_cache
       language_options Scenario.chinese
       {| has_translator := true; is_active := true;
          is_negative_translate_active := true |}
       (Scenario.start
          {| prompt := [Scenario.mao];
             all_prompts := [[Scenario.mao]];
             negative_prompt := [];
             all_negative_prompts := [[Scenario.gou]];
             prompt_for_display := [] |})
       eq_refl eq_refl) as H.
  cbv zeta in H.
  destruct H as (Hneg & Hall & _ & Hcalls & Hmain).
  split; [exact Hneg|]. split; [exact Hall|].
  split; [rewrite Hcalls; reflexivity|].
  destruct Hmain as (_ & _ & Hps & _). rewrite Hps. reflexivity.
Defined.

(** * Further properties of the script *)

(** ** Punctuation and fragments *)

Lemma normalize_char_cases (c : char) :
  normalize_char c = c \/
  (Py.isascii c || Py.isspace c = false /\
   Py.isascii (normalize_char c) = true /\
   normalize_char (normalize_char c) = normalize_char c /\
   c <> LT /\ c <> GT /\ c <> PLUS /\
   normalize_char c <> LT /\ normalize_char c <> GT /\
   normalize_char c <> PLUS).
Proof.
  unfold normalize_char, maketrans. cbn [find fst snd].
  repeat match goal with
         | |- context [N.eqb ?k c] =>
             destruct (N.eqb k c) eqn:?H;
             [apply N.eqb_eq in H; subst c; right;
              repeat split; (reflexivity || discriminate)|clear H]
         end.
  left. reflexivity.
Qed.

Lemma translate_maketrans_map (s : pystr) :
  Py.translate maketrans s = map normalize_char s.
Proof. reflexivity. Qed.

Lemma normalize_char_idem (c : char) :
  normalize_char (normalize_char c) = normalize_char c.
Proof.
  destruct (normalize_char_cases c) as [H|H].
  - rewrite H. exact H.
  - apply H.
Qed.

Lemma normalize_char_english (c : char) :
  Py.isascii c || Py.isspace c = true -> normalize_char c = c.
Proof.
  intros Hc. destruct (normalize_char_cases c) as [H|H]; [exact H|].
  destruct H as [H _]. congruence.
Qed.

(** X1.  The punctuation mapping of [process_text] is idempotent, keeps the
    length of the text, and every character it changes becomes ASCII. *)
Theorem punctuation_mapping_idempotent (s : pystr) :
  Py.translate maketrans (Py.translate maketrans s) = Py.translate maketrans s
  /\ length (Py.translate maketrans s) = length s
  /\ Forall2 (fun c d => d = c \/ Py.isascii d = true)
       s (Py.translate maketrans s).
Proof.
  rewrite !translate_maketrans_map. split; [|split].
  - rewrite map_map. apply map_ext. apply normalize_char_idem.
  - apply length_map.
  - induction s as [|c s IH]; simpl; constructor; [|exact IH].
    destruct (normalize_char_cases c) as [H|H]; [left; exact H|].
    right. apply H.
Qed.

Lemma split_fields_no_sep (sep : char) (s : pystr) :
  Forall (fun f => ~ In sep f) (Py.split sep s).
Proof.
  induction s as [|c r IH]; simpl.
  - constructor; [intros []|constructor].
  - destruct (N.eqb c sep) eqn:Hc.
    + constructor; [intros []|exact IH].
    + destruct (Py.split sep r) as [|f fs]; [constructor; [|constructor]|].
      * intros [H|[]]. subst c. rewrite N.eqb_refl in Hc. discriminate.
      * inversion IH as [|? ? Hf Hfs]; subst. constructor; [|exact Hfs].
        intros [H|H]; [|exact (Hf H)].
        subst c. rewrite N.eqb_refl in Hc. discriminate.
Qed.

Lemma split_length (sep : char) (s : pystr) :
  length (Py.split sep s) = S (count_occ N.eq_dec s sep).
Proof.
  induction s as [|c r IH]; [reflexivity|].
  simpl. destruct (N.eqb c sep) eqn:Hc.
  - apply N.eqb_eq in Hc. subst c.
    destruct (N.eq_dec sep sep) as [_|Hne]; [|congruence].
    simpl. rewrite IH. reflexivity.
  - apply N.eqb_neq in Hc.
    destruct (N.eq_dec c sep) as [He|_]; [congruence|].
    destruct (Py.split sep r) as [|f fs]; simpl in *; [discriminate|exact IH].
Qed.

(** X2.  Splitting a part on commas and joining the fragments with commas
    gives the part back; there is one fragment more than there are commas,
    and no fragment holds a comma. *)
Theorem comma_fragments_roundtrip (part : pystr) :
  Py.join [COMMA] (Py.split COMMA part) = part /\
  length (Py.split COMMA part) = S (count_occ N.eq_dec part COMMA) /\
  Forall (fun f => ~ In COMMA f) (Py.split COMMA part).
Proof.
  split; [apply join_split|]. split; [apply split_length|].
  apply split_fields_no_sep.
Qed.

(** ** [process_text] without the translator *)

Lemma is_english_occurs (a b : pystr) :
  occurs_in a b -> is_english b = true -> is_english a = true.
Proof.
  intros (pre & post & ->). unfold is_english.
  rewrite !forallb_app. intros H.
  apply andb_true_iff in H. destruct H as [_ H].
  apply andb_true_iff in H. apply H.
Qed.

Lemma translate_english (text : pystr) :
  is_english text = true -> Py.translate maketrans text = text.
Proof.
  rewrite translate_maketrans_map. unfold is_english.
  induction text as [|c r IH]; [reflexivity|]. simpl.
  intros H. apply andb_true_iff in H. destruct H as [Hc Hr].
  rewrite (normalize_char_english c Hc), (IH Hr). reflexivity.
Qed.

Section Offline.

Context {Model : Type}.
Variable generate : Model -> pystr -> string -> string -> Model * pystr.
Variable csv : csv_file.

Lemma mapM_pure {A B} (f : A -> M Model B) (g : A -> B) (l : list A) :
  (forall a, In a l -> forall w, f a w = (w, Ok (g a))) ->
  forall w, mapM f l w = (w, Ok (map g l)).
Proof.
  induction l as [|a l IH]; intros Hf w; [reflexivity|].
  simpl. unfold bind. rewrite (Hf a (or_introl eq_refl)).
  rewrite IH by (intros; apply Hf; right; assumption). reflexivity.
Qed.

Lemma needs_translator_fragment (cache : pystr -> option pystr)
    (text part segment : pystr) :
  In part (Re.split Re.directive (Py.translate maketrans text)) ->
  is_directive part = false ->
  In segment (Py.split COMMA part) ->
  is_english segment = false ->
  cache segment = None ->
  needs_translator cache text = true.
Proof.
  unfold needs_translator. intros Hpart Hd Hseg He Hc.
  apply existsb_exists. exists part. split; [exact Hpart|].
  rewrite Hd. simpl. apply existsb_exists. exists segment.
  split; [exact Hseg|]. rewrite He, Hc. reflexivity.
Qed.

Lemma needs_translator_false (cache : pystr -> option pystr)
    (text part segment : pystr) :
  needs_translator cache text = false ->
  In part (Re.split Re.directive (Py.translate maketrans text)) ->
  is_directive part = false ->
  In segment (Py.split COMMA part) ->
  is_english segment = false ->
  exists cached, cache segment = Some cached.
Proof.
  intros Hn Hpart Hd Hseg He.
  destruct (cache segment) as [cached|] eqn:Hc; [eauto|].
  rewrite (needs_translator_fragment cache text part segment) in Hn;
    [discriminate|assumption..].
Qed.

Lemma needs_translator_true (cache : pystr -> option pystr) (text : pystr) :
  needs_translator cache text = true ->
  exists part segment,
    In part (Re.split Re.directive (Py.translate maketrans text)) /\
    is_directive part = false /\
    In segment (Py.split COMMA part) /\
    is_english segment = false /\ cache segment = None.
Proof.
  unfold needs_translator. intros Hn.
  apply existsb_exists in Hn. destruct Hn as (part & Hpart & Hn).
  apply andb_true_iff in Hn. destruct Hn as [Hd Hn].
  apply existsb_exists in Hn. destruct Hn as (segment & Hseg & Hn).
  apply andb_true_iff in Hn. destruct Hn as [He Hc].
  exists part, segment. repeat split; try assumption.
  - apply negb_true_iff. exact Hd.
  - apply negb_true_iff. exact He.
  - destruct (cache segment); [discriminate|reflexivity].
Qed.

(** When no fragment needs the translator, [process_text] is a pure
    function of the text; the file has to load only if some fragment is
    not [is_english], since [transfer] is not called otherwise. *)
Lemma process_text_pure (cache : pystr -> option pystr) (text : pystr)
    (ln_code : string) (w : world Model) :
  (has_foreign_fragment text = true -> load_csv csv = Ok cache) ->
  needs_translator cache text = false ->
  process_text generate csv text ln_code w
  = (w, Ok (process_text_offline cache text)).
Proof.
  intros Hload Hn. unfold process_text, process_text_offline, bind.
  rewrite (mapM_pure _
             (fun part =>
                if is_directive part then part
                else Py.join [COMMA]
                       (map (resolve_offline cache) (Py.split COMMA part)))).
  - reflexivity.
  - intros part Hpart w'. destruct (is_directive part) eqn:Hd; [reflexivity|].
    unfold bind.
    rewrite (mapM_pure _ (resolve_offline cache)); [reflexivity|].
    intros segment Hseg w''. unfold resolve_offline.
    destruct (is_english segment) eqn:He; [reflexivity|]. simpl.
    destruct (needs_translator_false _ _ _ _ Hn Hpart Hd Hseg He)
      as (r & Hr).
    unfold transfer, custom_translate, bind, lift.
    rewrite Hload, Hr; [reflexivity|].
    apply (needs_translator_fragment _ text part segment);
      [assumption..|reflexivity].
Qed.

(** X3.  Cache precedence: when [translations.csv] loads and every
    fragment that is not [is_english] is in the cache, [process_text]
    returns the text put together from the fragments and their cached
    values, for every language code, supported or not, without calling the
    translator, running the model or touching the prompt object. *)
Theorem process_text_cache_only (cache : pystr -> option pystr)
    (text : pystr) (ln_code : string) (w : world Model) :
  load_csv csv = Ok cache ->
  needs_translator cache text = false ->
  process_text generate csv text ln_code w
  = (w, Ok (process_text_offline cache text)).
Proof. intros Hload. apply process_text_pure. intros _. exact Hload. Qed.

Lemma english_needs_no_translator (cache : pystr -> option pystr)
    (text : pystr) :
  is_english text = true ->
  needs_translator cache text = false /\
  process_text_offline cache text = text.
Proof.
  intros He.
  assert (Hparts : forall part segment,
             In part (Re.split Re.directive text) ->
             In segment (Py.split COMMA part) ->
             is_english segment = true).
  { intros part segment Hpart Hseg.
    apply (is_english_occurs segment part);
      [eapply split_field_occurs; exact Hseg|].
    apply (is_english_occurs part text); [|exact He].
    pose proof (in_concat_occurs part _ Hpart) as Hocc.
    unfold Re.split in Hocc. rewrite pieces_concat in Hocc. exact Hocc. }
  unfold needs_translator, process_text_offline.
  rewrite (translate_english text He). split.
  - apply Bool.not_true_iff_false. intros Hn.
    apply existsb_exists in Hn. destruct Hn as (part & Hpart & Hn).
    apply andb_true_iff in Hn. destruct Hn as [_ Hn].
    apply existsb_exists in Hn. destruct Hn as (segment & Hseg & Hn).
    rewrite (Hparts part segment Hpart Hseg) in Hn. discriminate.
  - transitivity (concat (Re.split Re.directive text));
      [|apply pieces_concat].
    f_equal.
    transitivity (map (fun part : pystr => part) (Re.split Re.directive text));
      [|apply map_id].
    apply map_ext_in. intros part Hpart.
    destruct (is_directive part); [reflexivity|].
    transitivity (Py.join [COMMA] (Py.split COMMA part));
      [|apply join_split].
    f_equal.
    transitivity (map (fun s : pystr => s) (Py.split COMMA part));
      [|apply map_id].
    apply map_ext_in. intros segment Hseg.
    unfold resolve_offline. rewrite (Hparts part segment Hpart Hseg).
    reflexivity.
Qed.

Lemma process_text_english (text : pystr) (ln_code : string)
    (w : world Model) :
  is_english text = true ->
  process_text generate csv text ln_code w = (w, Ok text).
Proof.
  intros He.
  destruct (english_needs_no_translator (fun _ => None) text He) as [Hn Ht].
  rewrite (process_text_pure (fun _ => None) text ln_code w); [|
    unfold has_foreign_fragment; rewrite Hn; discriminate | exact Hn].
  rewrite Ht. reflexivity.
Qed.

(** X4.  Language gate: a prompt whose characters are all ASCII or
    whitespace comes out of [process_text] unchanged, for every language
    code and whatever [translations.csv] holds, missing or unreadable
    included, and the world is left as it is. *)
Theorem process_text_english_unchanged (text : pystr) (ln_code : string)
    (w : world Model) :
  is_english text = true ->
  process_text generate csv text ln_code w = (w, Ok text).
Proof. apply process_text_english. Qed.

(** *** How [process_text] can fail *)

Lemma raises_only_ret ok {A} (a : A) : raises_only ok (ret a : M Model A).
Proof. intros w. exact I. Qed.

Lemma raises_only_bind ok {A B} (m : M Model A) (k : A -> M Model B) :
  raises_only ok m ->
  (forall a, raises_only ok (k a)) ->
  raises_only ok (bind m k).
Proof.
  intros Hm Hk w. unfold bind. specialize (Hm w).
  destruct (m w) as [w1 [a|e]]; simpl in *; [apply Hk | exact Hm].
Qed.

Lemma raises_only_mapM ok {A B} (f : A -> M Model B) (l : list A) :
  (forall a, raises_only ok (f a)) ->
  raises_only ok (mapM f l).
Proof.
  intros Hf. induction l as [|a l IH]; simpl; [apply raises_only_ret|].
  apply raises_only_bind; [apply Hf|]. intros b.
  apply raises_only_bind; [exact IH|]. intros bs. apply raises_only_ret.
Qed.

Lemma raises_only_transfer ln text :
  raises_only (transfer_failure (load_csv csv) ln)
    (transfer generate csv text ln).
Proof.
  unfold transfer, custom_translate, transfer_failure.
  destruct (load_csv csv) as [cache|e0]; [|intros w; reflexivity].
  intros w. unfold bind, lift.
  destruct (cache text); [exact I|].
  unfold translate.
  destruct (supported ln) eqn:Hs; simpl.
  - destruct (generate (model w) text ln "en_XX"). exact I.
  - split; reflexivity.
Qed.

Lemma raises_only_process_text ln text :
  raises_only (transfer_failure (load_csv csv) ln)
    (process_text generate csv text ln).
Proof.
  unfold process_text.
  apply raises_only_bind; [|intros; apply raises_only_ret].
  apply raises_only_mapM. intros part.
  destruct (is_directive part); [apply raises_only_ret|].
  apply raises_only_bind; [|intros; apply raises_only_ret].
  apply raises_only_mapM. intros segment.
  destruct (negb (is_english segment));
    [apply raises_only_transfer|apply raises_only_ret].
Qed.

Lemma mapM_ok_all {A B} (f : A -> M Model B) (l : list A) w w' outs a :
  mapM f l w = (w', Ok outs) -> In a l ->
  exists w1 w2 b, f a w1 = (w2, Ok b).
Proof.
  intros Hm Hin. apply mapM_ok in Hm.
  destruct (Forall2_in_left _ _ _ _ Hm Hin) as (b & _ & w1 & w2 & Hf).
  eauto.
Qed.

(** If [process_text] returns, every fragment that is not [is_english] went
    through [transfer]. *)
Lemma process_text_ok_transfer (text : pystr) (ln_code : string)
    (w w' : world Model) (out part segment : pystr) :
  process_text generate csv text ln_code w = (w', Ok out) ->
  In part (Re.split Re.directive (Py.translate maketrans text)) ->
  is_directive part = false ->
  In segment (Py.split COMMA part) ->
  is_english segment = false ->
  exists w1 w2 b, transfer generate csv segment ln_code w1 = (w2, Ok b).
Proof.
  intros Hrun Hpart Hd Hseg He.
  unfold process_text, bind in Hrun.
  match type of Hrun with
  | context [mapM ?f ?l w] =>
      destruct (mapM f l w) as [w1 [outs|e]] eqn:Hm; [|discriminate]
  end.
  destruct (mapM_ok_all _ _ _ _ _ _ Hm Hpart) as (w2 & w3 & b & Hf).
  rewrite Hd in Hf. unfold bind in Hf.
  match type of Hf with
  | context [mapM ?f ?l w2] =>
      destruct (mapM f l w2) as [w4 [segs|e]] eqn:Hm2; [|discriminate]
  end.
  destruct (mapM_ok_all _ _ _ _ _ _ Hm2 Hseg) as (w5 & w6 & c & Hg).
  rewrite He in Hg. simpl in Hg. eauto.
Qed.

(** X5.  How [process_text] fails.  If [translations.csv] does not load,
    [process_text] fails exactly when some fragment is not [is_english],
    and then with the exception of [load_csv].  If it loads, [process_text]
    fails exactly when the language code is not supported and some
    fragment needs the translator, and then with [ValueError]. *)
Theorem process_text_failure (text : pystr) (ln_code : string)
    (w : world Model) :
  match load_csv csv, snd (process_text generate csv text ln_code w) with
  | Ok cache, Ok _ =>
      supported ln_code = true \/ needs_translator cache text = false
  | Ok cache, Raise e =>
      e = ValueError /\ supported ln_code = false /\
      needs_translator cache text = true
  | Raise _, Ok _ => has_foreign_fragment text = false
  | Raise e0, Raise e => e = e0 /\ has_foreign_fragment text = true
  end.
Proof.
  pose proof (raises_only_process_text ln_code text w) as Hfail.
  unfold transfer_failure in Hfail.
  destruct (load_csv csv) as [cache|e0] eqn:Hload.
  - destruct (needs_translator cache text) eqn:Hn.
    + destruct (process_text generate csv text ln_code w)
        as [w' [out|e]] eqn:Hrun; simpl in *.
      * destruct (supported ln_code) eqn:Hs; [left; reflexivity|]. exfalso.
        apply needs_translator_true in Hn.
        destruct Hn as (part & segment & Hpart & Hd & Hseg & He & Hc).
        destruct (process_text_ok_transfer _ _ _ _ _ _ _ Hrun Hpart Hd Hseg
                    He) as (w1 & w2 & b & Hg).
        unfold transfer, custom_translate, bind, lift in Hg.
        rewrite Hload, Hc in Hg.
        unfold translate in Hg. rewrite Hs in Hg. simpl in Hg. discriminate.
      * destruct Hfail as [-> Hs]. auto.
    + rewrite (process_text_pure cache text ln_code w (fun _ => Hload) Hn).
      simpl. right. reflexivity.
  - destruct (has_foreign_fragment text) eqn:Hn.
    + destruct (process_text generate csv text ln_code w)
        as [w' [out|e]] eqn:Hrun; simpl in *; [exfalso|auto].
      apply needs_translator_true in Hn.
      destruct Hn as (part & segment & Hpart & Hd & Hseg & He & _).
      destruct (process_text_ok_transfer _ _ _ _ _ _ _ Hrun Hpart Hd Hseg
                  He) as (w1 & w2 & b & Hg).
      unfold transfer, bind, lift in Hg. rewrite Hload in Hg. discriminate.
    + rewrite (process_text_pure (fun _ => None) text ln_code w);
        [reflexivity | rewrite Hn; discriminate | exact Hn].
Qed.


End Offline.

(** ** Indexing *)

Lemma getitem_nonneg {A} (l : list A) (i : Z) (x : A) :
  0 <= i -> nth_error l (Z.to_nat i) = Some x -> Py.getitem l i = Ok x.
Proof.
  intros Hi Hn. unfold Py.getitem.
  destruct (i <? 0) eqn:Hneg; [apply Z.ltb_lt in Hneg; lia|].
  rewrite Hneg, Hn. reflexivity.
Qed.

Lemma getitem_wrap {A} (l : list A) (q : nat) (x : A) :
  nth_error l q = Some x -> Py.getitem l (Z.of_nat q - Py.len l) = Ok x.
Proof.
  intros Hn. unfold Py.getitem, Py.len.
  assert (Hq : (q < length l)%nat) by (apply nth_error_Some; congruence).
  destruct (Z.of_nat q - Z.of_nat (length l) <? 0) eqn:Hneg;
    [|apply Z.ltb_ge in Hneg; lia].
  replace (Z.of_nat q - Z.of_nat (length l) + Z.of_nat (length l))
    with (Z.of_nat q) by lia.
  destruct (Z.of_nat q <? 0) eqn:Hq0; [apply Z.ltb_lt in Hq0; lia|].
  rewrite Nat2Z.id, Hn. reflexivity.
Qed.

Lemma getitem_raise {A} (l : list A) (i : Z) (e : exn) :
  Py.getitem l i = Raise e -> e = IndexError.
Proof.
  unfold Py.getitem.
  destruct ((if i <? 0 then i + Py.len l else i) <? 0); [congruence|].
  destruct (nth_error l _); [discriminate | congruence].
Qed.

Lemma getitem_app_mid {A} (a h b : list A) (k : nat) (x : A) :
  nth_error h k = Some x ->
  Py.getitem (a ++ h ++ b) (Py.len a + Z.of_nat k) = Ok x.
Proof.
  intros Hn. apply getitem_nonneg; [unfold Py.len; lia|].
  unfold Py.len. rewrite <- Nat2Z.inj_add, Nat2Z.id.
  rewrite nth_error_app2 by lia.
  replace (length a + k - length a)%nat with k by lia.
  rewrite nth_error_app1 by (apply nth_error_Some; congruence).
  exact Hn.
Qed.

Lemma getitem_in_range {A} (l : list A) (j : Z) :
  - Py.len l <= j < Py.len l -> exists x, Py.getitem l j = Ok x.
Proof.
  intros Hj. unfold Py.getitem, Py.len in *.
  destruct (j <? 0) eqn:Hneg.
  - apply Z.ltb_lt in Hneg.
    destruct (j + Z.of_nat (length l) <? 0) eqn:Hn2;
      [apply Z.ltb_lt in Hn2; lia|].
    destruct (nth_error l (Z.to_nat (j + Z.of_nat (length l)))) eqn:Hn;
      [eauto|].
    apply nth_error_None in Hn. lia.
  - rewrite Hneg.
    apply Z.ltb_ge in Hneg.
    destruct (nth_error l (Z.to_nat j)) eqn:Hn; [eauto|].
    apply nth_error_None in Hn. lia.
Qed.

(** ** The backward scan *)

Lemma while_plus_step (text : pystr) (fuel : nat) (j : Z) (c : char) :
  Py.getitem text j = Ok c ->
  (Z.to_nat (j + Py.len text + 1) <= fuel)%nat ->
  while_plus text fuel j
  = if N.eqb c PLUS
    then while_plus text (Nat.pred fuel) (j - 1)
    else Ok j.
Proof.
  intros Hget Hfuel. pose proof (getitem_ok_range _ _ _ Hget) as Hr.
  destruct fuel as [|fuel]; [lia|].
  simpl. rewrite Hget. reflexivity.
Qed.

(** From the last [+] of a run that does not start the text, the scan
    stops on the character before the run. *)
Lemma while_plus_run (a' : pystr) (c : char) (h b : pystr) (fuel : nat) :
  c <> PLUS ->
  Forall (fun x => x = PLUS) h ->
  let text := (a' ++ [c]) ++ h ++ b in
  (Z.to_nat (Py.len (a' ++ [c]) + Py.len h + Py.len text) <= fuel)%nat ->
  while_plus text fuel (Py.len (a' ++ [c]) + Py.len h - 1)
  = Ok (Py.len (a' ++ [c]) - 1).
Proof.
  intros Hc Hh text. revert fuel.
  assert (Hstop : Py.getitem text (Py.len (a' ++ [c]) - 1) = Ok c).
  { apply getitem_nonneg.
    - unfold Py.len. rewrite length_app. simpl. lia.
    - unfold text, Py.len. rewrite length_app. simpl.
      replace (Z.to_nat (Z.of_nat (length a' + 1) - 1)) with (length a')
        by lia.
      rewrite <- !app_assoc. rewrite nth_error_app2 by lia.
      rewrite Nat.sub_diag. reflexivity. }
  assert (Hall : forall k fuel,
             (k <= length h)%nat ->
             (Z.to_nat (Py.len (a' ++ [c]) + Z.of_nat k + Py.len text)
              <= fuel)%nat ->
             while_plus text fuel (Py.len (a' ++ [c]) + Z.of_nat k - 1)
             = Ok (Py.len (a' ++ [c]) - 1)).
  { induction k as [|k IH]; intros fuel Hk Hfuel.
    - rewrite Z.add_0_r.
      rewrite (while_plus_step _ _ _ _ Hstop) by (unfold Py.len in *; lia).
      destruct (N.eqb c PLUS) eqn:Hcp; [|reflexivity].
      apply N.eqb_eq in Hcp. contradiction.
    - assert (Hget : Py.getitem text
                       (Py.len (a' ++ [c]) + Z.of_nat (S k) - 1) = Ok PLUS).
      { replace (Py.len (a' ++ [c]) + Z.of_nat (S k) - 1)
          with (Py.len (a' ++ [c]) + Z.of_nat k) by lia.
        apply getitem_app_mid.
        destruct (nth_error h k) as [x|] eqn:Hn.
        - rewrite Forall_forall in Hh.
          rewrite (Hh x (nth_error_In _ _ Hn)). reflexivity.
        - apply nth_error_None in Hn. lia. }
      rewrite (while_plus_step _ _ _ _ Hget) by (unfold Py.len in *; lia).
      rewrite N.eqb_refl.
      replace (Py.len (a' ++ [c]) + Z.of_nat (S k) - 1 - 1)
        with (Py.len (a' ++ [c]) + Z.of_nat k - 1) by lia.
      apply IH; [lia | unfold Py.len in *; lia]. }
  intros fuel Hfuel. apply (Hall (length h)); [lia | exact Hfuel].
Qed.

(** On a text made of [+] only, the scan runs off the text. *)
Lemma while_plus_all_plus (text : pystr) (fuel : nat) (j : Z) :
  all_plus text = true -> while_plus text fuel j = Raise IndexError.
Proof.
  intros Hall. revert j. induction fuel as [|fuel IH]; intros j; simpl.
  - destruct (Py.getitem text j) as [c|e] eqn:Hget; simpl.
    + destruct (N.eqb c PLUS) eqn:Hc; [reflexivity|].
      apply getitem_in in Hget. unfold all_plus in Hall.
      rewrite forallb_forall in Hall. rewrite (Hall c Hget) in Hc.
      discriminate.
    + apply getitem_raise in Hget. subst e. reflexivity.
  - destruct (Py.getitem text j) as [c|e] eqn:Hget; simpl.
    + destruct (N.eqb c PLUS) eqn:Hc; [apply IH|].
      apply getitem_in in Hget. unfold all_plus in Hall.
      rewrite forallb_forall in Hall. rewrite (Hall c Hget) in Hc.
      discriminate.
    + apply getitem_raise in Hget. subst e. reflexivity.
Qed.

(** If some character at or below [j], down to [-len(text)], is not [+],
    the scan stops there at the latest. *)
Lemma while_plus_stops (text : pystr) (i : Z) (c : char) :
  Py.getitem text i = Ok c -> c <> PLUS ->
  forall (n : nat) (j : Z) (fuel : nat),
    j = i + Z.of_nat n -> j < Py.len text ->
    (Z.to_nat (j + Py.len text + 1) <= fuel)%nat ->
    exists j', while_plus text fuel j = Ok j' /\ i <= j' <= j.
Proof.
  intros Hget Hc. pose proof (getitem_ok_range _ _ _ Hget) as Hi.
  induction n as [|n IH]; intros j fuel Hj Hlt Hfuel.
  - replace j with i by lia.
    rewrite (while_plus_step _ _ _ _ Hget) by lia.
    destruct (N.eqb c PLUS) eqn:Hcp;
      [apply N.eqb_eq in Hcp; contradiction|].
    exists i. split; [reflexivity | lia].
  - destruct (Py.getitem text j) as [d|e] eqn:Hgj.
    + rewrite (while_plus_step _ _ _ _ Hgj) by lia.
      destruct (N.eqb d PLUS).
      * destruct (IH (j - 1) (Nat.pred fuel)) as (j' & Hw & Hb); try lia.
        exists j'. split; [exact Hw | lia].
      * exists j. split; [reflexivity | lia].
    + destruct (getitem_in_range text j) as (x & Hx); [lia|congruence].
Qed.

(** ** The matches of [\++] *)

Lemma len_app {A} (l l' : list A) : Py.len (l ++ l') = Py.len l + Py.len l'.
Proof. unfold Py.len. rewrite length_app. lia. Qed.

Lemma len_cons {A} (x : A) (l : list A) : Py.len (x :: l) = 1 + Py.len l.
Proof. unfold Py.len. simpl length. lia. Qed.

Lemma len_nonneg {A} (l : list A) : 0 <= Py.len l.
Proof. unfold Py.len. lia. Qed.

Lemma span_len_stop (f : char -> bool) (s : pystr) (x : char) (r : pystr) :
  skipn (Re.span_len f s) s = x :: r -> f x = false.
Proof.
  induction s as [|c s IH]; simpl; [discriminate|].
  destruct (f c) eqn:Hc; simpl; [exact IH|].
  intros [= -> _]. exact Hc.
Qed.

Lemma plus_run_miss (c : char) (rest : pystr) :
  Re.plus_run (c :: rest) = None \/ Re.plus_run (c :: rest) = Some O ->
  c <> PLUS.
Proof.
  intros H Hc. subst c. unfold Re.plus_run in H. simpl in H.
  destruct H as [H|H]; discriminate.
Qed.

Lemma plus_run_hit (c : char) (rest : pystr) (n : nat) :
  Re.plus_run (c :: rest) = Some (S n) ->
  Forall (fun x => x = PLUS) (c :: firstn n rest) /\
  (skipn n rest = [] \/ exists x r, skipn n rest = x :: r /\ x <> PLUS).
Proof.
  unfold Re.plus_run. cbn [Re.span_len].
  destruct (N.eqb PLUS c) eqn:Hc; [|discriminate].
  intros [= <-]. apply N.eqb_eq in Hc. subst c.
  destruct (span_len_split (N.eqb PLUS) rest) as [_ Hall]. split.
  - constructor; [reflexivity|].
    eapply Forall_impl; [|exact Hall].
    intros x Hx. cbv beta in Hx. apply N.eqb_eq in Hx. congruence.
  - destruct (skipn (Re.span_len (N.eqb PLUS) rest) rest) as [|x r] eqn:Hs;
      [left; reflexivity|].
    right. exists x, r. split; [reflexivity|].
    apply span_len_stop in Hs. intros ->. rewrite N.eqb_refl in Hs.
    discriminate.
Qed.

Lemma spans_cons_gap (c : char) (ps : list Re.piece) (pos : Z) :
  (exists g ps', ps = Re.Gap g :: ps') ->
  Re.spans (Re.cons_gap c ps) pos = Re.spans ps (pos + 1).
Proof.
  intros (g & ps' & ->). simpl. rewrite len_cons. f_equal. lia.
Qed.

Lemma runs_from_weaken (text : pystr) (lo lo' : Z) (M : list (Z * Z)) :
  lo <= lo' -> runs_from text lo' M -> runs_from text lo M.
Proof.
  destruct M as [|se M]; [trivial|]. simpl. intros Hlo (H1 & H2 & H3).
  split; [lia|]. split; assumption.
Qed.

Lemma runs_from_forall (text : pystr) (lo : Z) (M : list (Z * Z)) :
  runs_from text lo M ->
  Forall (fun se => is_run text se /\ lo <= fst se) M.
Proof.
  revert lo. induction M as [|se M IH]; intros lo H; [constructor|].
  destruct H as (H1 & H2 & H3). constructor; [split; assumption|].
  apply IH in H3. eapply Forall_impl; [|exact H3].
  intros se' [Hr Hlo]. split; [exact Hr|].
  destruct H2 as (a & h & b & _ & Ha & Hah & Hne & _).
  rewrite len_app in Hah. pose proof (len_nonneg h). lia.
Qed.

Lemma is_run_bounds (text : pystr) (se : Z * Z) :
  is_run text se -> 0 <= fst se < snd se /\ snd se <= Py.len text.
Proof.
  intros (a & h & b & -> & Ha & Hah & Hne & _).
  rewrite !len_app in *. pose proof (len_nonneg a). pose proof (len_nonneg b).
  assert (0 < Py.len h) by (destruct h; [congruence|rewrite len_cons;
                             pose proof (len_nonneg h); lia]).
  lia.
Qed.

(** The matches of [\++] in a text are its maximal runs of [+], left to
    right. *)
Lemma plus_pieces_runs (suf : pystr) :
  forall pre text,
    text = pre ++ suf ->
    (pre = [] \/ (exists a' c, pre = a' ++ [c] /\ c <> PLUS) \/
     suf = [] \/ (exists c r, suf = c :: r /\ c <> PLUS)) ->
    runs_from text (Py.len pre)
      (Re.spans (Re.pieces Re.plus_run suf 0) (Py.len pre)) /\
    ((exists c r, suf = c :: r /\ c <> PLUS) ->
     runs_from text (Py.len pre + 1)
       (Re.spans (Re.pieces Re.plus_run suf 0) (Py.len pre))).
Proof.
  apply (pieces_ind Re.plus_run plus_run_fits
           (fun suf ps =>
              forall pre text,
                text = pre ++ suf ->
                (pre = [] \/ (exists a' c, pre = a' ++ [c] /\ c <> PLUS) \/
                 suf = [] \/ (exists c r, suf = c :: r /\ c <> PLUS)) ->
                runs_from text (Py.len pre) (Re.spans ps (Py.len pre)) /\
                ((exists c r, suf = c :: r /\ c <> PLUS) ->
                 runs_from text (Py.len pre + 1)
                   (Re.spans ps (Py.len pre))))).
  - intros pre text _ _. simpl. auto.
  - intros c rest Hm IH pre text Htext _.
    apply plus_run_miss in Hm.
    rewrite spans_cons_gap by apply pieces_gap_first.
    destruct (IH (pre ++ [c]) text) as [IH1 _].
    + rewrite <- app_assoc. exact Htext.
    + right. left. eauto.
    + rewrite len_app in IH1. change (Py.len [c]) with 1 in IH1.
      split; [|intros _; exact IH1].
      eapply runs_from_weaken; [|exact IH1]. lia.
  - intros c rest n Hm Hn IH pre text Htext Hb.
    destruct (plus_run_hit _ _ _ Hm) as [Hall Hstop].
    assert (Hc : c = PLUS) by (inversion Hall; assumption).
    assert (Hsplit : c :: rest = (c :: firstn n rest) ++ skipn n rest)
      by (simpl; rewrite firstn_skipn; reflexivity).
    split.
    + cbn [Re.spans]. change (Py.len (@nil char)) with 0.
      rewrite Z.add_0_r. cbn [runs_from fst snd].
      split; [lia|]. split.
      * exists pre, (c :: firstn n rest), (skipn n rest).
        cbn [fst snd]. rewrite len_app.
        repeat split; try assumption || reflexivity.
        -- rewrite Htext, Hsplit. reflexivity.
        -- discriminate.
        -- destruct Hb as [Hb|[Hb|[Hb|Hb]]];
             [left; exact Hb|right; exact Hb| |].
           ++ discriminate.
           ++ destruct Hb as (c' & r & [= <- _] & Hne). contradiction.
      * destruct (IH (pre ++ c :: firstn n rest) text) as [IH1 IH2].
        -- rewrite <- app_assoc, Htext, Hsplit. reflexivity.
        -- right. right. destruct Hstop as [Hs|Hs]; [left|right]; exact Hs.
        -- rewrite len_app in IH1, IH2.
           destruct Hstop as [Hs|Hs].
           ++ rewrite Hs. simpl. exact I.
           ++ apply IH2. destruct Hs as (x & r & Hs & Hx). eauto.
    + intros (c' & r & [= <- _] & Hne). contradiction.
Qed.

Lemma finditer_runs (text : pystr) :
  runs_from text 0 (Re.finditer Re.plus_run text).
Proof.
  destruct (plus_pieces_runs text [] text eq_refl) as [H _];
    [left; reflexivity|]. exact H.
Qed.

Lemma finditer_runs_after_first (text : pystr) :
  Py.startswith text PLUS = false ->
  runs_from text 1 (Re.finditer Re.plus_run text).
Proof.
  intros Hs. destruct text as [|c r]; [simpl; exact I|].
  simpl in Hs. apply N.eqb_neq in Hs.
  destruct (plus_pieces_runs (c :: r) [] (c :: r) eq_refl) as [_ H];
    [left; reflexivity|].
  apply H. eauto.
Qed.

(** ** What [extract_plus_positions] reports *)

Lemma append_position_run (text : pystr) (P : list (Z * Z * Z)) (se : Z * Z) :
  is_run text se -> 1 <= fst se ->
  append_position text P (snd se) = Ok (P ++ [position_of se]).
Proof.
  intros (a & h & b & Htext & Ha & Hah & Hne & Hh & Hpre & _) Hs.
  destruct Hpre as [->|(a' & c & -> & Hc)];
    [change (Py.len (@nil char)) with 0 in Ha; lia|].
  unfold append_position. rewrite len_app in Hah.
  pose proof (while_plus_run a' c h b
                (Z.to_nat (snd se - 1 + Py.len text + 1)) Hc Hh) as Hw.
  cbv zeta in Hw. rewrite <- Htext in Hw.
  replace (Py.len (a' ++ [c]) + Py.len h - 1) with (snd se - 1) in Hw by lia.
  rewrite Hw by lia. simpl. unfold position_of.
  replace (Py.len (a' ++ [c]) - 1 + 1) with (fst se) by lia. reflexivity.
Qed.

Lemma extract_loop_runs (text : pystr) (M : list (Z * Z)) :
  forall se0 P,
    is_run text se0 -> 1 <= fst se0 ->
    runs_from text (snd se0 + 1) M ->
    extract_loop text M P (Some (snd se0))
    = Ok (P ++ map position_of (removelast (se0 :: M)),
          Some (snd (last (se0 :: M) (0, 0)))).
Proof.
  induction M as [|[s1 e1] M IH]; intros se0 P Hrun Hs Hchain.
  - simpl. rewrite app_nil_r. reflexivity.
  - destruct Hchain as (Hlo & Hrun1 & Hchain). cbn [fst snd] in *.
    cbn [extract_loop].
    destruct (s1 =? snd se0) eqn:Heq; [apply Z.eqb_eq in Heq; lia|].
    cbn [negb]. rewrite (append_position_run text P se0 Hrun Hs).
    cbn [rbind].
    pose proof (is_run_bounds _ _ Hrun) as Hb0.
    assert (Hs1 : 1 <= fst (s1, e1)) by (cbn [fst]; lia).
    pose proof (IH (s1, e1) (P ++ [position_of se0]) Hrun1 Hs1 Hchain)
      as IH'.
    change (snd (s1, e1)) with e1 in IH' at 1. rewrite IH'.
    rewrite <- app_assoc. reflexivity.
Qed.

Lemma map_removelast {A B} (f : A -> B) (l : list A) :
  map f (removelast l) = removelast (map f l).
Proof.
  induction l as [|a [|b l] IH]; [reflexivity..|].
  change (removelast (a :: b :: l)) with (a :: removelast (b :: l)).
  cbn [map]. change (removelast (f a :: f b :: map f l))
    with (f a :: removelast (f b :: map f l)).
  f_equal. exact IH.
Qed.

Lemma rev_last_head {A} (l : list A) (d : A) :
  l <> [] -> exists tl, rev l = last l d :: tl.
Proof.
  intros Hne. exists (rev (removelast l)).
  transitivity (rev (removelast l ++ [last l d]));
    [f_equal; apply app_removelast_last; exact Hne|].
  rewrite rev_app_distr. reflexivity.
Qed.

Lemma last_map {A B} (f : A -> B) (l : list A) (d : A) :
  last (map f l) (f d) = f (last l d).
Proof.
  induction l as [|a [|b l] IH]; [reflexivity..|]. exact IH.
Qed.

Lemma reported_runs_last (text : pystr) :
  reported_runs text
  = if snd (last (Re.finditer Re.plus_run text) (0, 0)) =? Py.len text
    then map position_of (Re.finditer Re.plus_run text)
    else map position_of (removelast (Re.finditer Re.plus_run text)).
Proof.
  unfold reported_runs, plus_runs.
  change (fun se : Z * Z => (fst se, snd se, snd se - fst se))
    with position_of.
  destruct (Re.finditer Re.plus_run text) as [|se0 M];
    [cbn [last snd map removelast extract_loop rbind];
     destruct (0 =? Py.len text); reflexivity|].
  destruct (rev_last_head (map position_of (se0 :: M))
              (position_of (0, 0))) as (tl & Hrev);
    [discriminate|].
  rewrite Hrev, last_map. unfold position_of at 1.
  rewrite map_removelast. reflexivity.
Qed.

(** On a text that does not start with [+], the scan never wraps around and
    the function reports the runs of [reported_runs]. *)
Lemma extract_plus_positions_reported (text : pystr) :
  Py.startswith text PLUS = false ->
  extract_plus_positions text = Ok (reported_runs text).
Proof.
  intros Hstart. pose proof (finditer_runs_after_first text Hstart) as Hruns.
  rewrite reported_runs_last. unfold extract_plus_positions.
  destruct (Re.finditer Re.plus_run text) as [|se0 M] eqn:HM;
    [cbn [last snd map removelast extract_loop rbind];
     destruct (0 =? Py.len text); reflexivity|].
  destruct Hruns as (Hlo & Hrun & Hchain).
  cbn [extract_loop]. destruct se0 as [s0 e0]. cbn [rbind].
  change e0 with (snd (s0, e0)) at 1.
  rewrite (extract_loop_runs text M (s0, e0) [] Hrun Hlo Hchain).
  cbn [rbind app].
  assert (Hne : (s0, e0) :: M <> []) by discriminate.
  set (lst := last ((s0, e0) :: M) (0, 0)).
  destruct (snd lst =? Py.len text) eqn:Hend; [|reflexivity].
  assert (Hin : In lst ((s0, e0) :: M)).
  { pose proof (app_removelast_last (0, 0) Hne) as Hl.
    fold lst in Hl. rewrite Hl.
    apply in_or_app. right. left. reflexivity. }
  assert (Hall : Forall (fun se => is_run text se /\ 1 <= fst se)
                   ((s0, e0) :: M)).
  { apply runs_from_forall. simpl. auto. }
  rewrite Forall_forall in Hall. destruct (Hall lst Hin) as [Hr Hl].
  rewrite (append_position_run text _ lst Hr Hl).
  f_equal.
  transitivity (map position_of (removelast ((s0, e0) :: M) ++ [lst]));
    [rewrite map_app; reflexivity|].
  f_equal. symmetry. apply app_removelast_last. exact Hne.
Qed.

(** X7.  On a text that does not start with [+],
    [extract_plus_positions] returns without error, and what it returns
    are the maximal runs of [+] of the text, in order, as
    [(start, end, end - start)], except that the last run is left out when
    it does not end the text. *)
Theorem extract_plus_positions_without_leading_plus (text : pystr) :
  Py.startswith text PLUS = false ->
  extract_plus_positions text = Ok (reported_runs text) /\
  runs_from text 1 (Re.finditer Re.plus_run text).
Proof.
  intros Hstart. split.
  - apply extract_plus_positions_reported. exact Hstart.
  - apply finditer_runs_after_first. exact Hstart.
Qed.

(** *** When the scan runs off the text *)

Lemma all_plus_false (text : pystr) :
  all_plus text = false -> exists q c, nth_error text q = Some c /\ c <> PLUS.
Proof.
  unfold all_plus. induction text as [|c r IH]; simpl; [discriminate|].
  destruct (N.eqb c PLUS) eqn:Hc; simpl.
  - intros H. destruct (IH H) as (q & d & Hq & Hd). exists (S q), d. auto.
  - intros _. exists O, c. split; [reflexivity|].
    apply N.eqb_neq. exact Hc.
Qed.

Lemma append_position_ok (text : pystr) (P : list (Z * Z * Z)) (e : Z) :
  all_plus text = false -> 1 <= e <= Py.len text ->
  exists P', append_position text P e = Ok P'.
Proof.
  intros Hall He. destruct (all_plus_false text Hall) as (q & c & Hq & Hc).
  assert (Hlt : (q < length text)%nat) by (apply nth_error_Some; congruence).
  unfold append_position.
  destruct (while_plus_stops text (Z.of_nat q - Py.len text) c
              (getitem_wrap _ _ _ Hq) Hc
              (Z.to_nat (e - 1 - (Z.of_nat q - Py.len text))) (e - 1)
              (Z.to_nat (e - 1 + Py.len text + 1)))
    as (j' & Hw & _); try (unfold Py.len in *; lia).
  rewrite Hw. simpl. eauto.
Qed.

Lemma extract_loop_ok (text : pystr) (M : list (Z * Z)) :
  all_plus text = false ->
  Forall (fun se => 1 <= snd se <= Py.len text) M ->
  forall P last_end,
    match last_end with
    | Some e => 1 <= e <= Py.len text
    | None => True
    end ->
    exists P' last_end',
      extract_loop text M P last_end = Ok (P', last_end') /\
      match last_end' with
      | Some e => 1 <= e <= Py.len text
      | None => True
      end.
Proof.
  intros Hall. induction M as [|[s e] M IH]; intros HM P last_end Hlast.
  - simpl. eauto.
  - inversion HM as [|? ? He HM']; subst. cbn [snd] in He.
    cbn [extract_loop].
    assert (Hfirst : exists P1,
               match last_end with
               | Some e0 =>
                   if negb (s =? e0) then append_position text P e0
                   else Ok P
               | None => Ok P
               end = Ok P1).
    { destruct last_end as [e0|]; [|eauto].
      destruct (negb (s =? e0)); [|eauto].
      apply append_position_ok; assumption. }
    destruct Hfirst as (P1 & ->). cbn [rbind].
    apply IH; assumption.
Qed.

Lemma finditer_bounds (text : pystr) :
  Forall (fun se => 1 <= snd se <= Py.len text) (Re.finditer Re.plus_run text).
Proof.
  pose proof (runs_from_forall _ _ _ (finditer_runs text)) as H.
  eapply Forall_impl; [|exact H].
  intros se [Hr _]. apply is_run_bounds in Hr. lia.
Qed.

Lemma all_plus_span_len (text : pystr) :
  all_plus text = true -> Re.span_len (N.eqb PLUS) text = length text.
Proof.
  unfold all_plus. induction text as [|c r IH]; [reflexivity|].
  cbn [forallb Re.span_len]. intros H.
  apply andb_true_iff in H. destruct H as [Hc Hr].
  apply N.eqb_eq in Hc. subst c. rewrite N.eqb_refl, (IH Hr). reflexivity.
Qed.

Lemma finditer_only_plus (text : pystr) :
  only_plus text = true ->
  Re.finditer Re.plus_run text = [(0, Py.len text)].
Proof.
  destruct text as [|c r]; [discriminate|]. cbn [only_plus]. intros Hall.
  unfold Re.finditer.
  assert (Hm : Re.plus_run (c :: r) = Some (S (length r))).
  { unfold Re.plus_run. rewrite (all_plus_span_len _ Hall). reflexivity. }
  rewrite (pieces_hit Re.plus_run plus_run_fits c r (length r) Hm).
  rewrite firstn_all, skipn_all. reflexivity.
Qed.

Lemma extract_plus_positions_outcome (text : pystr) :
  match extract_plus_positions text with
  | Ok _ => only_plus text = false
  | Raise e => e = IndexError /\ only_plus text = true
  end.
Proof.
  destruct (only_plus text) eqn:Honly.
  - unfold extract_plus_positions.
    rewrite (finditer_only_plus text Honly).
    cbn [extract_loop rbind]. rewrite Z.eqb_refl.
    unfold append_position.
    destruct text as [|c r]; [discriminate|]. cbn [only_plus] in Honly.
    rewrite (while_plus_all_plus _ _ _ Honly). simpl. auto.
  - unfold extract_plus_positions.
    destruct text as [|c r]; [reflexivity|]. cbn [only_plus] in Honly.
    destruct (extract_loop_ok (c :: r) (Re.finditer Re.plus_run (c :: r))
                Honly (finditer_bounds _) [] None I)
      as (P' & last_end' & -> & Hlast).
    cbn [rbind]. destruct last_end' as [e|]; [|reflexivity].
    destruct (e =? Py.len (c :: r)); [|reflexivity].
    destruct (append_position_ok (c :: r) P' e Honly Hlast) as (P'' & ->).
    reflexivity.
Qed.

(** X8.  [extract_plus_positions] raises exactly on the non-empty texts
    made of [+] only, and what it raises is [IndexError]; on every other
    text it returns a list. *)
Theorem extract_plus_positions_raises_iff_only_plus (text : pystr) :
  match extract_plus_positions text with
  | Ok _ => only_plus text = false
  | Raise e => e = IndexError /\ only_plus text = true
  end.
Proof. apply extract_plus_positions_outcome. Qed.

(** ** Post-processing *)

Lemma tighten_from_no_close (s : pystr) :
  ~ In RPAREN s -> tighten_from false s = s.
Proof.
  induction s as [|c r IH]; [reflexivity|]. intros Hno.
  cbn [tighten_from andb].
  destruct (N.eqb c RPAREN) eqn:Hc.
  - apply N.eqb_eq in Hc. subst c. exfalso. apply Hno. left. reflexivity.
  - f_equal. apply IH. intros H. apply Hno. right. exact H.
Qed.

Lemma tighten_keeps_close (s : pystr) :
  In RPAREN s -> In RPAREN (remove_unnecessary_spaces s).
Proof.
  intros Hin.
  assert (Hf : In RPAREN (filter (fun c => negb (Py.isspace c)) s))
    by (apply filter_In; split; [exact Hin | reflexivity]).
  rewrite remove_unnecessary_spaces_refines.
  unfold tighten_spec.
  rewrite <- (tighten_from_keeps_nonspace false s) in Hf.
  apply filter_In in Hf. apply Hf.
Qed.

Lemma only_plus_no_close (s : pystr) :
  In RPAREN s -> only_plus s = false.
Proof.
  intros Hin. destruct s as [|c r]; [reflexivity|]. cbn [only_plus].
  apply Bool.not_true_iff_false. intros Hall. unfold all_plus in Hall.
  rewrite forallb_forall in Hall. specialize (Hall _ Hin). discriminate.
Qed.

Lemma only_plus_tighten (s : pystr) :
  only_plus (remove_unnecessary_spaces s) = only_plus s.
Proof.
  destruct (in_dec N.eq_dec RPAREN s) as [Hin|Hno].
  - rewrite (only_plus_no_close s Hin).
    apply only_plus_no_close, tighten_keeps_close, Hin.
  - rewrite remove_unnecessary_spaces_refines. unfold tighten_spec.
    rewrite (tighten_from_no_close s Hno). reflexivity.
Qed.

Lemma match_pluses_outcome (original translated : pystr) :
  match match_pluses original translated with
  | Ok _ => only_plus original || only_plus translated = false
  | Raise e =>
      e = IndexError /\ only_plus original || only_plus translated = true
  end.
Proof.
  unfold match_pluses.
  pose proof (extract_plus_positions_outcome original) as Ho.
  pose proof (extract_plus_positions_outcome translated) as Ht.
  destruct (extract_plus_positions original) as [ins|e]; cbn [rbind].
  - rewrite Ho. cbn [orb].
    destruct (extract_plus_positions translated) as [outs|e]; cbn [rbind].
    + destruct (if Nat.eqb (length ins) (length outs)
                then match_loop original translated (combine ins outs) [] 0
                else ([], 0)) as [vals pos].
      exact Ht.
    + exact Ht.
  - destruct Ho as [-> ->]. auto.
Qed.

Lemma post_process_prompt_outcome
    (original translated : pystr) :
  match post_process_prompt original translated with
  | Ok _ => only_plus original || only_plus translated = false
  | Raise e =>
      e = IndexError /\ only_plus original || only_plus translated = true
  end.
Proof.
  unfold post_process_prompt.
  pose proof (match_pluses_outcome original
                (remove_unnecessary_spaces translated)) as H.
  rewrite only_plus_tighten in H. exact H.
Qed.

(** X9.  [post_process_prompt] fails exactly when the original or the
    translated text is a non-empty string of [+] only, and then with
    [IndexError]; in every other case it returns a text. *)
Theorem post_process_prompt_raises_iff_only_plus
    (original translated : pystr) :
  match post_process_prompt original translated with
  | Ok _ => only_plus original || only_plus translated = false
  | Raise e =>
      e = IndexError /\ only_plus original || only_plus translated = true
  end.
Proof. apply post_process_prompt_outcome. Qed.

Lemma no_plus_pieces (s : pystr) :
  ~ In PLUS s -> Re.pieces Re.plus_run s 0 = [Re.Gap s].
Proof.
  induction s as [|c r IH]; [reflexivity|]. intros Hno.
  assert (Hc : N.eqb PLUS c = false).
  { apply N.eqb_neq. intros H. apply Hno. left. symmetry. exact H. }
  rewrite (pieces_miss Re.plus_run c r)
    by (left; unfold Re.plus_run; cbn [Re.span_len]; rewrite Hc;
        reflexivity).
  rewrite IH by (intros H; apply Hno; right; exact H). reflexivity.
Qed.

Lemma no_plus_extract (s : pystr) :
  ~ In PLUS s -> extract_plus_positions s = Ok [].
Proof.
  intros Hno. unfold extract_plus_positions, Re.finditer.
  rewrite (no_plus_pieces s Hno). reflexivity.
Qed.

(** X10.  When the original prompt holds no [+], post-processing adds and
    removes no [+]: the result is the translated text with its whitespace
    tightened, whatever runs of [+] the translation holds; the only
    failure left is a translation made of [+] only. *)
Theorem post_process_prompt_without_weights (original translated : pystr) :
  ~ In PLUS original ->
  match post_process_prompt original translated with
  | Ok out => out = remove_unnecessary_spaces translated
  | Raise e => e = IndexError /\ only_plus translated = true
  end.
Proof.
  intros Hno.
  assert (Ho : only_plus original = false).
  { destruct original as [|c r]; [reflexivity|]. cbn [only_plus].
    apply Bool.not_true_iff_false. intros Hall. apply Hno.
    unfold all_plus in Hall. cbn [forallb] in Hall.
    apply andb_true_iff in Hall. destruct Hall as [Hc _].
    apply N.eqb_eq in Hc. left. exact Hc. }
  pose proof (post_process_prompt_outcome original
                translated) as Hout.
  unfold post_process_prompt in *. unfold match_pluses in *.
  rewrite (no_plus_extract original Hno) in *. cbn [rbind] in *.
  destruct (extract_plus_positions (remove_unnecessary_spaces translated))
    as [outs|e]; cbn [rbind] in *.
  - assert (Hloop : (if Nat.eqb (length (@nil (Z * Z * Z))) (length outs)
                     then match_loop original
                            (remove_unnecessary_spaces translated)
                            (combine [] outs) [] 0
                     else ([], 0)) = ([], 0))
      by (destruct (Nat.eqb _ _); reflexivity).
    rewrite Hloop. cbn [app concat].
    rewrite app_nil_r. apply slice_from_zero.
  - rewrite Ho in Hout. exact Hout.
Qed.

(** ** Reconciling a text with itself *)

Lemma clamp_inside (n i : Z) : 0 <= i <= n -> Py.clamp n i = i.
Proof.
  intros Hi. unfold Py.clamp.
  destruct (i <? 0) eqn:Hneg; [apply Z.ltb_lt in Hneg; lia|]. lia.
Qed.

Lemma slice_from_skipn {A} (l : list A) (a : Z) :
  0 <= a <= Py.len l -> Py.slice_from l a = skipn (Z.to_nat a) l.
Proof.
  intros Ha. unfold Py.slice_from, Py.slice.
  rewrite (clamp_inside _ a Ha).
  rewrite (clamp_inside _ (Py.len l)) by (pose proof (len_nonneg l); lia).
  apply firstn_all2. rewrite length_skipn. unfold Py.len in *. lia.
Qed.

Lemma slice_join {A} (l : list A) (a b : Z) :
  0 <= a <= b -> b <= Py.len l ->
  Py.slice l a b ++ Py.slice_from l b = Py.slice_from l a.
Proof.
  intros Hab Hb.
  rewrite !slice_from_skipn by lia. unfold Py.slice.
  rewrite !clamp_inside by lia.
  rewrite <- (firstn_skipn (Z.to_nat (b - a)) (skipn (Z.to_nat a) l)) at 2.
  f_equal. rewrite skipn_skipn. f_equal. lia.
Qed.

Lemma cuts_weaken (n lo lo' : Z) (M : list (Z * Z)) :
  lo <= lo' -> cuts n lo' M -> cuts n lo M.
Proof.
  destruct M as [|se M]; [trivial|]. simpl. intros Hlo (H1 & H2 & H3).
  split; [lia|]. split; assumption.
Qed.

Lemma runs_from_cuts (text : pystr) (M : list (Z * Z)) :
  forall lo, runs_from text lo M -> cuts (Py.len text) lo M.
Proof.
  induction M as [|se M IH]; intros lo H; [exact I|].
  destruct H as (Hlo & Hrun & Hrest). apply is_run_bounds in Hrun.
  simpl. split; [lia|]. split; [lia|].
  apply (cuts_weaken _ _ (snd se + 1)); [lia|]. apply IH. exact Hrest.
Qed.

Lemma cuts_removelast (n : Z) (M : list (Z * Z)) :
  forall lo, cuts n lo M -> cuts n lo (removelast M).
Proof.
  induction M as [|se [|se' M] IH]; intros lo H; [exact I..|].
  change (removelast (se :: se' :: M)) with (se :: removelast (se' :: M)).
  destruct H as (H1 & H2 & H3). simpl. split; [exact H1|].
  split; [exact H2|]. apply IH. exact H3.
Qed.

Lemma match_loop_self (t : pystr) (M : list (Z * Z)) :
  forall acc pos,
    0 <= pos -> cuts (Py.len t) pos M ->
    concat (fst (match_loop t t
                   (combine (map position_of M) (map position_of M))
                   acc pos))
    ++ Py.slice_from t
         (snd (match_loop t t
                 (combine (map position_of M) (map position_of M))
                 acc pos))
    = concat acc ++ Py.slice_from t pos.
Proof.
  induction M as [|[s e] M IH]; intros acc pos Hpos Hcuts; [reflexivity|].
  destruct Hcuts as (Hs & He & Hrest). cbn [fst snd] in *.
  cbn [map combine position_of match_loop fst snd].
  rewrite IH by (assumption || lia).
  rewrite !concat_app. cbn [concat]. rewrite !app_nil_r, <- !app_assoc.
  f_equal. rewrite (slice_join t s e) by lia.
  apply slice_join; lia.
Qed.

(** X11.  Reconciling a text with itself changes nothing: for every text
    that does not start with [+], [match_pluses text text] returns
    [text]. *)
Theorem match_pluses_self (text : pystr) :
  Py.startswith text PLUS = false ->
  match_pluses text text = Ok text.
Proof.
  intros Hstart. unfold match_pluses.
  rewrite (extract_plus_positions_reported text Hstart). cbn [rbind].
  rewrite Nat.eqb_refl, reported_runs_last.
  pose proof (runs_from_cuts text _ 0
                (runs_from_weaken text 0 1 _ ltac:(lia)
                   (finditer_runs_after_first text Hstart))) as Hcuts.
  assert (Hsome : exists M,
             cuts (Py.len text) 0 M /\
             (if snd (last (Re.finditer Re.plus_run text) (0, 0))
                 =? Py.len text
              then map position_of (Re.finditer Re.plus_run text)
              else map position_of
                     (removelast (Re.finditer Re.plus_run text)))
             = map position_of M).
  { destruct (snd (last (Re.finditer Re.plus_run text) (0, 0))
              =? Py.len text).
    - eauto.
    - exists (removelast (Re.finditer Re.plus_run text)).
      split; [apply cuts_removelast; exact Hcuts | reflexivity]. }
  destruct Hsome as (M & HM & ->).
  pose proof (match_loop_self text M [] 0 ltac:(lia) HM) as Hloop.
  destruct (match_loop text text
              (combine (map position_of M) (map position_of M)) [] 0)
    as [vals pos].
  cbn [fst snd] in Hloop. rewrite concat_app. cbn [concat].
  rewrite app_nil_r, Hloop. cbn [concat app]. f_equal.
  apply slice_from_zero.
Qed.

(** ** The segmentation and the punctuation mapping *)

Lemma cons_hit_map (f : char -> char) (c : char) (ps : list Re.piece) :
  Re.cons_hit (f c) (map (map_piece f) ps)
  = map (map_piece f) (Re.cons_hit c ps).
Proof. destruct ps as [|[g|h] ps]; reflexivity. Qed.

Lemma cons_gap_map (f : char -> char) (c : char) (ps : list Re.piece) :
  Re.cons_gap (f c) (map (map_piece f) ps)
  = map (map_piece f) (Re.cons_gap c ps).
Proof. destruct ps as [|[g|h] ps]; reflexivity. Qed.

Section Relabel.

(** A relabelling of characters that neither makes nor unmakes a [<] or
    a [>]. *)
Variable f : char -> char.
Hypothesis f_lt : forall c, N.eqb (f c) LT = N.eqb c LT.
Hypothesis f_gt : forall c, N.eqb (f c) GT = N.eqb c GT.

Lemma span_len_not_gt_map (s : pystr) :
  Re.span_len (fun x : char => negb (N.eqb x GT)) (map f s)
  = Re.span_len (fun x : char => negb (N.eqb x GT)) s.
Proof.
  induction s as [|c r IH]; [reflexivity|].
  cbn [map Re.span_len]. rewrite f_gt, IH. reflexivity.
Qed.

Lemma directive_map (s : pystr) :
  Re.directive (map f s) = Re.directive s.
Proof.
  destruct s as [|c r]; [reflexivity|].
  cbn [map]. unfold Re.directive. rewrite f_lt.
  destruct (N.eqb c LT); [|reflexivity].
  rewrite span_len_not_gt_map, skipn_map.
  destruct (skipn _ r); reflexivity.
Qed.

Lemma pieces_directive_map (text : pystr) :
  forall skip,
    Re.pieces Re.directive (map f text) skip
    = map (map_piece f) (Re.pieces Re.directive text skip).
Proof.
  induction text as [|c rest IH]; intros skip; [reflexivity|].
  cbn [map Re.pieces]. destruct skip as [|k].
  - change (f c :: map f rest) with (map f (c :: rest)).
    rewrite directive_map.
    destruct (Re.directive (c :: rest)) as [[|n]|].
    + rewrite IH. apply cons_gap_map.
    + rewrite IH. cbn [map map_piece]. f_equal. apply cons_hit_map.
    + rewrite IH. apply cons_gap_map.
  - rewrite IH. apply cons_hit_map.
Qed.

Lemma directive_spans_map (text : pystr) :
  directive_spans (map f text) = map (map f) (directive_spans text).
Proof.
  unfold directive_spans. rewrite pieces_directive_map.
  induction (Re.pieces Re.directive text 0) as [|[g|h] ps IH];
    [reflexivity| |]; cbn [map flat_map map_piece app]; rewrite IH;
    reflexivity.
Qed.

End Relabel.

Lemma normalize_char_lt (c : char) :
  N.eqb (normalize_char c) LT = N.eqb c LT.
Proof.
  destruct (normalize_char_cases c) as [->|H]; [reflexivity|].
  destruct H as (_ & _ & _ & H1 & _ & _ & H2 & _).
  apply N.eqb_neq in H1, H2. congruence.
Qed.

Lemma normalize_char_gt (c : char) :
  N.eqb (normalize_char c) GT = N.eqb c GT.
Proof.
  destruct (normalize_char_cases c) as [->|H]; [reflexivity|].
  destruct H as (_ & _ & _ & _ & H1 & _ & _ & H2 & _).
  apply N.eqb_neq in H1, H2. congruence.
Qed.

Lemma directive_spans_shape (text d : pystr) :
  In d (directive_spans text) -> span_shape d.
Proof.
  unfold directive_spans. intros Hin.
  apply in_flat_map in Hin. destruct Hin as (pc & Hpc & Hd).
  pose proof (directive_pieces_ok text) as Hok.
  rewrite Forall_forall in Hok. specialize (Hok pc Hpc).
  destruct pc as [g|h]; [destruct Hd|].
  destruct Hd as [<-|[]]. exact Hok.
Qed.

Lemma directive_spans_translate (text : pystr) :
  directive_spans (Py.translate maketrans text)
  = map (Py.translate maketrans) (directive_spans text).
Proof.
  rewrite translate_maketrans_map.
  rewrite (directive_spans_map normalize_char normalize_char_lt
             normalize_char_gt).
  apply map_ext. intros d. symmetry. apply translate_maketrans_map.
Qed.

Section ProcessTextSpans.

Context {Model : Type}.
Variable generate : Model -> pystr -> string -> string -> Model * pystr.
Variable csv : csv_file.

(** Every directive span of the prompt is in the text [process_text]
    returns, with its full-width punctuation mapped. *)
Lemma process_text_spans (text : pystr) (ln_code : string)
    (w : world Model) :
  match snd (process_text generate csv text ln_code w) with
  | Ok out =>
      Forall (fun d => occurs_in (Py.translate maketrans d) out)
             (directive_spans text)
  | Raise _ => True
  end.
Proof.
  unfold process_text, bind.
  match goal with
  | |- context [mapM ?g ?l w] =>
      destruct (mapM g l w) as [w1 [outs|e]] eqn:Hm
  end; simpl; [|exact I].
  apply Forall_forall. intros d Hd.
  assert (Hd' : In (Py.translate maketrans d)
                  (directive_spans (Py.translate maketrans text)))
    by (rewrite directive_spans_translate; apply in_map; exact Hd).
  apply directive_spans_in_split in Hd'. destruct Hd' as [Hin Hdir].
  apply mapM_ok in Hm.
  destruct (Forall2_in_left _ _ _ _ Hm Hin) as (b & Hb & w2 & w3 & Hf).
  rewrite Hdir in Hf. injection Hf as _ <-.
  apply in_concat_occurs. exact Hb.
Qed.

End ProcessTextSpans.

(** X12.  The punctuation mapping does not move the directive spans: the
    spans of the mapped text are the mapped spans of the text, so each
    directive span of a prompt reaches, with its full-width punctuation
    replaced and nothing else changed, the text [process_text] returns. *)
Theorem directive_spans_survive_mapped {Model : Type}
    (generate : Model -> pystr -> string -> string -> Model * pystr)
    (csv : csv_file)
    (text : pystr) (ln_code : string) (w : world Model) :
  directive_spans (Py.translate maketrans text)
  = map (Py.translate maketrans) (directive_spans text) /\
  match snd (process_text generate csv text ln_code w) with
  | Ok out =>
      Forall (fun d => occurs_in (Py.translate maketrans d) out)
             (directive_spans text)
  | Raise _ => True
  end.
Proof.
  split; [apply directive_spans_translate | apply process_text_spans].
Qed.

(** X13.  The test [part.startswith('<') and part.endswith('>')] agrees
    with the segmentation: among the parts [re.split] returns, it holds of
    the directive spans and of no literal part. *)
Theorem directive_test_agrees_with_split (text : pystr) :
  Forall (fun pc =>
            is_directive (Re.text_of pc)
            = match pc with
              | Re.Hit _ => true
              | Re.Gap _ => false
              end)
         (Re.pieces Re.directive text 0).
Proof.
  pose proof (directive_pieces_ok text) as Hok.
  eapply Forall_impl; [|exact Hok].
  intros [g|h] H; simpl in *.
  - apply no_span_not_directive. exact H.
  - apply span_shape_is_directive. exact H.
Qed.

(** ** More on the batch *)

Section BatchFacts.

Context {Model : Type}.
Variable generate : Model -> pystr -> string -> string -> Model * pystr.
Variable csv : csv_file.
Variable options : list LanguageOption.
Variable language : Z.

Lemma foldM_repeat (x b : pystr) (n : nat) :
  forall outs (w : world Model),
    foldM (translate_step generate csv options language) (x, b, outs)
      (repeat x n) w
    = (w, Ok (x, b, outs ++ repeat b n)).
Proof.
  induction n as [|n IH]; intros outs w.
  - simpl. rewrite app_nil_r. reflexivity.
  - cbn [repeat]. rewrite foldM_cons. unfold bind.
    rewrite step_repeat, IH, <- app_assoc. reflexivity.
Qed.

(** X14.  A batch of [n + 1] identical prompts costs one run of the
    pipeline: the world after it is the world after the one-prompt batch,
    the failure if any is the same, and every slot holds the translation
    of the first. *)
Theorem identical_prompts_translated_once (x : pystr) (n : nat)
    (w : world Model) :
  translate_prompts generate csv options language (x :: repeat x n) w
  = map_result (fun outs => outs ++ repeat (last outs []) n)
      (translate_prompts generate csv options language [x] w).
Proof.
  rewrite !translate_prompts_foldM.
  change (x :: repeat x n) with ([x] ++ repeat x n).
  rewrite foldM_app. unfold bind.
  destruct (foldM (translate_step generate csv options language)
              ([], [], []) [x] w) as [w1 [st|e]] eqn:H1; [|reflexivity].
  rewrite foldM_cons in H1. unfold bind in H1.
  destruct (translate_step generate csv options language ([], [], []) x w)
    as [w0 [st0|e]] eqn:Hx; [|discriminate].
  cbn [foldM] in H1. unfold ret in H1. injection H1 as -> ->.
  apply step_state in Hx. destruct Hx as (b & ->). cbn [snd app].
  rewrite foldM_repeat. reflexivity.
Qed.

(** X15.  Empty prompts at the head of a batch are never processed: each
    gets the empty string, the world is untouched and the table of
    language options is not consulted, so even an index outside the table
    goes unnoticed. *)
Theorem leading_empty_prompts_untouched (n : nat) (w : world Model) :
  translate_prompts generate csv options language (repeat [] n) w
  = (w, Ok (repeat [] n)).
Proof.
  rewrite translate_prompts_foldM.
  pose proof (foldM_repeat [] [] n [] w) as Hf.
  match type of Hf with
  | ?lhs = _ =>
      match goal with
      | |- map_result snd ?t = _ => change t with lhs
      end
  end.
  rewrite Hf. reflexivity.
Qed.

(** X16.  An index outside the table of language options fails the batch
    with [IndexError] at its first prompt, when that prompt is not empty,
    before anything is translated. *)
Theorem language_index_out_of_range (x : pystr) (rest : list pystr)
    (e : exn) (w : world Model) :
  Py.getitem options language = Raise e ->
  x <> [] ->
  translate_prompts generate csv options language (x :: rest) w
  = (w, Raise IndexError).
Proof.
  intros Hget Hx. apply getitem_raise in Hget as He. subst e.
  unfold translate_prompts. unfold bind at 1. rewrite foldM_cons.
  unfold bind at 1. unfold translate_step.
  destruct (Py.eqb [] x) eqn:Heq; [apply eqb_true in Heq; congruence|].
  cbn [negb]. rewrite Hget. reflexivity.
Qed.

(** *** A batch of ASCII prompts *)

Lemma english_step (prev prev_tr : pystr) (outs : list pystr) (x : pystr)
    (opt : LanguageOption) (w : world Model) :
  Py.getitem options language = Ok opt ->
  post_process_prompt prev prev = Ok prev_tr ->
  is_english x = true -> only_plus x = false ->
  exists y,
    post_process_prompt x x = Ok y /\
    translate_step generate csv options language (prev, prev_tr, outs) x w
    = (w, Ok (x, y, outs ++ [y])).
Proof.
  intros Hget Hprev He Hx. unfold translate_step.
  destruct (Py.eqb prev x) eqn:Heq.
  - apply eqb_true in Heq. subst x. exists prev_tr. split; [exact Hprev|].
    reflexivity.
  - cbn [negb]. rewrite Hget. unfold bind, lift.
    rewrite (process_text_english generate csv x (language_code opt) w He).
    pose proof (post_process_prompt_outcome x x) as Hpost.
    destruct (post_process_prompt x x) as [y|e'].
    + exists y. split; reflexivity.
    + destruct Hpost as [_ Hpost]. rewrite Hx in Hpost. discriminate.
Qed.

Lemma english_fold (prompts : list pystr) (opt : LanguageOption) :
  Py.getitem options language = Ok opt ->
  Forall (fun x => is_english x = true /\ only_plus x = false) prompts ->
  forall prev prev_tr outs (w : world Model),
    post_process_prompt prev prev = Ok prev_tr ->
    exists prev' prev_tr' new,
      foldM (translate_step generate csv options language)
        (prev, prev_tr, outs) prompts w
      = (w, Ok (prev', prev_tr', outs ++ new)) /\
      Forall2 (fun x y => post_process_prompt x x = Ok y) prompts new.
Proof.
  intros Hget. induction 1 as [|x prompts [He Hx] _ IH];
    intros prev prev_tr outs w Hprev.
  - exists prev, prev_tr, []. rewrite app_nil_r. split; [reflexivity|].
    constructor.
  - destruct (english_step prev prev_tr outs x opt w Hget Hprev He Hx)
      as (y & Hy & Hstep).
    destruct (IH x y (outs ++ [y]) w Hy) as (prev' & prev_tr' & new & Hf & H2).
    exists prev', prev_tr', (y :: new).
    rewrite foldM_cons. unfold bind. rewrite Hstep, Hf, <- app_assoc.
    split; [reflexivity|]. constructor; assumption.
Qed.

(** X17.  A batch of prompts that are all ASCII or whitespace, none of
    them a non-empty string of [+] only, goes through for every language
    of the table: the translator is not called, the world is untouched,
    and each slot holds the prompt post-processed against itself. *)
Theorem english_batch_untranslated (prompts : list pystr)
    (opt : LanguageOption) (w : world Model) :
  Py.getitem options language = Ok opt ->
  Forall (fun x => is_english x = true /\ only_plus x = false) prompts ->
  exists outs,
    translate_prompts generate csv options language prompts w
    = (w, Ok outs) /\
    Forall2 (fun x y => post_process_prompt x x = Ok y) prompts outs.
Proof.
  intros Hget Hall.
  destruct (english_fold prompts opt Hget Hall [] [] [] w eq_refl)
    as (prev' & prev_tr' & new & Hf & H2).
  exists new. split; [|exact H2].
  rewrite translate_prompts_foldM.
  match type of Hf with
  | ?lhs = _ =>
      match goal with
      | |- map_result snd ?t = _ => change t with lhs
      end
  end.
  rewrite Hf. reflexivity.
Qed.

(** X18.  When [process] goes through, every original prompt has its slot:
    [all_prompts] is what the loop over the main prompts returned, it is as
    long as the batch [get_prompts] chose (one prompt, [p.prompt], when
    [p.all_prompts] was empty), and [prompt] and [prompt_for_display] are
    its first element. *)
Theorem process_fills_every_slot (self : Script) (w : world Model) :
  has_translator self && is_active self = true ->
  let out := process_with generate csv options self language w in
  match snd out with
  | Raise _ => True
  | Ok _ =>
      (exists w1,
          translate_prompts generate csv options language
            (fst (get_prompts (p w))) w
          = (w1, Ok (all_prompts (p (fst out))))) /\
      length (all_prompts (p (fst out)))
      = length (fst (get_prompts (p w))) /\
      Py.getitem (all_prompts (p (fst out))) 0 = Ok (prompt (p (fst out))) /\
      prompt_for_display (p (fst out)) = prompt (p (fst out))
  end.
Proof.
  intros Hactive. cbv zeta.
  rewrite (process_with_outcome generate csv options language self w
             Hactive).
  unfold batch_outcome.
  destruct (get_prompts_nonempty (p w)) as [Hps _].
  set (ops := fst (get_prompts (p w))) in *.
  set (ons := snd (get_prompts (p w))). clearbody ops ons.
  destruct (translate_prompts generate csv options language ops w)
    as [w1 [tps|e]] eqn:H1; [|exact I].
  pose proof (translate_prompts_length _ _ _ _ _ _ _ _ H1) as Hlen.
  pose proof (translate_prompts_hd _ _ _ _ _ _ _ _ Hps H1) as Hhd.
  destruct (negb (Py.eqb (negative_prompt (p w)) [])
            && is_negative_translate_active self).
  - destruct (translate_prompts generate csv options language ons w1)
      as [w2 [tns|e]]; [|exact I].
    cbn. repeat split; eauto.
  - cbn. repeat split; eauto.
Qed.

End BatchFacts.

(** ** Tightening twice *)

Lemma tighten_from_head (c : char) (r : pystr) :
  tighten_from false (c :: r) = c :: tighten_from (N.eqb c RPAREN) r.
Proof. reflexivity. Qed.

Lemma plusplus_next_tighten (r : pystr) :
  plusplus_next (tighten_from false r) = plusplus_next r.
Proof.
  induction r as [|c r IH]; [reflexivity|].
  rewrite tighten_from_head.
  destruct (Py.isspace c) eqn:Hc.
  - rewrite !(plusplus_next_space _ _ Hc).
    assert (Hp : N.eqb c RPAREN = false).
    { apply N.eqb_neq. intros ->. discriminate. }
    rewrite Hp. exact IH.
  - unfold plusplus_next. cbn [Re.span_len]. rewrite Hc. cbn [skipn].
    destruct (N.eqb c PLUS) eqn:Hplus; cbn [andb].
    + apply N.eqb_eq in Hplus. subst c.
      change (N.eqb PLUS RPAREN) with false.
      destruct r as [|d r]; [reflexivity|].
      rewrite tighten_from_head. reflexivity.
    + destruct (tighten_from (N.eqb c RPAREN) r), r; reflexivity.
Qed.

Lemma tighten_from_idem (s : pystr) :
  forall b, tighten_from b (tighten_from b s) = tighten_from b s.
Proof.
  induction s as [|c r IH]; intros b; [reflexivity|].
  cbn [tighten_from].
  destruct (b && Py.isspace c && plusplus_next r) eqn:Hcond.
  - apply andb_true_iff in Hcond. destruct Hcond as [Hcond _].
    apply andb_true_iff in Hcond. destruct Hcond as [-> _]. apply IH.
  - cbn [tighten_from].
    assert (Hcond' : b && Py.isspace c
                     && plusplus_next (tighten_from (N.eqb c RPAREN) r)
                     = false).
    { destruct b; [|reflexivity]. destruct (Py.isspace c) eqn:Hc;
        [|reflexivity].
      cbn [andb] in *.
      assert (Hp : N.eqb c RPAREN = false).
      { apply N.eqb_neq. intros ->. discriminate. }
      rewrite Hp, plusplus_next_tighten. exact Hcond. }
    rewrite Hcond', IH. reflexivity.
Qed.

Lemma tighten_from_length (s : pystr) :
  forall b, (length (tighten_from b s) <= length s)%nat.
Proof.
  induction s as [|c r IH]; intros b; [simpl; lia|].
  cbn [tighten_from].
  destruct (b && Py.isspace c && plusplus_next r).
  - specialize (IH true). simpl. lia.
  - specialize (IH (N.eqb c RPAREN)). simpl. lia.
Qed.

(** X19.  [remove_unnecessary_spaces] is idempotent and never lengthens
    the text; a text without [)] is returned as it is. *)
Theorem remove_unnecessary_spaces_idempotent (text : pystr) :
  remove_unnecessary_spaces (remove_unnecessary_spaces text)
  = remove_unnecessary_spaces text /\
  (length (remove_unnecessary_spaces text) <= length text)%nat /\
  (if in_dec N.eq_dec RPAREN text then True
   else remove_unnecessary_spaces text = text).
Proof.
  rewrite !remove_unnecessary_spaces_refines. unfold tighten_spec.
  split; [apply tighten_from_idem|]. split; [apply tighten_from_length|].
  destruct (in_dec N.eq_dec RPAREN text) as [_|Hno]; [exact I|].
  apply tighten_from_no_close. exact Hno.
Qed.

(** ** Reconciliation touches [+] only *)

Lemma is_run_slice (text : pystr) (se : Z * Z) :
  is_run text se ->
  Forall (fun c => c = PLUS) (Py.slice text (fst se) (snd se)).
Proof.
  intros (a & h & b & -> & Ha & Hah & _ & Hh & _).
  rewrite len_app in Hah.
  pose proof (len_nonneg a). pose proof (len_nonneg h).
  pose proof (len_nonneg b).
  unfold Py.slice. rewrite !len_app.
  rewrite !clamp_inside by lia.
  replace (Z.to_nat (fst se)) with (length a + 0)%nat
    by (unfold Py.len in *; lia).
  rewrite skipn_app. rewrite skipn_all2 by lia.
  replace (length a + 0 - length a)%nat with 0%nat by lia.
  cbn [skipn app].
  replace (Z.to_nat (snd se - fst se)) with (length h + 0)%nat
    by (unfold Py.len in *; lia).
  rewrite firstn_app_2. cbn [firstn]. rewrite app_nil_r. exact Hh.
Qed.

Lemma filter_all_plus (l : pystr) :
  Forall (fun c => c = PLUS) l ->
  @filter char (fun c : N => negb (N.eqb c PLUS)) l = [].
Proof.
  induction 1 as [|c l Hc _ IH]; [reflexivity|].
  subst c. cbn [filter]. rewrite N.eqb_refl. exact IH.
Qed.

Lemma runs_cuts_forall (text : pystr) (M : list (Z * Z)) (lo : Z) :
  runs_from text lo M ->
  cuts (Py.len text) lo M /\ Forall (is_run text) M.
Proof.
  intros H. split; [apply runs_from_cuts; exact H|].
  apply runs_from_forall in H. eapply Forall_impl; [|exact H].
  intros se [Hr _]. exact Hr.
Qed.

Lemma forall_removelast {A} (P : A -> Prop) (l : list A) :
  Forall P l -> Forall P (removelast l).
Proof.
  induction l as [|a [|b l] IH]; intros H; [constructor..|].
  change (removelast (a :: b :: l)) with (a :: removelast (b :: l)).
  inversion H; subst. constructor; [assumption|]. apply IH. assumption.
Qed.

Lemma match_loop_skeleton (o t : pystr) (Mo : list (Z * Z)) :
  Forall (is_run o) Mo ->
  forall Mt acc pos,
    0 <= pos -> cuts (Py.len t) pos Mt -> Forall (is_run t) Mt ->
    filter (fun c => negb (N.eqb c PLUS))
      (concat (fst (match_loop o t
                      (combine (map position_of Mo) (map position_of Mt))
                      acc pos))
       ++ Py.slice_from t
            (snd (match_loop o t
                    (combine (map position_of Mo) (map position_of Mt))
                    acc pos)))
    = filter (fun c => negb (N.eqb c PLUS))
        (concat acc ++ Py.slice_from t pos).
Proof.
  induction 1 as [|[so eo] Mo Hro _ IH]; intros Mt acc pos Hpos Hcuts Hrt;
    [reflexivity|].
  destruct Mt as [|[st et] Mt]; [reflexivity|].
  destruct Hcuts as (Hs & He & Hrest). cbn [fst snd] in *.
  inversion Hrt as [|? ? Hrt1 Hrt']; subst.
  cbn [map combine position_of match_loop fst snd].
  rewrite IH by (assumption || lia).
  rewrite !concat_app. cbn [concat]. rewrite !app_nil_r, <- !app_assoc.
  pose proof (is_run_slice o (so, eo) Hro) as Hso.
  pose proof (is_run_slice t (st, et) Hrt1) as Hst.
  cbn [fst snd] in Hso, Hst.
  rewrite !filter_app. rewrite (filter_all_plus _ Hso).
  cbn [app]. f_equal.
  rewrite <- (slice_join t pos st) by lia.
  rewrite <- (slice_join t st et) by lia.
  rewrite !filter_app. rewrite (filter_all_plus _ Hst).
  reflexivity.
Qed.

Lemma reported_runs_shape (text : pystr) :
  Py.startswith text PLUS = false ->
  exists M,
    reported_runs text = map position_of M /\
    cuts (Py.len text) 0 M /\ Forall (is_run text) M.
Proof.
  intros Hstart. rewrite reported_runs_last.
  destruct (runs_cuts_forall text _ 0
              (runs_from_weaken text 0 1 _ ltac:(lia)
                 (finditer_runs_after_first text Hstart))) as [Hc Hf].
  destruct (snd (last (Re.finditer Re.plus_run text) (0, 0))
            =? Py.len text).
  - eauto.
  - exists (removelast (Re.finditer Re.plus_run text)).
    split; [reflexivity|].
    split; [apply cuts_removelast | apply forall_removelast]; assumption.
Qed.

Lemma match_pluses_skeleton (original translated : pystr) :
  Py.startswith original PLUS = false ->
  Py.startswith translated PLUS = false ->
  exists out,
    match_pluses original translated = Ok out /\
    filter (fun c => negb (N.eqb c PLUS)) out
    = filter (fun c => negb (N.eqb c PLUS)) translated.
Proof.
  intros Ho Ht. unfold match_pluses.
  rewrite (extract_plus_positions_reported original Ho).
  rewrite (extract_plus_positions_reported translated Ht). cbn [rbind].
  destruct (reported_runs_shape original Ho) as (Mo & -> & _ & Hfo).
  destruct (reported_runs_shape translated Ht) as (Mt & -> & Hct & Hft).
  destruct (Nat.eqb (length (map position_of Mo))
              (length (map position_of Mt))).
  - pose proof (match_loop_skeleton original translated Mo Hfo Mt [] 0
                  ltac:(lia) Hct Hft) as Hloop.
    destruct (match_loop original translated
                (combine (map position_of Mo) (map position_of Mt)) [] 0)
      as [vals pos].
    cbn [fst snd] in Hloop. eexists. split; [reflexivity|].
    rewrite concat_app. cbn [concat]. rewrite app_nil_r, Hloop.
    cbn [concat app]. rewrite slice_from_zero. reflexivity.
  - eexists. split; [reflexivity|].
    cbn [app concat]. rewrite app_nil_r, slice_from_zero. reflexivity.
Qed.

(** X20.  Reconciliation touches [+] only: when neither text starts with
    [+], [match_pluses] returns a text, and with every [+] removed it is
    the translated text with every [+] removed. *)
Theorem match_pluses_changes_plus_only (original translated : pystr) :
  Py.startswith original PLUS = false ->
  Py.startswith translated PLUS = false ->
  exists out,
    match_pluses original translated = Ok out /\
    filter (fun c => negb (N.eqb c PLUS)) out
    = filter (fun c => negb (N.eqb c PLUS)) translated.
Proof. apply match_pluses_skeleton. Qed.

Lemma startswith_tighten (s : pystr) (c : char) :
  Py.startswith (remove_unnecessary_spaces s) c = Py.startswith s c.
Proof.
  rewrite remove_unnecessary_spaces_refines. unfold tighten_spec.
  destruct s; reflexivity.
Qed.

Lemma filter_filter {A} (f g : A -> bool) (l : list A) :
  filter f (filter g l) = filter (fun x => g x && f x) l.
Proof.
  induction l as [|a l IH]; [reflexivity|]. cbn [filter].
  destruct (g a); cbn [filter andb]; [destruct (f a)|]; rewrite IH;
    reflexivity.
Qed.

(** X21.  Post-processing adds and removes only [+] and whitespace: when
    neither the original nor the translated text starts with [+],
    [post_process_prompt] returns a text whose characters other than [+]
    and whitespace are those of the translated text, in the same order. *)
Theorem post_process_prompt_keeps_words (original translated : pystr) :
  Py.startswith original PLUS = false ->
  Py.startswith translated PLUS = false ->
  exists out,
    post_process_prompt original translated = Ok out /\
    filter (fun c => negb (N.eqb c PLUS) && negb (Py.isspace c)) out
    = filter (fun c => negb (N.eqb c PLUS) && negb (Py.isspace c))
        translated.
Proof.
  intros Ho Ht. unfold post_process_prompt.
  destruct (match_pluses_skeleton original
              (remove_unnecessary_spaces translated) Ho)
    as (out & Hout & Hskel);
    [rewrite startswith_tighten; exact Ht|].
  exists out. split; [exact Hout|].
  rewrite <- !filter_filter, Hskel.
  rewrite !filter_filter.
  rewrite remove_unnecessary_spaces_refines. unfold tighten_spec.
  transitivity (filter (fun c => negb (N.eqb c PLUS))
                  (filter (fun c => negb (Py.isspace c))
                     (tighten_from false translated))).
  - rewrite filter_filter. apply filter_ext. intros c. apply andb_comm.
  - rewrite tighten_from_keeps_nonspace, filter_filter.
    apply filter_ext. intros c. apply andb_comm.
Qed.

(** ** Directive spans in the final output *)

Lemma occurs_in_refl (d : pystr) : occurs_in d d.
Proof. exists [], []. rewrite app_nil_r. reflexivity. Qed.

Lemma occurs_in_app_l (d u v : pystr) : occurs_in d u -> occurs_in d (u ++ v).
Proof.
  intros (pre & post & ->). exists pre, (post ++ v).
  rewrite <- !app_assoc. reflexivity.
Qed.

Lemma occurs_in_app_r (d u v : pystr) : occurs_in d v -> occurs_in d (u ++ v).
Proof.
  intros (pre & post & ->). exists (u ++ pre), post.
  rewrite <- !app_assoc. reflexivity.
Qed.

(** A text without [+] that occurs in [u ++ h ++ v], where [h] is a run of
    [+], lies in [u] or in [v]. *)
Lemma occurs_in_around (d u h v : pystr) :
  d <> [] -> ~ In PLUS d ->
  h <> [] -> Forall (fun c => c = PLUS) h ->
  occurs_in d (u ++ h ++ v) -> occurs_in d u \/ occurs_in d v.
Proof.
  intros Hd Hplus Hh Hall (pre & post & Heq).
  apply app_eq_app in Heq. destruct Heq as (l & [[Hu Hrest]|[Hpre Hrest]]).
  - (* [d] starts inside [u] *)
    apply app_eq_app in Hrest.
    destruct Hrest as (l2 & [[Hd2 Hh2]|[Hl Hpost]]).
    + destruct l2 as [|x l2].
      * left. exists pre, []. rewrite Hu, Hd2, !app_nil_r. reflexivity.
      * exfalso. destruct h as [|y m]; [congruence|].
        assert (Hx : x = y) by (simpl in Hh2; congruence). subst y.
        apply Hplus. rewrite Hd2. apply in_or_app. right. left.
        inversion Hall; subst. reflexivity.
    + left. exists pre, l2. rewrite Hu, Hl. reflexivity.
  - (* [d] starts at or after the start of [h] *)
    apply app_eq_app in Hrest.
    destruct Hrest as (l2 & [[Hh2 Hd2]|[Hl Hv]]).
    + destruct l2 as [|x l2].
      * right. exists [], post. simpl in Hd2. rewrite <- Hd2. reflexivity.
      * exfalso. destruct d as [|y m]; [congruence|].
        assert (Hx : y = x) by (simpl in Hd2; congruence). subst y.
        apply Hplus. left.
        rewrite Forall_forall in Hall. apply Hall.
        rewrite Hh2. apply in_or_app. right. left. reflexivity.
    + right. exists l2, post. exact Hv.
Qed.

(** *** Through the tightening *)

Lemma plusplus_next_blocked (r : pystr) :
  forall post z r',
    r = r' ++ [z] -> Py.isspace z = false -> ~ In PLUS r ->
    plusplus_next (r ++ post) = false.
Proof.
  induction r as [|c r1 IH]; intros post z r' Hr Hz Hplus.
  - destruct r'; discriminate.
  - unfold plusplus_next. cbn [app Re.span_len].
    destruct (Py.isspace c) eqn:Hc.
    + cbn [skipn]. destruct r' as [|c' r''].
      * injection Hr as -> _. congruence.
      * injection Hr as _ ->.
        apply (IH post z r'' eq_refl Hz).
        intros Hin. apply Hplus. right. exact Hin.
    + cbn [skipn].
      assert (Hcp : N.eqb c PLUS = false).
      { apply N.eqb_neq. intros ->. apply Hplus. left. reflexivity. }
      destruct (r1 ++ post); [reflexivity|]. rewrite Hcp. reflexivity.
Qed.

Lemma tighten_from_keeps_block (r : pystr) :
  forall b post z r',
    r = r' ++ [z] -> Py.isspace z = false -> ~ In PLUS r ->
    exists b', tighten_from b (r ++ post) = r ++ tighten_from b' post.
Proof.
  induction r as [|c r1 IH]; intros b post z r' Hr Hz Hplus.
  - destruct r'; discriminate.
  - cbn [app tighten_from]. destruct r' as [|c' r''].
    + injection Hr as -> ->. rewrite Hz, andb_false_r. cbn [andb app].
      eexists. reflexivity.
    + injection Hr as _ ->.
      assert (Hplus1 : ~ In PLUS (r'' ++ [z]))
        by (intros Hin; apply Hplus; right; exact Hin).
      rewrite (plusplus_next_blocked _ post z r'' eq_refl Hz Hplus1).
      rewrite andb_false_r.
      destruct (IH (N.eqb c RPAREN) post z r'' eq_refl Hz Hplus1)
        as (b' & ->).
      exists b'. reflexivity.
Qed.

Lemma tighten_from_prefix (pre : pystr) :
  forall b s, exists pre' b',
    tighten_from b (pre ++ s) = pre' ++ tighten_from b' s.
Proof.
  induction pre as [|c pre IH]; intros b s.
  - exists [], b. reflexivity.
  - cbn [app tighten_from].
    destruct (b && Py.isspace c && plusplus_next (pre ++ s)).
    + apply IH.
    + destruct (IH (N.eqb c RPAREN) s) as (pre' & b' & ->).
      exists (c :: pre'), b'. reflexivity.
Qed.

(** The tightening leaves alone a text without [+] that ends in a
    character other than whitespace. *)
Lemma tighten_keeps_occurrence (d s : pystr) (z : char) (d' : pystr) :
  d = d' ++ [z] -> Py.isspace z = false -> ~ In PLUS d ->
  occurs_in d s -> occurs_in d (remove_unnecessary_spaces s).
Proof.
  intros Hd Hz Hplus (pre & post & ->).
  rewrite remove_unnecessary_spaces_refines. unfold tighten_spec.
  destruct (tighten_from_prefix pre false (d ++ post)) as (pre' & b' & ->).
  destruct (tighten_from_keeps_block d b' post z d' Hd Hz Hplus)
    as (b'' & ->).
  exists pre', (tighten_from b'' post). reflexivity.
Qed.

(** *** Through the reconciliation *)

(** Where the backward scan stops: on a character that is not [+], having
    passed over [+] only. *)
Lemma while_plus_scanned (text : pystr) (fuel : nat) :
  forall j j',
    while_plus text fuel j = Ok j' ->
    j' <= j /\
    (forall i, j' < i <= j -> Py.getitem text i = Ok PLUS) /\
    exists c, Py.getitem text j' = Ok c /\ c <> PLUS.
Proof.
  induction fuel as [|fuel IH]; intros j j' Hw; cbn [while_plus] in Hw;
    destruct (Py.getitem text j) as [c|e] eqn:Hget; cbn [rbind] in Hw;
    try discriminate;
    destruct (N.eqb c PLUS) eqn:Hc; try discriminate.
  - injection Hw as <-. split; [lia|]. split; [intros i Hi; lia|].
    exists c. split; [exact Hget|]. apply N.eqb_neq. exact Hc.
  - apply IH in Hw. destruct Hw as (Hle & Hall & Hstop).
    split; [lia|]. split; [|exact Hstop].
    intros i Hi. destruct (Z.eq_dec i j) as [->|Hne].
    + apply N.eqb_eq in Hc. subst c. exact Hget.
    + apply Hall. lia.
  - injection Hw as <-. split; [lia|]. split; [intros i Hi; lia|].
    exists c. split; [exact Hget|]. apply N.eqb_neq. exact Hc.
Qed.

Lemma is_run_getitem (text : pystr) (se : Z * Z) (i : Z) :
  is_run text se -> fst se <= i < snd se -> Py.getitem text i = Ok PLUS.
Proof.
  intros (a & h & b & -> & Ha & Hah & _ & Hh & _) Hi.
  rewrite len_app in Hah.
  replace i with (Py.len a + Z.of_nat (Z.to_nat (i - Py.len a))) by lia.
  apply getitem_app_mid.
  destruct (nth_error h (Z.to_nat (i - Py.len a))) as [x|] eqn:Hn.
  - rewrite Forall_forall in Hh.
    rewrite (Hh x (nth_error_In _ _ Hn)). reflexivity.
  - apply nth_error_None in Hn. unfold Py.len in *. lia.
Qed.

(** The characters the scan passed over below index [0] are the last
    characters of the text. *)
Lemma wrapped_tail (text : pystr) (a : Z) :
  - Py.len text <= a <= 0 ->
  (forall i, a <= i < 0 -> Py.getitem text i = Ok PLUS) ->
  Forall (fun c => c = PLUS) (skipn (Z.to_nat (Py.len text + a)) text).
Proof.
  intros Ha Hall. apply Forall_forall. intros x Hx.
  apply In_nth_error in Hx. destruct Hx as (k & Hk).
  rewrite nth_error_skipn in Hk.
  assert (Hlt : (Z.to_nat (Py.len text + a) + k < length text)%nat)
    by (apply nth_error_Some; congruence).
  pose proof (getitem_wrap _ _ _ Hk) as Hg.
  rewrite Hall in Hg by (unfold Py.len in *; lia). congruence.
Qed.

Lemma slice_wrapped {A} (l : list A) (a : Z) :
  - Py.len l <= a < 0 ->
  Py.slice l 0 a = firstn (Z.to_nat (Py.len l + a)) l.
Proof.
  intros Ha. unfold Py.slice, Py.clamp. pose proof (len_nonneg l).
  destruct (0 <? 0) eqn:H0; [apply Z.ltb_lt in H0; lia|].
  destruct (a <? 0) eqn:Hneg; [|apply Z.ltb_ge in Hneg; lia].
  replace (Z.min 0 (Py.len l)) with 0 by lia.
  replace (Z.max (a + Py.len l) 0) with (Py.len l + a) by lia.
  rewrite Z.sub_0_r. reflexivity.
Qed.

(** What the block appends for a run that starts the text: the run as it
    is, or, when the text also ends in [+], a start below [0]. *)
Lemma append_position_first (text : pystr) (P P' : list (Z * Z * Z))
    (se : Z * Z) :
  is_run text se -> fst se = 0 ->
  append_position text P (snd se) = Ok P' ->
  exists a,
    P' = P ++ [(a, snd se, snd se - a)] /\
    (a = 0 \/
     (- Py.len text <= a < 0 /\
      Forall (fun c => c = PLUS) (skipn (Z.to_nat (Py.len text + a)) text))).
Proof.
  intros Hrun Hs. unfold append_position.
  destruct (while_plus text _ (snd se - 1)) as [j'|e] eqn:Hw;
    [|discriminate].
  cbn [rbind]. intros [= <-]. exists (j' + 1). split; [reflexivity|].
  apply while_plus_scanned in Hw.
  destruct Hw as (Hle & Hall & c & Hget & Hc).
  pose proof (is_run_bounds _ _ Hrun) as Hb.
  pose proof (getitem_ok_range _ _ _ Hget) as Hr.
  destruct (Z_lt_le_dec j' 0) as [Hneg|Hpos].
  - destruct (Z.eq_dec (j' + 1) 0) as [H0|H0]; [left; exact H0|].
    right. split; [lia|]. apply wrapped_tail; [lia|].
    intros i Hi. apply Hall. lia.
  - exfalso. rewrite (is_run_getitem text se j' Hrun) in Hget by lia.
    congruence.
Qed.

(** The positions [extract_plus_positions] returns: runs of the text in
    order, or a list whose first start is below [0], the text then ending
    in that many [+]. *)
Lemma extract_plus_positions_shape (text : pystr) (outs : list (Z * Z * Z)) :
  extract_plus_positions text = Ok outs ->
  (exists M,
      outs = map position_of M /\
      cuts (Py.len text) 0 M /\ Forall (is_run text) M) \/
  (exists a e n rest,
      outs = (a, e, n) :: rest /\ - Py.len text <= a < 0 /\
      Forall (fun c => c = PLUS) (skipn (Z.to_nat (Py.len text + a)) text)).
Proof.
  destruct (Py.startswith text PLUS) eqn:Hstart.
  2:{ rewrite (extract_plus_positions_reported text Hstart).
      intros [= <-]. left. apply reported_runs_shape. exact Hstart. }
  unfold extract_plus_positions.
  pose proof (finditer_runs text) as Hruns.
  assert (Hfirst : exists e1 M2,
             Re.finditer Re.plus_run text = (0, e1) :: M2).
  { destruct text as [|c r]; [discriminate|]. cbn [Py.startswith] in Hstart.
    apply N.eqb_eq in Hstart. subst c. unfold Re.finditer.
    assert (Hm : Re.plus_run (PLUS :: r)
                 = Some (S (Re.span_len (N.eqb PLUS) r))).
    { unfold Re.plus_run. cbn [Re.span_len]. rewrite N.eqb_refl.
      reflexivity. }
    rewrite (pieces_hit Re.plus_run plus_run_fits _ _ _ Hm).
    cbn [Re.spans]. eauto. }
  destruct Hfirst as (e1 & M2 & HM). rewrite HM in *.
  - destruct Hruns as (Hlo & Hrun1 & Hchain). cbn [fst snd] in *.
    + (* the text starts with the first run *)
      cbn [extract_loop rbind].
      destruct M2 as [|[s2 e2] M3].
      * cbn [extract_loop rbind].
        destruct (e1 =? Py.len text).
        -- intros Happ.
           destruct (append_position_first text [] outs (0, e1) Hrun1
                       eq_refl Happ) as (a & -> & [->|[Ha Htail]]).
           ++ left. exists [(0, e1)]. cbn [snd app map position_of fst].
              split; [reflexivity|].
              pose proof (is_run_bounds _ _ Hrun1) as Hb1.
              cbn [fst snd] in Hb1.
              split; [|constructor; [assumption|constructor]].
              simpl. repeat split; lia.
           ++ right. exists a, e1, (e1 - a), []. auto.
        -- intros [= <-]. left. exists []. repeat split. constructor.
      * destruct Hchain as (Hlo2 & Hrun2 & Hchain3). cbn [fst snd] in *.
        cbn [extract_loop].
        destruct (s2 =? e1) eqn:Heq; [apply Z.eqb_eq in Heq; lia|].
        cbn [negb].
        destruct (append_position text [] e1) as [P1|e] eqn:Happ;
          [|discriminate].
        cbn [rbind].
        pose proof (is_run_bounds _ _ Hrun1) as Hb1. cbn [fst snd] in Hb1.
        assert (Hs2 : 1 <= fst (s2, e2)) by (cbn [fst]; lia).
        pose proof (extract_loop_runs text M3 (s2, e2) P1 Hrun2 Hs2 Hchain3)
          as Hloop.
        change (snd (s2, e2)) with e2 in Hloop at 1. rewrite Hloop.
        cbn [rbind].
        destruct (append_position_first text [] P1 (0, e1) Hrun1 eq_refl Happ)
          as (a & -> & Hcase). cbn [snd app] in *.
        assert (Hne : (s2, e2) :: M3 <> []) by discriminate.
        set (lst := last ((s2, e2) :: M3) (0, 0)).
        assert (Hall : Forall (fun se => is_run text se /\ e1 + 1 <= fst se)
                         ((s2, e2) :: M3)).
        { apply runs_from_forall. simpl. auto. }
        assert (Hcuts : cuts (Py.len text) e1 ((s2, e2) :: M3)).
        { apply (cuts_weaken _ _ (e1 + 1)); [lia|].
          apply runs_from_cuts. simpl. auto. }
        assert (Hshape : forall M',
                   cuts (Py.len text) e1 M' -> Forall (is_run text) M' ->
                   outs = (a, e1, e1 - a) :: map position_of M' ->
                   (exists M,
                       outs = map position_of M /\
                       cuts (Py.len text) 0 M /\ Forall (is_run text) M) \/
                   (exists a e n rest,
                       outs = (a, e, n) :: rest /\ - Py.len text <= a < 0 /\
                       Forall (fun c => c = PLUS)
                         (skipn (Z.to_nat (Py.len text + a)) text))).
        { intros M' Hc' Hf' ->. destruct Hcase as [->|[Ha Htail]].
          - left. exists ((0, e1) :: M'). split; [reflexivity|]. split.
            + simpl. repeat split; try lia. exact Hc'.
            + constructor; assumption.
          - right. exists a, e1, (e1 - a), (map position_of M'). auto. }
        assert (Hruns : Forall (is_run text) ((s2, e2) :: M3)).
        { eapply Forall_impl; [|exact Hall]. intros se [Hr _]. exact Hr. }
        destruct (snd lst =? Py.len text) eqn:Hend.
        -- assert (Hin : In lst ((s2, e2) :: M3)).
           { pose proof (app_removelast_last (0, 0) Hne) as Hl.
             fold lst in Hl. rewrite Hl.
             apply in_or_app. right. left. reflexivity. }
           rewrite Forall_forall in Hall. destruct (Hall lst Hin) as [Hr Hl].
           rewrite (append_position_run text _ lst Hr) by lia.
           intros [= <-]. apply (Hshape ((s2, e2) :: M3)); try assumption.
           cbn [app]. f_equal.
           transitivity (map position_of
                           (removelast ((s2, e2) :: M3) ++ [lst]));
             [rewrite map_app; reflexivity|].
           f_equal. symmetry. apply app_removelast_last. exact Hne.
        -- intros [= <-].
           apply (Hshape (removelast ((s2, e2) :: M3)));
             [apply cuts_removelast|apply forall_removelast|reflexivity];
             assumption.
Qed.

Lemma slice_length {A} (l : list A) (a b : Z) :
  0 <= a <= b -> b <= Py.len l ->
  length (Py.slice l a b) = Z.to_nat (b - a).
Proof.
  intros Hab Hb. unfold Py.slice. rewrite !clamp_inside by lia.
  rewrite length_firstn, length_skipn. unfold Py.len in *. lia.
Qed.

Lemma match_loop_grows (o t : pystr) (pairs : list (Z * Z * Z * (Z * Z * Z))) :
  forall acc pos, exists more,
    fst (match_loop o t pairs acc pos) = acc ++ more.
Proof.
  induction pairs as [|[[[i0 i1] i2] [[o0 o1] o2]] pairs IH]; intros acc pos.
  - exists []. rewrite app_nil_r. reflexivity.
  - cbn [match_loop]. destruct (IH ((acc ++ [Py.slice t pos o0])
                                      ++ [Py.slice o i0 i1]) o1)
      as (more & ->).
    exists ([Py.slice t pos o0] ++ [Py.slice o i0 i1] ++ more).
    rewrite <- !app_assoc. reflexivity.
Qed.

(** With the positions of the translated text being runs of it, a text
    without [+] that lies in the translated text from the current position
    on, or in the pieces already put out, lies in what the loop puts
    together, whatever the positions of the original are. *)
Lemma match_loop_keeps (o t d : pystr) (Mt : list (Z * Z)) :
  d <> [] -> ~ In PLUS d ->
  forall ins acc pos,
    0 <= pos -> cuts (Py.len t) pos Mt -> Forall (is_run t) Mt ->
    occurs_in d (concat acc) \/ occurs_in d (Py.slice_from t pos) ->
    occurs_in d
      (concat (fst (match_loop o t (combine ins (map position_of Mt))
                      acc pos))
       ++ Py.slice_from t
            (snd (match_loop o t (combine ins (map position_of Mt))
                    acc pos))).
Proof.
  intros Hd Hplus.
  induction Mt as [|[s e] Mt IH]; intros ins acc pos Hpos Hcuts Hruns Hocc.
  - rewrite combine_nil. cbn [match_loop fst snd].
    destruct Hocc; [apply occurs_in_app_l|apply occurs_in_app_r]; assumption.
  - destruct ins as [|[[i0 i1] i2] ins].
    + cbn [combine match_loop fst snd].
      destruct Hocc; [apply occurs_in_app_l|apply occurs_in_app_r];
        assumption.
    + destruct Hcuts as (Hs & He & Hrest). cbn [fst snd] in *.
      inversion Hruns as [|? ? Hrun Hruns']; subst.
      cbn [map combine position_of match_loop fst snd].
      apply IH; [lia|assumption..|].
      rewrite !concat_app. cbn [concat]. rewrite !app_nil_r.
      destruct Hocc as [Hacc|Hrest'].
      * left. rewrite <- app_assoc. apply occurs_in_app_l. exact Hacc.
      * rewrite <- (slice_join t pos s) in Hrest' by lia.
        rewrite <- (slice_join t s e) in Hrest' by lia.
        pose proof (is_run_slice t (s, e) Hrun) as Hall.
        pose proof (is_run_bounds t (s, e) Hrun) as Hb.
        cbn [fst snd] in Hall, Hb.
        assert (Hne : Py.slice t s e <> []).
        { intros Hnil. apply (f_equal (@length char)) in Hnil.
          rewrite slice_length in Hnil by lia. simpl in Hnil. lia. }
        destruct (occurs_in_around d _ _ _ Hd Hplus Hne Hall Hrest')
          as [Hu|Hv]; [left|right; exact Hv].
        rewrite <- app_assoc. apply occurs_in_app_r, occurs_in_app_l.
        exact Hu.
Qed.

(** The reconciliation keeps every stretch of the translated text that
    has no [+]. *)
Lemma match_pluses_keeps (o t d out : pystr) :
  d <> [] -> ~ In PLUS d ->
  occurs_in d t -> match_pluses o t = Ok out -> occurs_in d out.
Proof.
  intros Hd Hplus Hocc. unfold match_pluses.
  destruct (extract_plus_positions o) as [ins|e]; [|discriminate].
  destruct (extract_plus_positions t) as [outs|e] eqn:Hext; [|discriminate].
  cbn [rbind].
  destruct (Nat.eqb (length ins) (length outs)).
  2:{ intros [= <-]. cbn [app concat]. rewrite app_nil_r, slice_from_zero.
      exact Hocc. }
  destruct (extract_plus_positions_shape t outs Hext)
    as [(Mt & -> & Hcuts & Hruns)|(a & e & n & rest & -> & Ha & Htail)].
  - pose proof (match_loop_keeps o t d Mt Hd Hplus ins (@nil pystr) 0
                  ltac:(lia) Hcuts Hruns) as Hloop.
    destruct (match_loop o t (combine ins (map position_of Mt)) [] 0)
      as [vals pos].
    cbn [fst snd] in Hloop. intros [= <-].
    rewrite concat_app. cbn [concat]. rewrite app_nil_r.
    apply Hloop. right. rewrite slice_from_zero. exact Hocc.
  - destruct ins as [|[[i0 i1] i2] ins].
    + cbn [combine match_loop]. intros [= <-].
      cbn [app concat]. rewrite app_nil_r, slice_from_zero. exact Hocc.
    + cbn [combine match_loop app].
      match goal with
      | |- context [match_loop o t ?pairs ?acc e] =>
          destruct (match_loop_grows o t pairs acc e) as (more & Hmore);
          destruct (match_loop o t pairs acc e) as [vals pos]
      end.
      cbn [fst] in Hmore. subst vals. intros [= <-].
      rewrite !concat_app. cbn [concat app]. rewrite <- ?app_assoc.
      apply occurs_in_app_l.
      rewrite slice_wrapped by lia.
      rewrite <- (firstn_skipn (Z.to_nat (Py.len t + a)) t) in Hocc.
      assert (Hne : skipn (Z.to_nat (Py.len t + a)) t <> []).
      { intros Hnil. apply (f_equal (@length char)) in Hnil.
        rewrite length_skipn in Hnil. unfold Py.len in *. simpl in Hnil.
        lia. }
      rewrite <- (app_nil_r (skipn _ t)) in Hocc.
      destruct (occurs_in_around d _ _ _ Hd Hplus Hne Htail Hocc)
        as [Hu|(pre & post & Hnil)]; [exact Hu|].
      destruct pre; [destruct d; [congruence|discriminate]|discriminate].
Qed.

(** The post-processing keeps every stretch of the translated text that
    has no [+] and ends in a character other than whitespace. *)
Lemma post_process_prompt_keeps (o t d out : pystr) (z : char) (d' : pystr) :
  d = d' ++ [z] -> Py.isspace z = false -> ~ In PLUS d ->
  occurs_in d t -> post_process_prompt o t = Ok out -> occurs_in d out.
Proof.
  intros Hd Hz Hplus Hocc. unfold post_process_prompt.
  apply match_pluses_keeps; [|exact Hplus|].
  - rewrite Hd. destruct d'; discriminate.
  - apply (tighten_keeps_occurrence d t z d'); assumption.
Qed.

(** *** From the prompt to the final output *)

Lemma plus_free_translate (d : pystr) :
  plus_free d = true -> ~ In PLUS (Py.translate maketrans d).
Proof.
  unfold plus_free. intros Hfree Hin.
  rewrite translate_maketrans_map in Hin. apply in_map_iff in Hin.
  destruct Hin as (c & Hc & Hin).
  assert (c = PLUS).
  { destruct (normalize_char_cases c) as [H|H]; [congruence|].
    destruct H as (_ & _ & _ & _ & _ & _ & _ & _ & H). contradiction. }
  subst c. apply negb_true_iff in Hfree.
  apply Bool.not_true_iff_false in Hfree. apply Hfree.
  apply existsb_exists. exists PLUS. split; [exact Hin|]. apply N.eqb_refl.
Qed.

Section SpansKept.

Context {Model : Type}.
Variable generate : Model -> pystr -> string -> string -> Model * pystr.
Variable csv : csv_file.

(** One prompt through [process_text] and [post_process_prompt]. *)
Lemma prompt_spans_kept (text : pystr) (ln_code : string)
    (w w1 : world Model) (t y : pystr) :
  process_text generate csv text ln_code w = (w1, Ok t) ->
  post_process_prompt text t = Ok y ->
  spans_kept text y.
Proof.
  intros Hrun Hpost. unfold spans_kept.
  pose proof (process_text_spans generate csv text ln_code w) as Hspans.
  rewrite Hrun in Hspans. cbn [snd] in Hspans.
  rewrite Forall_forall in Hspans.
  apply Forall_forall. intros d Hd. apply filter_In in Hd.
  destruct Hd as [Hd Hfree].
  assert (Hshape : span_shape (Py.translate maketrans d)).
  { apply (directive_spans_shape (Py.translate maketrans text)).
    rewrite directive_spans_translate. apply in_map. exact Hd. }
  destruct Hshape as (body & Heq & _).
  apply (post_process_prompt_keeps text t _ y GT (LT :: body));
    [exact Heq | reflexivity | apply plus_free_translate; exact Hfree |
     | exact Hpost].
  apply Hspans. exact Hd.
Qed.

Variable options : list LanguageOption.
Variable language : Z.

Local Abbreviation step := (translate_step generate csv options language).

Lemma step_spans_kept (prev prev_tr : pystr) (outs : list pystr) (x : pystr)
    (w w' : world Model) (st' : loop_state) :
  spans_kept prev prev_tr ->
  step (prev, prev_tr, outs) x w = (w', Ok st') ->
  exists y, st' = (x, y, outs ++ [y]) /\ spans_kept x y.
Proof.
  intros Hprev. unfold translate_step.
  destruct (Py.eqb prev x) eqn:Heq; cbn [negb].
  - apply eqb_true in Heq. subst x. intros [= _ <-]. eauto.
  - unfold bind, lift, ret.
    destruct (Py.getitem options language) as [opt|e]; [|discriminate].
    destruct (process_text generate csv x (language_code opt) w)
      as [w1 [t|e]] eqn:Hrun; [|discriminate].
    destruct (post_process_prompt x t) as [y|e] eqn:Hpost; [|discriminate].
    intros [= _ <-]. exists y. split; [reflexivity|].
    exact (prompt_spans_kept x _ w w1 t y Hrun Hpost).
Qed.

Lemma fold_spans_kept (prompts : list pystr) :
  forall done prev prev_tr outs (w w' : world Model) st',
    spans_kept prev prev_tr ->
    Forall2 spans_kept done outs ->
    foldM step (prev, prev_tr, outs) prompts w = (w', Ok st') ->
    Forall2 spans_kept (done ++ prompts) (snd st').
Proof.
  induction prompts as [|x prompts IH];
    intros done prev prev_tr outs w w' st' Hprev Hdone Hfold.
  - cbn [foldM] in Hfold. injection Hfold as _ <-.
    rewrite app_nil_r. exact Hdone.
  - rewrite foldM_cons in Hfold. unfold bind in Hfold.
    destruct (step (prev, prev_tr, outs) x w) as [w1 [st1|e]] eqn:Hstep;
      [|discriminate].
    destruct (step_spans_kept _ _ _ _ _ _ _ Hprev Hstep) as (y & -> & Hy).
    replace (done ++ x :: prompts) with ((done ++ [x]) ++ prompts)
      by (rewrite <- app_assoc; reflexivity).
    apply (IH (done ++ [x]) x y (outs ++ [y]) w1 w' st' Hy);
      [|exact Hfold].
    apply Forall2_app; [exact Hdone|]. constructor; [exact Hy|constructor].
Qed.

(** C1 (amended).  For every batch of prompts and every behaviour of the
    opaque model, no text passed to the translator holds a directive span,
    and whenever the loop returns, the final output for each prompt holds
    every directive span of that prompt that has no [+] in it, with the
    full-width punctuation of the span replaced by its ASCII counterpart
    and nothing else changed: byte for byte when the span has none. *)
Theorem directive_spans_reach_output (prompts : list pystr)
    (w : world Model) :
  let run := translate_prompts generate csv options language prompts w in
  grows_by (fun a => ~ has_span a) w (fst run) /\
  match snd run with
  | Ok outs => Forall2 spans_kept prompts outs
  | Raise _ => True
  end.
Proof.
  cbv zeta. split.
  - apply (respects_translate_prompts generate csv
             (grows_by (fun a => ~ has_span a)) (fun a => ~ has_span a)).
    + apply grows_by_refl.
    + apply grows_by_trans.
    + intros. apply translate_grows_by. assumption.
    + intros text part segment. apply literal_segment_no_span.
  - unfold translate_prompts, bind.
    destruct (foldM step ([], [], []) prompts w) as [w1 [st|e]] eqn:Hfold;
      [|exact I].
    cbn [ret snd].
    apply (fold_spans_kept prompts [] [] [] [] w w1 st); [| |exact Hfold].
    + unfold spans_kept. constructor.
    + constructor.
Qed.

End SpansKept.

(** The amended C1 at work: the span of a prompt whose other parts are
    translated. *)
Lemma directive_spans_reach_output_witness :
  Forall2 spans_kept
    [[Scenario.mao] ++ str " <lora:foo:0.8>, " ++ [Scenario.gou]]
    [str "0<lora:foo:0.8>,1"].
Proof.
  exact (proj2 (directive_spans_reach_output Scenario.counting
                  Scenario.no_cache language_options Scenario.chinese
                  [[Scenario.mao] ++ str " <lora:foo:0.8>, "
                   ++ [Scenario.gou]]
                  (Scenario.start Scenario.blank))).
Defined.

(** ** Loading the cache *)

Lemma dict_app (rows rows' : list (result (list pystr))) :
  forall cache,
    dict (rows ++ rows') cache = rbind (dict rows cache) (dict rows').
Proof.
  induction rows as [|[row|e] rows IH]; intros cache; [reflexivity| |].
  - destruct row as [|key [|value [|x row]]]; try reflexivity.
    cbn [app dict]. apply IH.
  - reflexivity.
Qed.

(** X22.  [load_csv] reads the rows in order and the last row wins: if the
    file loads and its last row is [key, value], looking [key] up gives
    [value], and every other text is looked up as in the file without that
    row, which loads as well. *)
Theorem load_csv_last_row_wins (rows : list (result (list pystr)))
    (key value : pystr) (cache : pystr -> option pystr) :
  load_csv (Ok (rows ++ [Ok [key; value]])) = Ok cache ->
  custom_translate key cache = Some value /\
  exists before,
    load_csv (Ok rows) = Ok before /\
    forall text, text <> key ->
      custom_translate text cache = custom_translate text before.
Proof.
  unfold load_csv, custom_translate. cbn [rbind]. rewrite dict_app.
  destruct (dict rows (fun _ => None)) as [before|e]; [|discriminate].
  cbn [rbind dict]. intros [= <-]. rewrite eqb_refl. split; [reflexivity|].
  exists before. split; [reflexivity|]. intros text Hne.
  destruct (Py.eqb text key) eqn:Heq; [|reflexivity].
  apply eqb_true in Heq. contradiction.
Qed.

(** X23.  [load_csv] fails on a row that does not have exactly two fields:
    when the rows before it load, the [dict] call raises [ValueError], and
    when [open] or the reader raises, that exception comes out. *)
Theorem load_csv_failure (rows rest : list (result (list pystr)))
    (row : list pystr) (before : pystr -> option pystr) (e : exn) :
  load_csv (Ok rows) = Ok before ->
  length row <> 2%nat ->
  load_csv (Ok (rows ++ Ok row :: rest)) = Raise ValueError /\
  load_csv (Ok (rows ++ Raise e :: rest)) = Raise e /\
  load_csv (Raise e) = Raise e.
Proof.
  unfold load_csv. cbn [rbind]. intros Hload Hrow.
  rewrite !dict_app, Hload. cbn [rbind dict].
  destruct row as [|key [|value [|x row]]]; try (split; [reflexivity|auto]).
  exfalso. apply Hrow. reflexivity.
Qed.

(** X24.  Post-processing keeps every stretch of the translated text that
    has no [+] and ends in a character other than whitespace, whatever the
    original text is and wherever the [+] runs of the two texts are,
    wrap-around of the backward scan included. *)
Theorem post_process_prompt_keeps_plus_free (o t d out : pystr) (z : char)
    (d' : pystr) :
  d = d' ++ [z] -> Py.isspace z = false -> ~ In PLUS d ->
  occurs_in d t -> post_process_prompt o t = Ok out -> occurs_in d out.
Proof. apply post_process_prompt_keeps. Qed.

(** X25.  What [extract_plus_positions] returns, for every text: the
    positions of maximal runs of [+], in order and apart, or a list whose
    first start is negative, the backward scan having wrapped around the
    start of the text, which then ends in that many [+]. *)
Theorem extract_plus_positions_positions (text : pystr)
    (outs : list (Z * Z * Z)) :
  extract_plus_positions text = Ok outs ->
  (exists M,
      outs = map position_of M /\
      cuts (Py.len text) 0 M /\ Forall (is_run text) M) \/
  (exists a e n rest,
      outs = (a, e, n) :: rest /\ - Py.len text <= a < 0 /\
      Forall (fun c => c = PLUS) (skipn (Z.to_nat (Py.len text + a)) text)).
Proof. apply extract_plus_positions_shape. Qed.

(** ** The properties at work *)

Lemma process_text_cache_only_witness :
  process_text Scenario.counting Cases.cat_cache
    ([Scenario.mao] ++ str ", a dog") "tlh_XX" (Scenario.start Scenario.blank)
  = (Scenario.start Scenario.blank, Ok (str "cat, a dog")).
Proof.
  exact (process_text_cache_only Scenario.counting Cases.cat_cache
           (fun text => if Py.eqb text [Scenario.mao] then Some (str "cat")
                        else None)
           ([Scenario.mao] ++ str ", a dog") "tlh_XX"%string
           (Scenario.start Scenario.blank) eq_refl eq_refl).
Defined.

Lemma process_text_english_unchanged_witness :
  process_text Scenario.counting Scenario.no_cache
    (str "a cat <lora:foo:0.8>, sitting") "zh_XX"
    (Scenario.start Scenario.blank)
  = (Scenario.start Scenario.blank, Ok (str "a cat <lora:foo:0.8>, sitting")).
Proof.
  exact (process_text_english_unchanged Scenario.counting Scenario.no_cache
           (str "a cat <lora:foo:0.8>, sitting") "zh_XX"
           (Scenario.start Scenario.blank) eq_refl).
Defined.

Lemma extract_plus_positions_without_leading_plus_witness :
  extract_plus_positions (str "a++ b+ c")
  = Ok (reported_runs (str "a++ b+ c")) /\
  runs_from (str "a++ b+ c") 1 (Re.finditer Re.plus_run (str "a++ b+ c")).
Proof.
  exact (extract_plus_positions_without_leading_plus (str "a++ b+ c")
           eq_refl).
Defined.

Lemma post_process_prompt_without_weights_witness :
  match post_process_prompt (str "a cat") (str "un chat) ++ x+") with
  | Ok out => out = remove_unnecessary_spaces (str "un chat) ++ x+")
  | Raise e => e = IndexError /\ only_plus (str "un chat) ++ x+") = true
  end.
Proof.
  apply post_process_prompt_without_weights.
  intros H. simpl in H.
  repeat (destruct H as [H|H]; [discriminate|]). exact H.
Defined.

Lemma match_pluses_self_witness :
  match_pluses (str "(cat)++ and (dog)+++ now")
    (str "(cat)++ and (dog)+++ now")
  = Ok (str "(cat)++ and (dog)+++ now").
Proof.
  exact (match_pluses_self (str "(cat)++ and (dog)+++ now") eq_refl).
Defined.

Lemma language_index_out_of_range_witness :
  translate_prompts Scenario.counting Scenario.no_cache language_options 67
    [str "a cat"; str "a dog"] (Scenario.start Scenario.blank)
  = (Scenario.start Scenario.blank, Raise IndexError).
Proof.
  apply (language_index_out_of_range Scenario.counting Scenario.no_cache
           language_options 67 (str "a cat") [str "a dog"] IndexError).
  - reflexivity.
  - discriminate.
Defined.

Lemma english_batch_untranslated_witness :
  exists outs,
    translate_prompts Scenario.counting Scenario.no_cache language_options
      Scenario.chinese [str "a cat"; str "a cat"; str "(dog) ++"]
      (Scenario.start Scenario.blank)
    = (Scenario.start Scenario.blank, Ok outs) /\
    Forall2 (fun x y => post_process_prompt x x = Ok y)
      [str "a cat"; str "a cat"; str "(dog) ++"] outs.
Proof.
  apply (english_batch_untranslated Scenario.counting Scenario.no_cache
           language_options Scenario.chinese _
           (lang_opt "Chinese" "zh_XX")).
  - reflexivity.
  - repeat constructor.
Defined.

Lemma process_fills_every_slot_witness :
  let w :=
    Scenario.start
      {| prompt := [Scenario.mao]; all_prompts := [];
         negative_prompt := []; all_negative_prompts := [];
         prompt_for_display := [] |} in
  let out :=
    process_with Scenario.counting Scenario.no_cache language_options
      Scenario.active Scenario.chinese w in
  match snd out with
  | Raise _ => True
  | Ok _ =>
      (exists w1,
          translate_prompts Scenario.counting Scenario.no_cache
            language_options Scenario.chinese (fst (get_prompts (p w))) w
          = (w1, Ok (all_prompts (p (fst out))))) /\
      length (all_prompts (p (fst out)))
      = length (fst (get_prompts (p w))) /\
      Py.getitem (all_prompts (p (fst out))) 0 = Ok (prompt (p (fst out))) /\
      prompt_for_display (p (fst out)) = prompt (p (fst out))
  end.
Proof.
  exact (process_fills_every_slot Scenario.counting Scenario.no_cache
           language_options Scenario.chinese Scenario.active
           (Scenario.start
              {| prompt := [Scenario.mao]; all_prompts := [];
                 negative_prompt := []; all_negative_prompts := [];
                 prompt_for_display := [] |}) eq_refl).
Defined.

Lemma match_pluses_changes_plus_only_witness :
  exists out,
    match_pluses (str "(cat)++ and (dog)+++")
      (str "un chat)+ et un chien)++++") = Ok out /\
    filter (fun c => negb (N.eqb c PLUS)) out
    = filter (fun c => negb (N.eqb c PLUS))
        (str "un chat)+ et un chien)++++").
Proof.
  exact (match_pluses_changes_plus_only (str "(cat)++ and (dog)+++")
           (str "un chat)+ et un chien)++++") eq_refl eq_refl).
Defined.

Lemma post_process_prompt_keeps_words_witness :
  exists out,
    post_process_prompt (str "(cat)++ and (dog)+++")
      (str "un chat) ++ et un chien)++++") = Ok out /\
    filter (fun c => negb (N.eqb c PLUS) && negb (Py.isspace c)) out
    = filter (fun c => negb (N.eqb c PLUS) && negb (Py.isspace c))
        (str "un chat) ++ et un chien)++++").
Proof.
  exact (post_process_prompt_keeps_words (str "(cat)++ and (dog)+++")
           (str "un chat) ++ et un chien)++++") eq_refl eq_refl).
Defined.

Lemma load_csv_last_row_wins_witness :
  custom_translate [Scenario.mao]
    (fun text => if Py.eqb text [Scenario.mao] then Some (str "cat")
                 else if Py.eqb text [Scenario.mao] then Some (str "kitten")
                 else None)
  = Some (str "cat") /\
  exists before,
    load_csv (Ok [Ok [[Scenario.mao]; str "kitten"]]) = Ok before /\
    forall text, text <> [Scenario.mao] ->
      custom_translate text
        (fun text => if Py.eqb text [Scenario.mao] then Some (str "cat")
                     else if Py.eqb text [Scenario.mao]
                          then Some (str "kitten")
                          else None)
      = custom_translate text before.
Proof.
  exact (load_csv_last_row_wins [Ok [[Scenario.mao]; str "kitten"]]
           [Scenario.mao] (str "cat") _ eq_refl).
Defined.

Lemma load_csv_failure_witness :
  load_csv (Ok ([Ok [[Scenario.mao]; str "cat"]] ++ Ok [] :: []))
  = Raise ValueError /\
  load_csv (Ok ([Ok [[Scenario.mao]; str "cat"]]
                ++ Raise UnicodeDecodeError :: []))
  = Raise UnicodeDecodeError /\
  load_csv (Raise UnicodeDecodeError) = Raise UnicodeDecodeError.
Proof.
  apply (load_csv_failure [Ok [[Scenario.mao]; str "cat"]] [] []
           (fun text => if Py.eqb text [Scenario.mao] then Some (str "cat")
                        else None)
           UnicodeDecodeError).
  - reflexivity.
  - simpl. lia.
Defined.

Lemma post_process_prompt_keeps_plus_free_witness :
  occurs_in (str "<lora:foo:0.8>") (str "(cat)+ <lora:foo:0.8> dog+").
Proof.
  apply (post_process_prompt_keeps_plus_free
           ([Scenario.mao] ++ str "+ " ++ [Scenario.gou] ++ str "+")
           (str "(cat) ++ <lora:foo:0.8> dog++")
           (str "<lora:foo:0.8>") _ GT (str "<lora:foo:0.8")).
  - reflexivity.
  - reflexivity.
  - simpl. unfold PLUS. intros H.
    repeat (destruct H as [H|H]; [discriminate|]). exact H.
  - exists (str "(cat) ++ "), (str " dog++"). reflexivity.
  - reflexivity.
Defined.

Lemma extract_plus_positions_positions_witness :
  (exists M,
      [(-1, 1, 2); (2, 3, 1)] = map position_of M /\
      cuts (Py.len (str "+a+")) 0 M /\ Forall (is_run (str "+a+")) M) \/
  (exists a e n rest,
      [(-1, 1, 2); (2, 3, 1)] = (a, e, n) :: rest /\
      - Py.len (str "+a+") <= a < 0 /\
      Forall (fun c => c = PLUS)
        (skipn (Z.to_nat (Py.len (str "+a+") + a)) (str "+a+"))).
Proof.
  exact (extract_plus_positions_positions (str "+a+") _ eq_refl).
Defined.
